(** * rule-22: elementary cellular automaton, URL codec and starred store

    A shallow embedding of the simulation engine
    ([src/useElementaryAutomaton.ts], the hook with the ring boundary),
    the rule codec ([to8BitBinary], imported from [./rules]), the
    bitset/URL codec (the module imported as [./urlState], in
    [src/useStarredConfigs.ts]) and the starred-configuration store
    ([src/starredConfigs.ts]), together with the properties the
    specification states about them. *)

From Stdlib Require Import ZArith QArith Qround Lia Lqa Ascii String DecimalString.
From stdpp Require Import base tactics option list list_numbers relations sorting.
From stdpp Require Import gmap strings.

Local Open Scope Z_scope.

(** ** JavaScript numbers and primitive operations *)

Module JS.

(** A JavaScript number.  Every finite double is a rational, and the
    operations used by the program ([Math.floor], comparisons,
    [Number.isInteger], [Number.isFinite]) are exact on doubles, so the
    finite values are modelled by [Q]. *)
Inductive number : Type :=
| Finite (q : Q)
| NaN
| PosInfinity
| NegInfinity.

Definition Int (z : Z) : number := Finite (inject_Z z).

Definition isFinite (x : number) : bool :=
  match x with Finite _ => true | _ => false end.

(** [Number.isInteger]: finite with no fractional part. *)
Definition isInteger (x : number) : bool :=
  match x with
  | Finite q => Z.eqb (Qnum q mod Zpos (Qden q)) 0
  | _ => false
  end.

(** [a - b]; an undetermined difference of infinities is [NaN]. *)
Definition sub (a b : number) : number :=
  match a, b with
  | Finite x, Finite y => Finite (x - y)
  | NaN, _ | _, NaN => NaN
  | PosInfinity, PosInfinity | NegInfinity, NegInfinity => NaN
  | PosInfinity, _ | _, NegInfinity => PosInfinity
  | NegInfinity, _ | _, PosInfinity => NegInfinity
  end.

(** Whether a comparator result keeps the first argument in front: it
    is negative or zero, [NaN] counting as zero. *)
Definition not_after (d : number) : bool :=
  match d with
  | Finite q => Qle_bool q 0
  | PosInfinity => false
  | NaN | NegInfinity => true
  end.

(** [a % b] on integers: the remainder takes the sign of the dividend. *)
Definition rem (a b : Z) : Z := Z.rem a b.

(** 32-bit conversions used by the bitwise operators. *)
Definition ToInt32 (z : Z) : Z := (z + 2 ^ 31) mod 2 ^ 32 - 2 ^ 31.
Definition ToUint32 (z : Z) : Z := z mod 2 ^ 32.

Definition shl (a b : Z) : Z :=
  ToInt32 (Z.shiftl (ToInt32 a) (ToUint32 b mod 32)).
Definition shr (a b : Z) : Z :=
  Z.shiftr (ToInt32 a) (ToUint32 b mod 32).
Definition bor (a b : Z) : Z := Z.lor (ToInt32 a) (ToInt32 b).
Definition band (a b : Z) : Z := Z.land (ToInt32 a) (ToInt32 b).

(** [arr[i]]: [None] stands for [undefined] (index out of range). *)
Definition get {A} (arr : list A) (i : Z) : option A :=
  if decide (0 ≤ i) then arr !! Z.to_nat i else None.

(** [arr[i] = v] on an ordinary array whose slots may be holes: inside
    the array the slot is overwritten, at or past the end the array is
    extended, leaving holes ([None]) in between. *)
Definition set {A} (arr : list (option A)) (i : nat) (v : A)
  : list (option A) :=
  if decide (i < length arr)%nat then <[i := Some v]> arr
  else arr ++ replicate (i - length arr) None ++ [Some v].

(** [Array.from({length: n}, (_, i) => f i)]. *)
Definition from_length {A} (n : Z) (f : Z → A) : list A := f <$> seqZ 0 n.

(** [set.add(x)] on a [Set<number>], which keeps its members in
    insertion order. *)
Definition set_add (s : list Z) (x : Z) : list Z :=
  if decide (x ∈ s) then s else s ++ [x].

(** [arr.sort(cmp)]: the sort is stable, and with a consistent
    comparator its result is determined; [leb x y] stands for
    [cmp(x, y) <= 0]. *)
Fixpoint insert {A} (leb : A → A → bool) (x : A) (l : list A) : list A :=
  match l with
  | [] => [x]
  | y :: l' => if leb x y then x :: y :: l' else y :: insert leb x l'
  end.

Definition sort {A} (leb : A → A → bool) (l : list A) : list A :=
  foldr (insert leb) [] l.

(** [Math.floor(a / b)] and [Math.ceil(a / b)] on integers. *)
Definition floor_div (a b : Z) : Z := Qfloor (inject_Z a / inject_Z b).
Definition ceil_div (a b : Z) : Z := Qceiling (inject_Z a / inject_Z b).

(** [String(n)] for an integer [n] below the size at which JavaScript
    switches to exponent notation. *)
Definition String_of_int (z : Z) : string :=
  NilZero.string_of_int (Z.to_int z).

End JS.

Import JS.

(** ** Simulation engine ([src/useElementaryAutomaton.ts], the version
    with [seedIndices] and the ring boundary) *)

Module Engine.

(** A cell is [0 | 1]; a row is an array of cells. *)
Definition is_cell (c : Z) : Prop := c = 0 ∨ c = 1.
Abbreviation row := (list Z).

(** [clampRuleDecimal] *)
Definition clampRuleDecimal (ruleDecimal : number) : Z :=
  match ruleDecimal with
  | Finite q => Z.max 0 (Z.min 255 (Qfloor q))
  | _ => 0
  end.

(** [applyElementaryRule] *)
Definition applyElementaryRule (ruleDecimal left current right : Z) : Z :=
  let idx := bor (bor (shl left 2) (shl current 1)) right in
  band (shr ruleDecimal idx) 1.

(** The body of [Array.from] in the interval callback: the next value of
    cell [i], read from the previous row only. *)
Definition nextCell (rule boundaryValue : Z) (blocks : row) (i : Z) : Z :=
  let n := Z.of_nat (length blocks) in
  if decide (n = 0) then boundaryValue
  else
    let left := default boundaryValue (get blocks (rem (i - 1 + n) n)) in
    let current := default boundaryValue (get blocks i) in
    let right := default boundaryValue (get blocks (rem (i + 1) n)) in
    applyElementaryRule rule left current right.

Definition nextBlocks (rule boundaryValue : Z) (blocks : row) : row :=
  from_length (Z.of_nat (length blocks)) (nextCell rule boundaryValue blocks).

(** [countOnes] *)
Definition countOnes (values : row) : Z := foldl Z.add 0 values.

Record HistoryEntry := { h_generation : Z; h_blocks : row }.

Record State := {
  blocks : row;
  generation : Z;
  isRunning : bool;
  onesHistory : list (option Z);
  blocksHistory : list (option HistoryEntry);
}.

(** The loop that collects the explicit seed positions: non-finite
    entries are skipped, the others are floored and kept when they fall
    inside the row. *)
Definition collectSeeds (totalItems : Z) (seedIndices : list number)
  : list Z :=
  foldl (λ s idx,
           match idx with
           | Finite q =>
               let i := Qfloor q in
               if decide (i < 0 ∨ totalItems ≤ i) then s else set_add s i
           | _ => s
           end) [] seedIndices.

(** [values[i] = 1] for every [i] of [positions]. *)
Definition markOnes (values : row) (positions : list Z) : row :=
  foldl (λ vs i, <[Z.to_nat i := 1]> vs) values positions.

(** [[a[i], a[j]] = [a[j], a[i]]] *)
Definition swap (i j : nat) (a : list Z) : list Z :=
  match a !! i, a !! j with
  | Some x, Some y => <[j := x]> (<[i := y]> a)
  | _, _ => a
  end.

(** The Fisher-Yates loop [for (i = length - 1; i > 0; i--)].  The
    source of randomness is explicit: [draws i] stands for the value of
    [Math.random()] scaled to an integer, and
    [Math.floor(Math.random() * (i + 1))] is [draws i mod (i + 1)]. *)
Fixpoint shuffle (draws : nat → nat) (i : nat) (indices : list Z)
  : list Z :=
  match i with
  | O => indices
  | S i' => shuffle draws i' (swap i (draws i mod (i + 1))%nat indices)
  end.

(** [Math.max(0, Math.min(totalItems, Math.floor(initialOnes)))];
    [None] is [NaN]. *)
Definition seedCount (totalItems : Z) (initialOnes : number) : option Z :=
  match initialOnes with
  | Finite q => Some (Z.max 0 (Z.min totalItems (Qfloor q)))
  | NaN => None
  | PosInfinity => Some (Z.max 0 totalItems)
  | NegInfinity => Some 0
  end.

(** [makeInitialValues] *)
Definition makeInitialValues (draws : nat → nat) (totalItems : Z)
    (initialOnes : number) (boundaryValue : option Z)
    (seedIndices : option (list number)) : row :=
  let n := seedCount totalItems initialOnes in
  let values := from_length totalItems (λ _, default 0 boundaryValue) in
  if decide (totalItems = 0) then values
  else
    match seedIndices with
    | Some (idx :: rest) =>
        markOnes values (collectSeeds totalItems (idx :: rest))
    | _ =>
        if decide (n = Some 0) then values
        else
          let indices := from_length totalItems (λ i, i) in
          let shuffled := shuffle draws (length indices - 1) indices in
          (* [for (k = 0; k < n; k++)] runs no iteration when n is NaN *)
          markOnes values (take (Z.to_nat (default 0 n)) shuffled)
    end.

(** The options of the hook, with the defaults of its signature
    resolved by the caller. *)
Record Options := {
  ruleDecimal : number;
  totalItems : Z;
  initialOnes : number;
  seedIndices : option (list number);
  generations : Z;
  delay : Z;
  boundaryValue : option Z;
}.

(** The hook's destructuring default [boundaryValue = 0]. *)
Definition hookBoundary (o : Options) : Z := default 0 (boundaryValue o).

(** The state updater run by the interval timer.  The generation
    pointer counts from 0, so the bound of [slice] and the index of the
    assignment are natural numbers. *)
Definition tick (o : Options) (prev : State) : State :=
  let rule := clampRuleDecimal (ruleDecimal o) in
  let nb := nextBlocks rule (hookBoundary o) (blocks prev) in
  let nextGeneration := generation prev + 1 in
  let keep := Z.to_nat (generation prev + 1) in
  let nextHistory :=
    JS.set (take keep (onesHistory prev)) (Z.to_nat nextGeneration)
           (countOnes nb) in
  let nextBlocksHistory :=
    JS.set (take keep (blocksHistory prev)) (Z.to_nat nextGeneration)
           {| h_generation := nextGeneration; h_blocks := nb |} in
  {| blocks := nb;
     generation := nextGeneration;
     isRunning := if decide (generations o ≤ nextGeneration) then false
                  else isRunning prev;
     onesHistory := nextHistory;
     blocksHistory := nextBlocksHistory |}.

(** The state built by the initializer, by [reset] and by [start]. *)
Definition seeded (draws : nat → nat) (o : Options) (running : bool)
  : State :=
  let blocks := makeInitialValues draws (totalItems o) (initialOnes o)
                  (Some (hookBoundary o)) (seedIndices o) in
  {| blocks := blocks;
     generation := 0;
     isRunning := running;
     onesHistory := [Some (countOnes blocks)];
     blocksHistory := [Some {| h_generation := 0; h_blocks := blocks |}] |}.

Definition start (draws : nat → nat) (o : Options) : State :=
  seeded draws o true.

Definition reset (draws : nat → nat) (o : Options) : State :=
  seeded draws o false.

Definition stop (prev : State) : State :=
  {| blocks := blocks prev;
     generation := generation prev;
     isRunning := false;
     onesHistory := onesHistory prev;
     blocksHistory := blocksHistory prev |}.

(** The interval timer exists only while [isRunning] holds (the effect
    returns early otherwise), so the clock drives the engine by this
    step relation. *)
Inductive step (o : Options) : State → State → Prop :=
| step_tick (st : State) :
    isRunning st = true → step o st (tick o st).

(** [run o k st]: the state after [k] clock ticks, stopping as soon as
    the engine is idle. *)
Fixpoint run (o : Options) (k : nat) (st : State) : State :=
  match k with
  | O => st
  | S k' => if isRunning st then run o k' (tick o st) else st
  end.

End Engine.

(** ** Rule codec ([to8BitBinary] of [./rules]) *)

Module Rules.

(** [n.toString(2)] for an integer [n]. *)
Fixpoint pos_bits (p : positive) : list ascii :=
  match p with
  | xH => ["1"%char]
  | xO p' => pos_bits p' ++ ["0"%char]
  | xI p' => pos_bits p' ++ ["1"%char]
  end.

Definition toString2 (z : Z) : list ascii :=
  match z with
  | Z0 => ["0"%char]
  | Zpos p => pos_bits p
  | Zneg p => "-"%char :: pos_bits p
  end.

(** [s.padStart(width, fill)] with a one-character filler. *)
Definition padStart (width : nat) (fill : ascii) (s : list ascii)
  : list ascii :=
  replicate (width - length s) fill ++ s.

(** The [Error] thrown for a rule that is not an integer of [0, 255]
    (the specification's InvalidRuleError). *)
Inductive exn : Type := InvalidRuleError.

Inductive outcome (A : Type) : Type :=
| Return (a : A)
| Throw (e : exn).
Arguments Return {A} a.
Arguments Throw {A} e.

(** [to8BitBinary] *)
Definition to8BitBinary (decimal : number) : outcome string :=
  match decimal with
  | Finite q =>
      if negb (isInteger decimal) || negb (Qle_bool 0 q)
         || negb (Qle_bool q 255)
      then Throw InvalidRuleError
      else Return (string_of_list_ascii
                     (padStart 8 "0"%char (toString2 (Qfloor q))))
  | _ => Throw InvalidRuleError
  end.

End Rules.

(** ** Base64 as the platform provides it ([btoa] and [atob]) *)

Module Base64.

Definition alphabet : list ascii :=
  list_ascii_of_string
    "ABCDEFGHIJKLMNOPQRSTUVWXYZabcdefghijklmnopqrstuvwxyz0123456789+/".

(** The character of a six-bit group, and the group of a character. *)
Definition b64_char (v : Z) : ascii :=
  default "="%char (JS.get alphabet v).

Definition b64_value (c : ascii) : option Z :=
  (λ p, Z.of_nat (fst p)) <$> list_find (λ a, a = c) alphabet.

Definition pad : ascii := "="%char.

(** [btoa] on a binary string given by its character codes: three
    bytes give four characters; a final group of one or two bytes is
    completed with zero bits and padded with [=]. *)
Fixpoint btoa_codes (bytes : list Z) : list ascii :=
  match bytes with
  | b0 :: b1 :: b2 :: rest =>
      let n := (b0 * 256 + b1) * 256 + b2 in
      b64_char (n / 262144) :: b64_char (n / 4096 mod 64)
        :: b64_char (n / 64 mod 64) :: b64_char (n mod 64)
        :: btoa_codes rest
  | [b0; b1] =>
      let n := (b0 * 256 + b1) * 4 in
      [b64_char (n / 4096); b64_char (n / 64 mod 64); b64_char (n mod 64);
       pad]
  | [b0] =>
      let n := b0 * 16 in
      [b64_char (n / 64); b64_char (n mod 64); pad; pad]
  | [] => []
  end.

Definition charCode (c : ascii) : Z := Z.of_N (N_of_ascii c).
Definition fromCharCode (b : Z) : ascii := ascii_of_N (Z.to_N b).

Definition btoa (bin : list ascii) : list ascii :=
  btoa_codes (charCode <$> bin).

(** [atob] is the forgiving-base64 decoder of the HTML standard. *)
Definition is_ascii_whitespace (c : ascii) : bool :=
  bool_decide (charCode c ∈ [9; 10; 12; 13; 32]).

(** Step 2: when the length is a multiple of four, one or two trailing
    [=] are removed. *)
Definition strip_padding (data : list ascii) : list ascii :=
  if decide (length data mod 4 = 0)%nat then
    match reverse data with
    | c1 :: c2 :: r =>
        if decide (c1 = pad) then
          if decide (c2 = pad) then reverse r else reverse (c2 :: r)
        else data
    | [c1] => if decide (c1 = pad) then [] else data
    | [] => data
    end
  else data.

(** Steps 5 to 9: every four groups are 24 bits, read as three bytes;
    12 remaining bits give one byte and 18 give two, the last four or
    two bits being discarded. *)
Fixpoint decode_groups (groups : list Z) : list Z :=
  match groups with
  | s0 :: s1 :: s2 :: s3 :: rest =>
      let n := ((s0 * 64 + s1) * 64 + s2) * 64 + s3 in
      n / 65536 :: n / 256 mod 256 :: n mod 256 :: decode_groups rest
  | [s0; s1; s2] =>
      let n := ((s0 * 64 + s1) * 64 + s2) / 4 in
      [n / 256; n mod 256]
  | [s0; s1] => [(s0 * 64 + s1) / 16]
  | _ => []
  end.

(** [None] stands for the InvalidCharacterError exception of [atob]. *)
Definition atob (data : list ascii) : option (list ascii) :=
  let data := filter (λ c, is_ascii_whitespace c = false) data in
  let data := strip_padding data in
  if decide (length data mod 4 = 1)%nat then None
  else
    groups ← mapM b64_value data;
    Some (fromCharCode <$> decode_groups groups).

End Base64.

(** ** Bitset and URL codec ([./urlState], in [src/useStarredConfigs.ts]) *)

Module UrlState.

Record ShareableAutomatonState := {
  ruleDecimal : number;
  totalItems : number;
  generations : number;
  delay : number;
  seedIndices : list number;
}.

(** [Partial<ShareableAutomatonState>]: [None] is an omitted field. *)
Record PartialState := {
  p_ruleDecimal : option Z;
  p_totalItems : option Z;
  p_generations : option Z;
  p_delay : option Z;
  p_seedIndices : option (list Z);
}.

(** [clampInt] *)
Definition clampInt (value : number) (min max : Z) : Z :=
  let v := match value with Finite q => Qfloor q | _ => min end in
  Z.max min (Z.min max v).

(** [uniqSortedIndices] *)
Definition uniqSortedIndices (indices : list number) (totalItems : Z)
  : list Z :=
  let set :=
    foldl (λ s idx,
             match idx with
             | Finite q =>
                 let i := Qfloor q in
                 if decide (i < 0 ∨ totalItems ≤ i) then s
                 else set_add s i
             | _ => s
             end) [] indices in
  JS.sort (λ a b, a - b <=? 0) set.

(** [s.replaceAll(from, to)] for one-character patterns, and
    [s.replaceAll(from, to)] with an empty [to]. *)
Definition replaceAll (from to : ascii) (s : list ascii) : list ascii :=
  (λ c, if decide (c = from) then to else c) <$> s.

Definition removeAll (from : ascii) (s : list ascii) : list ascii :=
  filter (λ c, c ≠ from) s.

(** [base64UrlEncode]; a [Uint8Array] is the list of its bytes. *)
Definition base64UrlEncode (bytes : list Z) : string :=
  let bin := Base64.fromCharCode <$> bytes in
  let b64 := Base64.btoa bin in
  string_of_list_ascii
    (removeAll "="%char
       (replaceAll "/"%char "_"%char (replaceAll "+"%char "-"%char b64))).

(** The string handed to [atob]: the URL-safe substitutions are undone
    and the padding is restored. *)
Definition padded (s : string) : list ascii :=
  let b64 :=
    replaceAll "_"%char "/"%char
      (replaceAll "-"%char "+"%char (list_ascii_of_string s)) in
  let padLen :=
    JS.rem (4 - JS.rem (Z.of_nat (length b64)) 4) 4 in
  b64 ++ replicate (Z.to_nat padLen) "="%char.

(** [base64UrlDecode]: the [catch] turns the exception of [atob] into
    [null]. *)
Definition base64UrlDecode (s : string) : option (list Z) :=
  match Base64.atob (padded s) with
  | Some bin => Some (Base64.charCode <$> bin)
  | None => None
  end.

(** [bytes[i] |= mask] on a [Uint8Array]: the stored value wraps to
    eight bits, and a store outside the array is ignored. *)
Definition or_byte (bytes : list Z) (i mask : Z) : list Z :=
  match JS.get bytes i with
  | Some b => <[Z.to_nat i := JS.bor b mask mod 256]> bytes
  | None => bytes
  end.

(** The packed bytes built by [encodeSeedBitset]. *)
Definition packBits (safeTotal : Z) (indices : list Z) : list Z :=
  let byteLen := JS.ceil_div safeTotal 8 in
  foldl (λ bytes idx,
           let byteIndex := JS.floor_div idx 8 in
           let bitInByte := JS.rem idx 8 in
           or_byte bytes byteIndex (JS.shl 1 (7 - bitInByte)))
        (replicate (Z.to_nat byteLen) 0) indices.

(** [encodeSeedBitset] *)
Definition encodeSeedBitset (totalItems : number)
    (seedIndices : list number) : string :=
  let safeTotal := clampInt totalItems 1 300 in
  let indices := uniqSortedIndices seedIndices safeTotal in
  base64UrlEncode (packBits safeTotal indices).

(** The bit of index [idx] as [decodeSeedBitset] reads it. *)
Definition readBit (bytes : list Z) (idx : Z) : Z :=
  let byteIndex := JS.floor_div idx 8 in
  let bitInByte := JS.rem idx 8 in
  let b := default 0 (JS.get bytes byteIndex) in
  JS.band (JS.shr b (7 - bitInByte)) 1.

(** [decodeSeedBitset] *)
Definition decodeSeedBitset (totalItems : number) (encoded : string)
  : option (list Z) :=
  let safeTotal := clampInt totalItems 1 300 in
  match base64UrlDecode encoded with
  | None => None
  | Some bytes =>
      Some (filter (λ idx, readBit bytes idx = 1) (seqZ 0 safeTotal))
  end.

(** *** [URLSearchParams] *)

Definition params := list (string * string).

(** [params.get(name)]: the value of the first pair named [name]. *)
Definition params_get (p : params) (name : string) : option string :=
  snd <$> (snd <$> list_find (λ kv, fst kv = name) p).

(** [params.set(name, value)]: the first pair named [name] takes the
    value and the other ones are removed; without such a pair a new
    one is appended. *)
Fixpoint params_set (name value : string) (p : params) : params :=
  match p with
  | [] => [(name, value)]
  | (k, v) :: rest =>
      if decide (k = name)
      then (k, value) :: filter (λ kv, fst kv ≠ name) rest
      else (k, v) :: params_set name value rest
  end.

(** [params.toString()]: the application/x-www-form-urlencoded
    serialization of the bytes of each name and value. *)
Definition hex_digit (n : Z) : ascii :=
  default "0"%char
    (JS.get (list_ascii_of_string "0123456789ABCDEF") n).

Definition is_unreserved (c : ascii) : bool :=
  let n := Base64.charCode c in
  bool_decide ((48 ≤ n ≤ 57) ∨ (65 ≤ n ≤ 90) ∨ (97 ≤ n ≤ 122)
               ∨ n ∈ [42; 45; 46; 95]).

Definition encode_byte (c : ascii) : list ascii :=
  if is_unreserved c then [c]
  else if decide (c = " "%char) then ["+"%char]
  else
    let n := Base64.charCode c in
    ["%"%char; hex_digit (n / 16); hex_digit (n mod 16)].

Definition encode_component (s : string) : list ascii :=
  mbind encode_byte (list_ascii_of_string s).

Fixpoint join_pairs (p : params) : list ascii :=
  match p with
  | [] => []
  | [(k, v)] => encode_component k ++ "="%char :: encode_component v
  | (k, v) :: rest =>
      encode_component k ++ "="%char :: encode_component v
        ++ "&"%char :: join_pairs rest
  end.

Definition params_toString (p : params) : string :=
  string_of_list_ascii (join_pairs p).

(** [buildShareableSearch] *)
Definition buildShareableSearch (state : ShareableAutomatonState)
  : string :=
  let p : params := [] in
  let p := params_set "r"
             (String_of_int (clampInt (ruleDecimal state) 0 255)) p in
  let p := params_set "w"
             (String_of_int (clampInt (totalItems state) 1 300)) p in
  let p := params_set "g"
             (String_of_int (clampInt (generations state) 1 500)) p in
  let p := params_set "d"
             (String_of_int (clampInt (delay state) 10 5000)) p in
  let p := params_set "s"
             (encodeSeedBitset (totalItems state) (seedIndices state)) p in
  let s := params_toString p in
  if decide (String.length s = 0)%nat then EmptyString else "?" +:+ s.

(** The parts of the platform that read a location: the parser behind
    [new URLSearchParams(search)] and the string-to-number conversion
    [Number(raw)]. *)
Section Platform.

Variable URLSearchParams : string → params.
Variable Number : string → number.

(** [parseIntParam] *)
Definition parseIntParam (p : params) (key : string) (fallback : Z)
  : Z :=
  match params_get p key with
  | None => fallback
  | Some raw =>
      match Number raw with
      | Finite q => Qfloor q
      | _ => fallback
      end
  end.

(** [parseShareableStateFromLocation]; an array, even an empty one,
    is truthy, so the spread adds [seedIndices] whenever the decoder
    returned an array. *)
Definition parseShareableStateFromLocation (search : string)
  : PartialState :=
  let p := URLSearchParams search in
  let ruleDecimal := clampInt (Int (parseIntParam p "r" 22)) 0 255 in
  let totalItems := clampInt (Int (parseIntParam p "w" 118)) 1 300 in
  let generations := clampInt (Int (parseIntParam p "g" 100)) 1 500 in
  let delay := clampInt (Int (parseIntParam p "d" 10)) 10 5000 in
  let seedEncoded := params_get p "s" in
  let seedIndices :=
    match seedEncoded with
    | Some enc => decodeSeedBitset (Int totalItems) enc
    | None => None
    end in
  {| p_ruleDecimal := Some ruleDecimal;
     p_totalItems := Some totalItems;
     p_generations := Some generations;
     p_delay := Some delay;
     p_seedIndices := seedIndices |}.

End Platform.

End UrlState.

(** ** Starred-configuration store ([src/starredConfigs.ts]) *)

Module Starred.

(** The values [JSON.parse] can return. *)
#[warnings="-register-all"] Inductive json : Type :=
| JNull
| JBool (b : bool)
| JNumber (n : number)
| JString (s : string)
| JArray (items : list json)
| JObject (fields : list (string * json)).

Definition STORAGE_KEY : string := "rule22.starredConfigs.v1".
Definition MAX_ITEMS : nat := 50.

(** [v.key]: [None] is [undefined].  None of the four names read by
    the store is a property of an array. *)
Definition prop (v : json) (key : string) : option json :=
  match v with
  | JObject fields =>
      snd <$> (snd <$> list_find (λ kv, fst kv = key) fields)
  | _ => None
  end.

(** [{...fields, key: value}] *)
Fixpoint with_prop (key : string) (value : json)
    (fields : list (string * json)) : list (string * json) :=
  match fields with
  | [] => [(key, value)]
  | (k, v) :: rest =>
      if decide (k = key) then (k, value) :: rest
      else (k, v) :: with_prop key value rest
  end.

Definition is_string (v : option json) : bool :=
  match v with Some (JString _) => true | _ => false end.

Definition is_finite_number (v : option json) : bool :=
  match v with Some (JNumber n) => isFinite n | _ => false end.

(** [isStarredConfig]: [null] is falsy; objects and arrays are the
    values whose [typeof] is ["object"]. *)
Definition isStarredConfig (value : json) : bool :=
  match value with
  | JObject _ | JArray _ =>
      is_string (prop value "id")
      && is_string (prop value "search")
      && is_finite_number (prop value "ruleDecimal")
      && is_finite_number (prop value "createdAt")
  | _ => false
  end.

(** [normalizeSearch] *)
Definition normalizeSearch (search : string) : string :=
  match search with
  | EmptyString => EmptyString
  | String c _ => if decide (c = "?"%char) then search else "?" +:+ search
  end.

(** [item.createdAt] of a validated entry. *)
Definition createdAt (item : json) : number :=
  match prop item "createdAt" with
  | Some (JNumber n) => n
  | _ => NaN
  end.

(** [(a, b) => b.createdAt - a.createdAt] is negative or zero. *)
Definition newer_first (a b : json) : bool :=
  not_after (JS.sub (createdAt b) (createdAt a)).

(** One iteration of the loop over the validated items; the state is
    the set [seen] and the array [out]. *)
Definition dedupe_step (acc : gset string * list json) (item : json)
  : gset string * list json :=
  let '(seen, out) := acc in
  match item, prop item "search" with
  | JObject fields, Some (JString s) =>
      let search := normalizeSearch s in
      let id := search in
      if decide (id = EmptyString) then acc
      else if decide (id ∈ seen) then acc
      else ({[ id ]} ∪ seen,
            out ++ [JObject (with_prop "id" (JString id)
                               (with_prop "search" (JString search)
                                  fields))])
  | _, _ => acc
  end.

Section Platform.

(** [JSON.parse]; [None] is the SyntaxError it throws. *)
Variable JSON_parse : string → option json.

(** [safeJsonParse] *)
Definition safeJsonParse (raw : option string) : json :=
  match raw with
  | None => JNull
  | Some text => default JNull (JSON_parse text)
  end.

(** [loadStarredConfigs]; [window] is [None] where there is no
    [window], otherwise it gives [localStorage.getItem]. *)
Definition loadStarredConfigs
    (window : option (string → option string)) : list json :=
  match window with
  | None => []
  | Some getItem =>
      let raw := getItem STORAGE_KEY in
      match safeJsonParse raw with
      | JArray parsed =>
          let items := List.filter isStarredConfig parsed in
          let out := snd (foldl dedupe_step (∅, []) items) in
          take MAX_ITEMS (JS.sort newer_first out)
      | _ => []
      end
  end.

End Platform.

End Starred.

(** ** The first version of the hook: a fixed boundary
    ([src/useElementaryAutomaton.ts], the hook without [seedIndices]) *)

Module LegacyEngine.
Import Engine.

(** The body of [Array.from] in the interval callback.  A neighbour is
    read from the row only where its index is inside it; an [undefined]
    operand of the bitwise operators counts as 0. *)
Definition nextCell (rule boundaryValue : Z) (blocks : row) (i : Z) : Z :=
  let n := Z.of_nat (length blocks) in
  let left :=
    if decide (0 < i) then default 0 (get blocks (i - 1))
    else boundaryValue in
  let current := default boundaryValue (get blocks i) in
  let right :=
    if decide (i < n - 1) then default 0 (get blocks (i + 1))
    else boundaryValue in
  applyElementaryRule rule left current right.

Definition nextBlocks (rule boundaryValue : Z) (blocks : row) : row :=
  from_length (Z.of_nat (length blocks)) (nextCell rule boundaryValue blocks).

(** The state updater run by the interval timer. *)
Definition tick (o : Options) (prev : State) : State :=
  let rule := clampRuleDecimal (ruleDecimal o) in
  let nb := nextBlocks rule (hookBoundary o) (blocks prev) in
  let nextGeneration := generation prev + 1 in
  let keep := Z.to_nat (generation prev + 1) in
  let nextHistory :=
    JS.set (take keep (onesHistory prev)) (Z.to_nat nextGeneration)
           (countOnes nb) in
  let nextBlocksHistory :=
    JS.set (take keep (blocksHistory prev)) (Z.to_nat nextGeneration)
           {| h_generation := nextGeneration; h_blocks := nb |} in
  {| blocks := nb;
     generation := nextGeneration;
     isRunning := if decide (generations o ≤ nextGeneration) then false
                  else isRunning prev;
     onesHistory := nextHistory;
     blocksHistory := nextBlocksHistory |}.

(** [start] of the first version restarts from the row at hand. *)
Definition start (prev : State) : State :=
  {| blocks := blocks prev;
     generation := 0;
     isRunning := true;
     onesHistory := [Some (countOnes (blocks prev))];
     blocksHistory :=
       [Some {| h_generation := 0; h_blocks := blocks prev |}] |}.

End LegacyEngine.

(** ** The rule-22 hook ([src/useRule22.ts]) *)

Module Rule22Hook.

Record State := {
  blocks : list Z;
  generation : Z;
  isRunning : bool;
  onesHistory : list (option Z);
}.

(** The body of [Array.from]: the cell is 1 exactly when the sum of the
    three cells is 1; a sum with [undefined] is [NaN], which is not 1. *)
Definition nextCell (blocks : list Z) (i : Z) : Z :=
  let n := Z.of_nat (length blocks) in
  let left := if decide (0 < i) then get blocks (i - 1) else Some 0 in
  let current := default 0 (get blocks i) in
  let right := if decide (i < n - 1) then get blocks (i + 1) else Some 0 in
  match left, right with
  | Some l, Some r => if decide (l + current + r = 1) then 1 else 0
  | _, _ => 0
  end.

Definition nextBlocks (blocks : list Z) : list Z :=
  from_length (Z.of_nat (length blocks)) (nextCell blocks).

(** The state updater run by the interval timer. *)
Definition tick (generations : Z) (prev : State) : State :=
  let nb := nextBlocks (blocks prev) in
  let nextGeneration := generation prev + 1 in
  let nextHistory :=
    JS.set (take (Z.to_nat (generation prev + 1)) (onesHistory prev))
           (Z.to_nat nextGeneration) (Engine.countOnes nb) in
  {| blocks := nb;
     generation := nextGeneration;
     isRunning := if decide (generations ≤ nextGeneration) then false
                  else isRunning prev;
     onesHistory := nextHistory |}.

End Rule22Hook.

(** ** Control helpers of the component ([Rule22.tsx]) *)

Module Controls.

(** [clampInt], the component's own copy. *)
Definition clampInt (value : number) (min max : Z) : Z :=
  let v := match value with Finite q => Qfloor q | _ => min end in
  Z.max min (Z.min max v).

(** [randomSeedIndices]; the randomness is explicit as in
    [Engine.shuffle], whose loop is the one written here. *)
Definition randomSeedIndices (draws : nat → nat) (totalItems : Z)
    (count : number) : list Z :=
  let n := clampInt count 0 totalItems in
  let indices := from_length totalItems (λ i, i) in
  let shuffled := Engine.shuffle draws (length indices - 1) indices in
  JS.sort (λ a b, a - b <=? 0) (take (Z.to_nat n) shuffled).

(** [defaultSeedCount] *)
Definition defaultSeedCount (totalItems : Z) : Z :=
  clampInt (Int (floor_div totalItems 2)) 0 totalItems.

(** [normalizeSeedIndices] *)
Definition normalizeSeedIndices (totalItems : Z) (seedIndices : list number)
  : list Z :=
  let set :=
    foldl (λ s idx,
             match idx with
             | Finite q =>
                 let i := Qfloor q in
                 if decide (i < 0 ∨ totalItems ≤ i) then s
                 else set_add s i
             | _ => s
             end) [] seedIndices in
  JS.sort (λ a b, a - b <=? 0) set.

(** The type of [draft] and of [config]: a [ControlState] together
    with the rule, the [T extends ControlState] of [applyControlPatch]. *)
Record Config := {
  c_ruleDecimal : number;
  c_totalItems : number;
  c_initialOnes : number;
  c_seedIndices : list number;
  c_generations : number;
  c_delay : number;
}.

(** [Partial<ControlState>]: [None] is a field the patch does not have. *)
Record ControlPatch := {
  patch_totalItems : option number;
  patch_generations : option number;
  patch_delay : option number;
  patch_seedIndices : option (list number);
  patch_initialOnes : option number;
}.

(** [applyControlPatch]: the patch is laid over the previous state and
    the result is clamped; [initialOnes] is the number of seeds kept,
    and the fields outside [ControlState] are those of [prev]. *)
Definition applyControlPatch (prev : Config) (patch : ControlPatch)
  : Config :=
  let merged_totalItems :=
    default (c_totalItems prev) (patch_totalItems patch) in
  let merged_generations :=
    default (c_generations prev) (patch_generations patch) in
  let merged_delay := default (c_delay prev) (patch_delay patch) in
  let merged_seedIndices :=
    default (c_seedIndices prev) (patch_seedIndices patch) in
  let safeTotal := clampInt merged_totalItems 1 300 in
  let safeGenerations := clampInt merged_generations 1 500 in
  let safeDelay := clampInt merged_delay 10 5000 in
  let safeSeed := normalizeSeedIndices safeTotal merged_seedIndices in
  let safeInitial :=
    clampInt (Int (Z.of_nat (length safeSeed))) 0 safeTotal in
  {| c_ruleDecimal := c_ruleDecimal prev;
     c_totalItems := Int safeTotal;
     c_initialOnes := Int safeInitial;
     c_seedIndices := Int <$> safeSeed;
     c_generations := Int safeGenerations;
     c_delay := Int safeDelay |}.

(** The patch that the [applyControlsPatch] callback hands to
    [applyControlPatch]: a new width without seeds of its own brings
    half a row of random seeds. *)
Definition nextPatch (draws : nat → nat) (patch : ControlPatch)
  : ControlPatch :=
  match patch_totalItems patch, patch_seedIndices patch,
        patch_initialOnes patch with
  | Some t, None, None =>
      let safeTotal := clampInt t 1 300 in
      let count := defaultSeedCount safeTotal in
      let seedIndices := randomSeedIndices draws safeTotal (Int count) in
      {| patch_totalItems := Some (Int safeTotal);
         patch_generations := patch_generations patch;
         patch_delay := patch_delay patch;
         patch_seedIndices := Some (Int <$> seedIndices);
         patch_initialOnes := Some (Int count) |}
  | _, _, _ => patch
  end.

(** The configuration that drives the simulation, the [applied] memo
    of the component. *)
Record Applied := {
  a_ruleDecimal : Z;
  a_totalItems : Z;
  a_initialOnes : Z;
  a_seedIndices : list Z;
  a_generations : Z;
  a_delay : Z;
}.

Definition applied (config : Config) : Applied :=
  let safeRuleDecimal := clampInt (c_ruleDecimal config) 0 255 in
  let safeTotal := clampInt (c_totalItems config) 1 300 in
  let safeSeed := normalizeSeedIndices safeTotal (c_seedIndices config) in
  let safeInitial :=
    clampInt (if isFinite (c_initialOnes config)
              then c_initialOnes config
              else Int (Z.of_nat (length safeSeed))) 0 safeTotal in
  let safeGenerations := clampInt (c_generations config) 1 500 in
  let safeDelay := clampInt (c_delay config) 10 5000 in
  {| a_ruleDecimal := safeRuleDecimal;
     a_totalItems := safeTotal;
     a_initialOnes := safeInitial;
     a_seedIndices := safeSeed;
     a_generations := safeGenerations;
     a_delay := safeDelay |}.

(** The options of [useElementaryAutomaton({...applied})]; no
    [boundaryValue] is passed. *)
Definition hookOptions (a : Applied) : Engine.Options :=
  {| Engine.ruleDecimal := Int (a_ruleDecimal a);
     Engine.totalItems := a_totalItems a;
     Engine.initialOnes := Int (a_initialOnes a);
     Engine.seedIndices := Some (Int <$> a_seedIndices a);
     Engine.generations := a_generations a;
     Engine.delay := a_delay a;
     Engine.boundaryValue := None |}.

(** The state handed to [useStarredConfigs] and to [syncUrlNow]. *)
Definition shareable (a : Applied) : UrlState.ShareableAutomatonState :=
  {| UrlState.ruleDecimal := Int (a_ruleDecimal a);
     UrlState.totalItems := Int (a_totalItems a);
     UrlState.generations := Int (a_generations a);
     UrlState.delay := Int (a_delay a);
     UrlState.seedIndices := Int <$> a_seedIndices a |}.

(** The props of the component, the defaults of its signature
    resolved; [initialOnes] has none. *)
Record Props := {
  props_totalItems : number;
  props_initialOnes : option number;
  props_generations : number;
  props_delay : number;
}.

(** The initializer of [draft]; [fromUrl] is the parsed location, or
    the empty object where there is no [window]. *)
Definition initialDraft (draws : nat → nat) (fromUrl : UrlState.PartialState)
    (props : Props) : Config :=
  let safeTotal :=
    clampInt (default (props_totalItems props)
                (Int <$> UrlState.p_totalItems fromUrl)) 1 300 in
  let safeRule :=
    clampInt (default (Int 22) (Int <$> UrlState.p_ruleDecimal fromUrl))
      0 255 in
  let safeGenerations :=
    clampInt (default (props_generations props)
                (Int <$> UrlState.p_generations fromUrl)) 1 500 in
  let safeDelay :=
    clampInt (default (props_delay props)
                (Int <$> UrlState.p_delay fromUrl)) 10 5000 in
  let seedIndices :=
    match UrlState.p_seedIndices fromUrl with
    | Some (idx :: rest) =>
        normalizeSeedIndices safeTotal (Int <$> idx :: rest)
    | _ =>
        randomSeedIndices draws safeTotal
          (Int (clampInt (default (Int (defaultSeedCount safeTotal))
                            (props_initialOnes props)) 0 safeTotal))
    end in
  {| c_ruleDecimal := Int safeRule;
     c_totalItems := Int safeTotal;
     c_initialOnes := Int (Z.of_nat (length seedIndices));
     c_seedIndices := Int <$> seedIndices;
     c_generations := Int safeGenerations;
     c_delay := Int safeDelay |}.

(** The object [{}] used for [fromUrl] without a [window]. *)
Definition noUrl : UrlState.PartialState :=
  {| UrlState.p_ruleDecimal := None; UrlState.p_totalItems := None;
     UrlState.p_generations := None; UrlState.p_delay := None;
     UrlState.p_seedIndices := None |}.

(** A row of the table of [RuleDetailsPanel]. *)
Record RuleRow := {
  row_idx : Z;
  row_left : Z;
  row_current : Z;
  row_right : Z;
  row_out : Z;
}.

(** The [rows] memo of [RuleDetailsPanel]: the neighbourhoods from 111
    down to 000 with the output of the rule. *)
Definition rows (ruleDecimal : Z) : list RuleRow :=
  from_length 8 (λ i,
    let idx := 7 - i in
    {| row_idx := idx;
       row_left := band (shr idx 2) 1;
       row_current := band (shr idx 1) 1;
       row_right := band idx 1;
       row_out := band (shr ruleDecimal idx) 1 |}).

(** The [ruleOptions] memo: the 256 rules with their binary strings. *)
Definition ruleOptions : list (Z * Rules.outcome string) :=
  from_length 256 (λ decimal, (decimal, Rules.to8BitBinary (Int decimal))).

End Controls.

(** ** Operations of the starred store ([src/starredConfigs.ts]) *)

Module StarredOps.
Import Starred.

(** The type [StarredConfig]. *)
Record StarredConfig := {
  sc_id : string;
  sc_search : string;
  sc_ruleDecimal : number;
  sc_createdAt : number;
}.

(** The object of a [StarredConfig], a member of the array of items. *)
Definition to_json (s : StarredConfig) : json :=
  JObject [("id", JString (sc_id s)); ("search", JString (sc_search s));
           ("ruleDecimal", JNumber (sc_ruleDecimal s));
           ("createdAt", JNumber (sc_createdAt s))].

(** [makeStarredFromState] *)
Definition makeStarredFromState (state : UrlState.ShareableAutomatonState)
    (now : number) : StarredConfig :=
  let search := UrlState.buildShareableSearch state in
  {| sc_id := search; sc_search := search;
     sc_ruleDecimal := UrlState.ruleDecimal state; sc_createdAt := now |}.

(** [i.id === id]; the items are objects, as their type says. *)
Definition has_id (id : string) (i : json) : bool :=
  match prop i "id" with
  | Some (JString s) => bool_decide (s = id)
  | _ => false
  end.

(** [isConfigStarred] *)
Definition isConfigStarred (items : list json) (search : string) : bool :=
  let id := normalizeSearch search in
  existsb (has_id id) items.

(** [removeConfigStar] *)
Definition removeConfigStar (items : list json) (search : string)
  : list json :=
  let id := normalizeSearch search in
  List.filter (λ i, negb (has_id id i)) items.

(** [addConfigStar] *)
Definition addConfigStar (items : list json) (starred : StarredConfig)
  : list json :=
  let id := normalizeSearch (sc_id starred) in
  if decide (id = EmptyString) then items
  else
    let without := List.filter (λ i, negb (has_id id i)) items in
    let next :=
      to_json {| sc_id := id;
                 sc_search := normalizeSearch (sc_search starred);
                 sc_ruleDecimal := sc_ruleDecimal starred;
                 sc_createdAt := sc_createdAt starred |} :: without in
    take MAX_ITEMS (JS.sort newer_first next).

(** [toggleConfigStar] *)
Definition toggleConfigStar (items : list json)
    (state : UrlState.ShareableAutomatonState) (now : number) : list json :=
  let starred := makeStarredFromState state now in
  if isConfigStarred items (sc_search starred)
  then removeConfigStar items (sc_search starred)
  else addConfigStar items starred.

(** The filter of [saveStarredConfigs]: the item is truthy and its [id]
    is a non-empty string. *)
Definition keepable (i : json) : bool :=
  match i, prop i "id" with
  | JObject _, Some (JString s) => negb (bool_decide (s = EmptyString))
  | _, _ => false
  end.

Section Platform.

(** [JSON.stringify] *)
Variable JSON_stringify : json → string.

(** [saveStarredConfigs]; [localStorage] is a finite map, and the
    result is the storage after [setItem].  Without a [window] nothing
    is stored. *)
Definition saveStarredConfigs (window : option (gmap string string))
    (items : list json) : option (gmap string string) :=
  match window with
  | None => None
  | Some localStorage =>
      let trimmed := take MAX_ITEMS (List.filter keepable items) in
      Some (<[STORAGE_KEY := JSON_stringify (JArray trimmed)]> localStorage)
  end.

Variable URLSearchParams : string → UrlState.params.
Variable Number : string → number.

(** [parseStarredToState] *)
Definition parseStarredToState (search : string) : UrlState.PartialState :=
  UrlState.parseShareableStateFromLocation URLSearchParams Number
    (normalizeSearch search).

End Platform.

End StarredOps.

(** ** The theme setting ([src/theme.ts]) *)

Module Theme.

Inductive ThemeSetting : Type := light | dark | system.

(** The string of a setting, a string literal type in the source. *)
Definition setting_string (s : ThemeSetting) : string :=
  match s with
  | light => "light"
  | dark => "dark"
  | system => "system"
  end.

Definition STORAGE_KEY : string := "theme".

(** [getStoredThemeSetting] *)
Definition getStoredThemeSetting (window : option (gmap string string))
  : ThemeSetting :=
  match window with
  | None => system
  | Some localStorage =>
      match localStorage !! STORAGE_KEY with
      | Some stored =>
          if decide (stored = "light") then light
          else if decide (stored = "dark") then dark
          else if decide (stored = "system") then system
          else system
      | None => system
      end
  end.

(** [setStoredThemeSetting]: the storage after [setItem]. *)
Definition setStoredThemeSetting (localStorage : gmap string string)
    (setting : ThemeSetting) : gmap string string :=
  <[STORAGE_KEY := setting_string setting]> localStorage.

End Theme.

(** ** Predicates and inputs used to state the properties *)

Module EngineSpec.
Import Engine.

(** The history of a state holds one defined entry per generation
    [0 .. generation], numbered in order. *)
Definition history_ok (st : State) : Prop :=
  length (blocksHistory st) = S (Z.to_nat (generation st))
  ∧ ∀ k : nat, (k ≤ Z.to_nat (generation st))%nat →
      ∃ r : row,
        blocksHistory st !! k
        = Some (Some {| h_generation := Z.of_nat k; h_blocks := r |}).

(** What holds of every state of a run started with bound [g]. *)
Definition run_inv (g : Z) (st : State) : Prop :=
  0 ≤ generation st ≤ g
  ∧ (isRunning st = true ↔ generation st < g)
  ∧ history_ok st.

Definition five_generations : Options :=
  {| ruleDecimal := Int 22; totalItems := 7; initialOnes := Int 1;
     seedIndices := Some [Int 3]; generations := 5; delay := 10;
     boundaryValue := None |}.

(** [i] is one of the explicit seed positions: some finite entry of
    [seedIndices] floors to it. *)
Definition is_seed (seeds : list number) (i : Z) : Prop :=
  ∃ q : Q, Finite q ∈ seeds ∧ Qfloor q = i.

End EngineSpec.

Module RulesSpec.

(** The number [x] is the integer [z]. *)
Definition denotes (x : number) (z : Z) : Prop :=
  ∃ q : Q, x = Finite q ∧ q == inject_Z z.

(** The eight binary digits of [z], most significant first. *)
Definition binary8 (z : Z) : string :=
  string_of_list_ascii
    ((λ k, if Z.testbit z (7 - k) then "1"%char else "0"%char)
       <$> seqZ 0 8).

End RulesSpec.

Module CodecSpec.
Import Base64.

(** The characters of the base64 alphabet of RFC 4648, and of its
    URL-safe variant. *)
Definition is_base64_char (c : ascii) : bool :=
  let n := charCode c in
  bool_decide ((65 ≤ n ≤ 90) ∨ (97 ≤ n ≤ 122) ∨ (48 ≤ n ≤ 57)
               ∨ n = 43 ∨ n = 47).

Definition is_base64url_char (c : ascii) : bool :=
  let n := charCode c in
  bool_decide ((65 ≤ n ≤ 90) ∨ (97 ≤ n ≤ 122) ∨ (48 ≤ n ≤ 57)
               ∨ n = 45 ∨ n = 95).

(** Valid (padded) base64: alphabet characters followed by at most two
    [=], the whole a multiple of four characters long. *)
Definition valid_base64 (t : list ascii) : Prop :=
  (length t mod 4 = 0)%nat
  ∧ ∃ (body : list ascii) (k : nat),
      t = body ++ replicate k "="%char
      ∧ (k ≤ 2)%nat
      ∧ Forall (λ c, is_base64_char c = true) body.

(** What the forgiving-base64 decoder of [atob] takes: with the ASCII
    whitespace removed, the string is valid base64, or it is alphabet
    characters only, two or three beyond a multiple of four (valid
    base64 whose padding was left off). *)
Definition forgiving_base64 (t : list ascii) : Prop :=
  let data := filter (λ c, is_ascii_whitespace c = false) t in
  valid_base64 data
  ∨ (Forall (λ c, is_base64_char c = true) data
     ∧ (length data mod 4 = 2 ∨ length data mod 4 = 3)%nat).

(** Valid unpadded base64url: URL-safe alphabet characters, of a length
    that some byte sequence encodes to. *)
Definition valid_base64url (s : string) : Prop :=
  Forall (λ c, is_base64url_char c = true) (list_ascii_of_string s)
  ∧ (length (list_ascii_of_string s) mod 4 ≠ 1)%nat.

(** No tab, line feed, form feed, carriage return or space. *)
Definition no_whitespace (s : string) : Prop :=
  Forall (λ c, charCode c ∉ [9; 10; 12; 13; 32]) (list_ascii_of_string s).

(** The packed bit of index [i]: bit [7 - i mod 8] of byte [i / 8],
    a byte that is missing counting as zero. *)
Definition bit_set (bytes : list Z) (i : Z) : Prop :=
  Z.testbit (default 0 (bytes !! Z.to_nat (i / 8))) (7 - i mod 8) = true.

Definition is_byte (b : Z) : Prop := 0 ≤ b < 256.

(** The two character substitutions, as the chained [replaceAll] calls
    of the encoder and of the decoder apply them. *)
Definition to_url (c : ascii) : ascii :=
  let c1 := if decide (c = "+"%char) then "-"%char else c in
  if decide (c1 = "/"%char) then "_"%char else c1.

Definition to_plain (c : ascii) : ascii :=
  let c1 := if decide (c = "-"%char) then "+"%char else c in
  if decide (c1 = "_"%char) then "/"%char else c1.

(** The number of [=] that [base64UrlDecode] appends to a string of
    [n] characters. *)
Definition pad_length (n : nat) : nat :=
  Z.to_nat ((4 - Z.of_nat n mod 4) mod 4).

End CodecSpec.

Module StarredSpec.
Import Starred.

(** [item.id] and [item.search] of an entry. *)
Definition id_of (item : json) : string :=
  match prop item "id" with Some (JString s) => s | _ => EmptyString end.

Definition search_of (item : json) : string :=
  match prop item "search" with Some (JString s) => s | _ => EmptyString end.

(** The canonical id of a stored entry: its normalized search string. *)
Definition canonical_id (item : json) : string :=
  normalizeSearch (search_of item).

(** The entry as the loader returns it, with [search] and [id] replaced
    by the canonical id. *)
Definition normalized (item : json) : json :=
  match item with
  | JObject fields =>
      JObject (with_prop "id" (JString (canonical_id item))
                 (with_prop "search" (JString (canonical_id item)) fields))
  | _ => item
  end.

(** [a] is at least as recent as [b]. *)
Definition newer_or_equal (a b : json) : Prop :=
  ∃ qa qb : Q,
    createdAt a = Finite qa ∧ createdAt b = Finite qb ∧ (qb <= qa)%Q.

(** The state of the de-duplication loop after the validated items
    [seen_items]: [out] holds valid entries with distinct ids, [seen]
    is the set of those ids and holds the canonical id of every item
    met so far, and each entry of [out] comes from the first item that
    has its id. *)
Definition loop_inv (seen_items : list json) (seen : gset string)
    (out : list json) : Prop :=
  Forall (λ o, isStarredConfig o = true) out
  ∧ NoDup (id_of <$> out)
  ∧ (∀ s : string, s ∈ seen ↔ s ∈ id_of <$> out)
  ∧ (∀ x : json, x ∈ seen_items → canonical_id x ≠ EmptyString →
       canonical_id x ∈ seen)
  ∧ (∀ o : json, o ∈ out →
       ∃ (pre : list json) (item : json) (post : list json),
         seen_items = pre ++ item :: post
         ∧ o = normalized item
         ∧ ∀ x : json, x ∈ pre → canonical_id x ≠ id_of o).

(** A stored entry, as [JSON.parse] returns it. *)
Definition entry (search : string) (rule created : Z) : json :=
  JObject [("id", JString search); ("search", JString search);
           ("ruleDecimal", JNumber (Int rule));
           ("createdAt", JNumber (Int created))].

End StarredSpec.

Module EngineMoreSpec.
Import Engine.

(** The row of generation [k]: the rule applied [k] times to the seed. *)
Definition row_at (rule boundaryValue : Z) (seed : row) (k : nat) : row :=
  Nat.iter k (nextBlocks rule boundaryValue) seed.

(** Both histories of a state hold, for every generation up to the
    current one, the row of that generation and its number of ones, and
    the current row is the last of them. *)
Definition histories_ok (rule boundaryValue : Z) (seed : row) (st : State)
  : Prop :=
  0 ≤ generation st
  ∧ length (blocksHistory st) = S (Z.to_nat (generation st))
  ∧ length (onesHistory st) = S (Z.to_nat (generation st))
  ∧ blocks st = row_at rule boundaryValue seed (Z.to_nat (generation st))
  ∧ ∀ k : nat, (k ≤ Z.to_nat (generation st))%nat →
      blocksHistory st !! k
      = Some (Some {| h_generation := Z.of_nat k;
                      h_blocks := row_at rule boundaryValue seed k |})
      ∧ onesHistory st !! k
        = Some (Some (countOnes (row_at rule boundaryValue seed k))).

(** The number of cells of a row that hold 1. *)
Definition ones (r : row) : nat := length (filter (λ c, c = 1) r).

End EngineMoreSpec.

Module LegacySpec.

(** A state of the rule-22 hook and a state of the elementary hook show
    the same row, generation pointer, running flag and ones history. *)
Definition same_view (s22 : Rule22Hook.State) (st : Engine.State) : Prop :=
  Rule22Hook.blocks s22 = Engine.blocks st
  ∧ Rule22Hook.generation s22 = Engine.generation st
  ∧ Rule22Hook.isRunning s22 = Engine.isRunning st
  ∧ Rule22Hook.onesHistory s22 = Engine.onesHistory st.

End LegacySpec.

Module LinkSpec.
Import UrlState.

(** The five pairs that [buildShareableSearch] sets, in order. *)
Definition link_pairs (st : ShareableAutomatonState) : params :=
  [("r", String_of_int (clampInt (ruleDecimal st) 0 255));
   ("w", String_of_int (clampInt (totalItems st) 1 300));
   ("g", String_of_int (clampInt (generations st) 1 500));
   ("d", String_of_int (clampInt (delay st) 10 5000));
   ("s", encodeSeedBitset (totalItems st) (seedIndices st))].

(** The state a link stands for: the numeric fields clamped and the
    seeds normalized against the clamped [totalItems]. *)
Definition link_state (st : ShareableAutomatonState) : PartialState :=
  {| p_ruleDecimal := Some (clampInt (ruleDecimal st) 0 255);
     p_totalItems := Some (clampInt (totalItems st) 1 300);
     p_generations := Some (clampInt (generations st) 1 500);
     p_delay := Some (clampInt (delay st) 10 5000);
     p_seedIndices :=
       Some (uniqSortedIndices (seedIndices st)
               (clampInt (totalItems st) 1 300)) |}.

(** The state with the fields of [link_state]. *)
Definition reopened (st : ShareableAutomatonState)
  : ShareableAutomatonState :=
  {| ruleDecimal := Int (clampInt (ruleDecimal st) 0 255);
     totalItems := Int (clampInt (totalItems st) 1 300);
     generations := Int (clampInt (generations st) 1 500);
     delay := Int (clampInt (delay st) 10 5000);
     seedIndices :=
       Int <$> uniqSortedIndices (seedIndices st)
                 (clampInt (totalItems st) 1 300) |}.

(** A reader of decimal numerals, standing for [Number] on the strings
    the builder writes. *)
Definition read_decimal (s : string) : number :=
  match NilZero.int_of_string s with
  | Some i => Int (Z.of_int i)
  | None => NaN
  end.

End LinkSpec.

Module ComponentSpec.
Import Controls.

(** The patch without fields. *)
Definition emptyPatch : ControlPatch :=
  {| patch_totalItems := None; patch_generations := None;
     patch_delay := None; patch_seedIndices := None;
     patch_initialOnes := None |}.

(** The configuration made of the fields of an applied one. *)
Definition config_of (a : Applied) : Config :=
  {| c_ruleDecimal := Int (a_ruleDecimal a);
     c_totalItems := Int (a_totalItems a);
     c_initialOnes := Int (a_initialOnes a);
     c_seedIndices := Int <$> a_seedIndices a;
     c_generations := Int (a_generations a);
     c_delay := Int (a_delay a) |}.

(** An applied configuration within the bounds of the controls, with
    normalized seeds. *)
Definition well_formed (a : Applied) : Prop :=
  0 ≤ a_ruleDecimal a ≤ 255
  ∧ 1 ≤ a_totalItems a ≤ 300
  ∧ 1 ≤ a_generations a ≤ 500
  ∧ 10 ≤ a_delay a ≤ 5000
  ∧ 0 ≤ a_initialOnes a ≤ a_totalItems a
  ∧ StronglySorted Z.lt (a_seedIndices a)
  ∧ Forall (λ i, 0 ≤ i < a_totalItems a) (a_seedIndices a).

End ComponentSpec.

Module StoreSpec.
Import Starred StarredOps StarredSpec.

(** An entry in the form the store keeps: a non-empty id that is a
    normalized search string, and the same string as [search]. *)
Definition canonical (o : json) : Prop :=
  id_of o ≠ EmptyString
  ∧ search_of o = id_of o
  ∧ normalizeSearch (id_of o) = id_of o.

(** The list of starred configurations as the store keeps it: valid
    entries in canonical form with distinct ids, newest first, at most
    50 of them. *)
Definition store_ok (items : list json) : Prop :=
  Forall (λ o, isStarredConfig o = true) items
  ∧ Forall canonical items
  ∧ NoDup (id_of <$> items)
  ∧ StronglySorted newer_or_equal items
  ∧ (length items ≤ 50)%nat.

(** The entry that [addConfigStar] puts into the list. *)
Definition added (starred : StarredConfig) : json :=
  to_json {| sc_id := normalizeSearch (sc_id starred);
             sc_search := normalizeSearch (sc_search starred);
             sc_ruleDecimal := sc_ruleDecimal starred;
             sc_createdAt := sc_createdAt starred |}.

End StoreSpec.

(** * Properties *)

(** ** Facts about the primitive operations *)

Module JSFacts.

(** A closed decidable statement, settled by evaluation. *)
Ltac decide_closed := refine (bool_decide_unpack _ _); vm_compute; exact I.

Lemma ToInt32_small (z : Z) : - 2 ^ 31 ≤ z < 2 ^ 31 → ToInt32 z = z.
Proof.
  intros Hz. unfold ToInt32. rewrite Z.mod_small by lia. lia.
Qed.

Lemma rem_mod (a b : Z) : 0 ≤ a → 0 < b → JS.rem a b = a mod b.
Proof. intros Ha Hb. unfold JS.rem. apply Z.rem_mod_nonneg; lia. Qed.

Lemma get_lookup {A} (l : list A) (i : Z) :
  0 ≤ i → JS.get l i = l !! Z.to_nat i.
Proof. intros Hi. unfold JS.get. by rewrite decide_True. Qed.

Lemma get_neg {A} (l : list A) (i : Z) : i < 0 → JS.get l i = None.
Proof. intros Hi. unfold JS.get. rewrite decide_False; [done | lia]. Qed.

Lemma shr_small (a k : Z) :
  0 ≤ a < 2 ^ 31 → 0 ≤ k < 32 → shr a k = Z.shiftr a k.
Proof.
  intros Ha Hk. unfold shr, ToUint32.
  rewrite ToInt32_small by lia.
  rewrite (Z.mod_small k (2 ^ 32)) by lia.
  by rewrite (Z.mod_small k 32) by lia.
Qed.

Lemma shiftr_bounds (a k : Z) : 0 ≤ a → 0 ≤ k → 0 ≤ Z.shiftr a k ≤ a.
Proof.
  intros Ha Hk. rewrite Z.shiftr_div_pow2 by lia.
  assert (0 < 2 ^ k) by (apply Z.pow_pos_nonneg; lia).
  split; [apply Z.div_pos; lia |].
  apply Z.div_le_upper_bound; nia.
Qed.

Lemma band_small (a b : Z) :
  0 ≤ a < 2 ^ 31 → 0 ≤ b < 2 ^ 31 → band a b = Z.land a b.
Proof. intros Ha Hb. unfold band. by rewrite !ToInt32_small by lia. Qed.

Lemma shl_one (k : Z) : 0 ≤ k ≤ 7 → shl 1 k = 2 ^ k.
Proof.
  intros Hk.
  assert (k = 0 ∨ k = 1 ∨ k = 2 ∨ k = 3 ∨ k = 4 ∨ k = 5 ∨ k = 6 ∨ k = 7)
    as Hcases by lia.
  by destruct Hcases as [-> | [-> | [-> | [-> | [-> | [-> | [-> | ->]]]]]]].
Qed.

Lemma bor_small (a b : Z) :
  0 ≤ a < 2 ^ 31 → 0 ≤ b < 2 ^ 31 → bor a b = Z.lor a b.
Proof. intros Ha Hb. unfold bor. by rewrite !ToInt32_small by lia. Qed.

(** Sorting rearranges. *)
Lemma insert_perm {A} (leb : A → A → bool) (x : A) (l : list A) :
  JS.insert leb x l ≡ₚ x :: l.
Proof.
  induction l as [|y l IH]; simpl; [done |].
  destruct (leb x y); [done |].
  rewrite IH. apply Permutation_swap.
Qed.

Lemma sort_perm {A} (leb : A → A → bool) (l : list A) : JS.sort leb l ≡ₚ l.
Proof.
  induction l as [|x l IH]; simpl; [done |].
  by rewrite insert_perm, IH.
Qed.

(** On a domain [P] where the comparator decides a transitive relation
    [R] one way or the other, the result is sorted for [R]. *)
Section Sorted.

Context {A : Type} (leb : A → A → bool) (P : A → Prop) (R : A → A → Prop).
Hypothesis leb_true : ∀ a b, P a → P b → leb a b = true → R a b.
Hypothesis leb_false : ∀ a b, P a → P b → leb a b = false → R b a.
Hypothesis R_trans : ∀ a b c, R a b → R b c → R a c.

Lemma insert_sorted (x : A) (l : list A) :
  P x → Forall P l → StronglySorted R l →
  StronglySorted R (JS.insert leb x l).
Proof.
  intros Hx Hl Hsorted. induction Hsorted as [|y l Hsorted IH Hall]; simpl.
  - repeat constructor.
  - apply Forall_cons in Hl as [Hy Hl].
    destruct (leb x y) eqn:Hxy.
    + constructor; [by constructor |].
      apply Forall_cons_2; [by apply leb_true |].
      eapply Forall_impl; [exact Hall |]. intros z Hz.
      eapply R_trans; [by apply leb_true | done].
    + constructor; [by apply IH |].
      rewrite insert_perm.
      apply Forall_cons_2; [by apply leb_false | done].
Qed.

Lemma sort_sorted (l : list A) :
  Forall P l → StronglySorted R (JS.sort leb l).
Proof.
  induction 1 as [|x l Hx Hl IH]; simpl; [constructor |].
  apply insert_sorted; [done | by rewrite sort_perm | done].
Qed.

End Sorted.

End JSFacts.

(** ** The generation step *)

Module EngineFacts.
Import Engine EngineSpec JSFacts.

Lemma clampRuleDecimal_Int (rule : Z) :
  0 ≤ rule ≤ 255 → clampRuleDecimal (Int rule) = rule.
Proof.
  intros Hr. unfold clampRuleDecimal, Int. rewrite Qfloor_Z. lia.
Qed.

(** On cells the shifted-and-or'ed neighbourhood index is
    [left*4 + current*2 + right]. *)
Lemma neighbourhood_index (l c r : Z) :
  is_cell l → is_cell c → is_cell r →
  bor (bor (shl l 2) (shl c 1)) r = l * 4 + c * 2 + r.
Proof. by intros [-> | ->] [-> | ->] [-> | ->]. Qed.

Lemma applyElementaryRule_spec (rule l c r : Z) :
  0 ≤ rule ≤ 255 → is_cell l → is_cell c → is_cell r →
  applyElementaryRule rule l c r
  = Z.land (Z.shiftr rule (l * 4 + c * 2 + r)) 1.
Proof.
  intros Hrule Hl Hc Hr. unfold applyElementaryRule.
  rewrite neighbourhood_index by done.
  assert (0 ≤ l * 4 + c * 2 + r < 8) as Hidx
    by (destruct Hl, Hc, Hr; subst; lia).
  rewrite shr_small by lia.
  pose proof (shiftr_bounds rule (l * 4 + c * 2 + r)).
  apply band_small; lia.
Qed.

Lemma length_nextBlocks (rule bv : Z) (r : row) :
  length (nextBlocks rule bv r) = length r.
Proof.
  unfold nextBlocks, from_length.
  rewrite length_fmap, length_seqZ. lia.
Qed.

Lemma lookup_nextBlocks (rule bv : Z) (r : row) (i : nat) :
  (i < length r)%nat →
  nextBlocks rule bv r !! i = Some (nextCell rule bv r (Z.of_nat i)).
Proof.
  intros Hi. unfold nextBlocks, from_length.
  rewrite list_lookup_fmap, lookup_seqZ_lt by lia. done.
Qed.

Lemma blocks_tick (o : Options) (st : State) :
  blocks (tick o st)
  = nextBlocks (clampRuleDecimal (ruleDecimal o)) (hookBoundary o)
      (blocks st).
Proof. done. Qed.

(** C1. For a rule of [0,255] and a row of [n >= 1] cells, one
    generation step yields a row of [n] cells whose cell [i] is
    [(rule >> (left*4 + current*2 + right)) & 1], where [left],
    [current] and [right] are the cells [(i-1+n) mod n], [i] and
    [(i+1) mod n] of the row before the step: every cell is computed
    from that same prior row, with ring wrap-around. *)
Theorem C1_generation_step (o : Options) (st : State) (rule : Z) :
  ruleDecimal o = Int rule →
  0 ≤ rule ≤ 255 →
  (1 ≤ length (blocks st))%nat →
  Forall is_cell (blocks st) →
  let prior := blocks st in
  let n := Z.of_nat (length prior) in
  length (blocks (tick o st)) = length prior
  ∧ ∀ i : Z, 0 ≤ i < n →
      ∃ left current right : Z,
        prior !! Z.to_nat ((i - 1 + n) mod n) = Some left
        ∧ prior !! Z.to_nat i = Some current
        ∧ prior !! Z.to_nat ((i + 1) mod n) = Some right
        ∧ blocks (tick o st) !! Z.to_nat i
          = Some (Z.land (Z.shiftr rule (left * 4 + current * 2 + right)) 1).
Proof.
  intros Hrule Hr Hlen Hcells prior n. rewrite blocks_tick, Hrule.
  rewrite clampRuleDecimal_Int by done. fold prior.
  split; [apply length_nextBlocks |].
  intros i Hi.
  assert (0 ≤ (i - 1 + n) mod n < n) as Hl by (apply Z.mod_pos_bound; lia).
  assert (0 ≤ (i + 1) mod n < n) as Hrr by (apply Z.mod_pos_bound; lia).
  destruct (lookup_lt_is_Some_2 prior (Z.to_nat ((i - 1 + n) mod n)))
    as [left Hleft]; [lia |].
  destruct (lookup_lt_is_Some_2 prior (Z.to_nat i)) as [cur Hcur]; [lia |].
  destruct (lookup_lt_is_Some_2 prior (Z.to_nat ((i + 1) mod n)))
    as [right Hright]; [lia |].
  exists left, cur, right. repeat split; try done.
  rewrite lookup_nextBlocks by lia. f_equal.
  unfold nextCell. fold n. rewrite decide_False by lia.
  rewrite Z2Nat.id by lia.
  rewrite !rem_mod by lia.
  rewrite !get_lookup by lia.
  rewrite Hleft, Hcur, Hright. simpl.
  apply applyElementaryRule_spec; [done | ..];
    eapply Forall_lookup_1; eauto.
Qed.

Lemma C1_generation_step_witness :
  let o := five_generations in
  let st := start (λ _, O) five_generations in
  let prior := blocks st in
  let n := Z.of_nat (length prior) in
  length (blocks (tick o st)) = length prior
  ∧ ∀ i : Z, 0 ≤ i < n →
      ∃ left current right : Z,
        prior !! Z.to_nat ((i - 1 + n) mod n) = Some left
        ∧ prior !! Z.to_nat i = Some current
        ∧ prior !! Z.to_nat ((i + 1) mod n) = Some right
        ∧ blocks (tick o st) !! Z.to_nat i
          = Some (Z.land (Z.shiftr 22 (left * 4 + current * 2 + right)) 1).
Proof.
  apply (C1_generation_step five_generations
           (start (λ _, O) five_generations) 22).
  - reflexivity.
  - lia.
  - vm_compute. lia.
  - decide_closed.
Defined.


(** ** The generation bound *)

Lemma set_at_end {A} (l : list (option A)) (v : A) :
  JS.set l (length l) v = l ++ [Some v].
Proof.
  unfold JS.set. rewrite decide_False by lia.
  by rewrite Nat.sub_diag.
Qed.

Lemma run_inv_start (draws : nat → nat) (o : Options) :
  1 ≤ generations o → run_inv (generations o) (start draws o).
Proof.
  intros Hg. unfold run_inv, history_ok, start, seeded; simpl.
  split; [lia |]. split; [split; [lia | done] |].
  split; [done |].
  intros [|k] Hk; [eauto | lia].
Qed.

Lemma history_ok_tick (o : Options) (st : State) :
  0 ≤ generation st → history_ok st → history_ok (tick o st).
Proof.
  intros Hgen [Hlen Hent]. unfold history_ok, tick; simpl.
  replace (Z.to_nat (generation st + 1)) with (length (blocksHistory st))
    by lia.
  rewrite firstn_all, set_at_end.
  split; [rewrite length_app; simpl; lia |].
  intros k Hk.
  destruct (decide (k = length (blocksHistory st))) as [-> | Hne].
  - rewrite lookup_app_r, Nat.sub_diag by lia. simpl.
    eexists. do 3 f_equal. lia.
  - rewrite lookup_app_l by lia. apply Hent. lia.
Qed.

Lemma run_inv_tick (o : Options) (st : State) :
  run_inv (generations o) st → isRunning st = true →
  run_inv (generations o) (tick o st).
Proof.
  intros (Hgen & Hrun & Hhist) Hr.
  apply Hrun in Hr.
  split; [simpl; lia |]. split; [| apply history_ok_tick; [lia | done]].
  simpl. case_decide; split; intros; (done || lia || by apply Hrun).
Qed.

Lemma run_inv_step (o : Options) (st st' : State) :
  run_inv (generations o) st → step o st st' →
  run_inv (generations o) st'.
Proof. intros Hinv Hstep. destruct Hstep. by apply run_inv_tick. Qed.

Lemma run_inv_rtc (o : Options) (st st' : State) :
  run_inv (generations o) st → rtc (step o) st st' →
  run_inv (generations o) st'.
Proof.
  intros Hinv Hsteps. induction Hsteps; [done |].
  eauto using run_inv_step.
Qed.

(** [k] ticks from a running state that is at least [k] generations
    below the bound advance the generation pointer by [k]. *)
Lemma run_advances (o : Options) (k : nat) (st : State) :
  run_inv (generations o) st →
  generation st + Z.of_nat k ≤ generations o →
  rtc (step o) st (run o k st)
  ∧ generation (run o k st) = generation st + Z.of_nat k.
Proof.
  revert st. induction k as [|k IH]; intros st Hinv Hk; simpl.
  - split; [done | lia].
  - assert (isRunning st = true) as Hr
      by (destruct Hinv as (_ & Hrun & _); apply Hrun; lia).
    rewrite Hr.
    destruct (IH (tick o st)) as [Hsteps Hgen];
      [by apply run_inv_tick | simpl; lia |].
    split.
    + eapply rtc_l; [by apply step_tick | done].
    + rewrite Hgen. simpl. lia.
Qed.

Lemma idle_stuck (o : Options) (st st' : State) :
  isRunning st = false → ¬ step o st st'.
Proof. intros Hidle Hstep. destruct Hstep. congruence. Qed.

(** C3. A run started with [generations = g] (a generation count, so
    [g >= 1]) keeps its generation pointer at or below [g]; it is idle
    exactly when the pointer equals [g]; its history holds one row per
    generation [0 .. generation]; and after [g] ticks it does reach the
    pointer [g], where it is idle, cannot step any more, and the history
    has exactly [g + 1] rows. *)
Theorem C3_generation_bound (draws : nat → nat) (o : Options) :
  1 ≤ generations o →
  let g := generations o in
  let s0 := start draws o in
  (∀ st : State, rtc (step o) s0 st →
     generation st ≤ g
     ∧ (isRunning st = false ↔ generation st = g)
     ∧ history_ok st)
  ∧ (let final := run o (Z.to_nat g) s0 in
     rtc (step o) s0 final
     ∧ generation final = g
     ∧ isRunning final = false
     ∧ (∀ st', ¬ step o final st')
     ∧ length (blocksHistory final) = Z.to_nat (g + 1)
     ∧ history_ok final).
Proof.
  intros Hg g s0.
  pose proof (run_inv_start draws o Hg) as Hinv0. fold g s0 in Hinv0.
  assert (∀ st, run_inv g st → (isRunning st = false ↔ generation st = g))
    as Hidle.
  { intros st (Hgen & Hrun & _).
    destruct (isRunning st); split; intros; try done.
    - assert (generation st < g) by (by apply Hrun). lia.
    - destruct (decide (generation st < g)) as [Hlt | Hge]; [| lia].
      apply Hrun in Hlt. done. }
  split.
  - intros st Hsteps.
    pose proof (run_inv_rtc o s0 st Hinv0 Hsteps) as Hinv.
    split; [destruct Hinv as (? & _); lia |].
    split; [by apply Hidle | by destruct Hinv as (_ & _ & ?)].
  - destruct (run_advances o (Z.to_nat g) s0 Hinv0) as [Hsteps Hgen];
      [simpl; lia |].
    simpl in Hgen. rewrite Z2Nat.id in Hgen by lia.
    pose proof (run_inv_rtc o s0 _ Hinv0 Hsteps) as Hinv.
    assert (isRunning (run o (Z.to_nat g) s0) = false) as Hstop
      by (apply Hidle; [done | lia]).
    repeat split; try done.
    + intros st'. by apply idle_stuck.
    + destruct Hinv as (_ & _ & [Hlen _]). rewrite Hlen, Hgen. lia.
    + by destruct Hinv as (_ & _ & [? _]).
    + by destruct Hinv as (_ & _ & [_ ?]).
Qed.

Lemma C3_generation_bound_witness :
  let o := five_generations in
  let s0 := start (λ _, O) o in
  (∀ st : State, rtc (step o) s0 st →
     generation st ≤ 5
     ∧ (isRunning st = false ↔ generation st = 5)
     ∧ history_ok st)
  ∧ (let final := run o 5 s0 in
     rtc (step o) s0 final
     ∧ generation final = 5
     ∧ isRunning final = false
     ∧ (∀ st', ¬ step o final st')
     ∧ length (blocksHistory final) = 6%nat
     ∧ history_ok final).
Proof.
  apply (C3_generation_bound (λ _, O) five_generations). simpl. lia.
Defined.

(** ** Seeding generation 0 from explicit positions *)

Lemma elem_of_set_add (s : list Z) (x y : Z) :
  y ∈ set_add s x ↔ y ∈ s ∨ y = x.
Proof.
  unfold set_add. case_decide.
  - split; [by left | intros [? | ->]; done].
  - rewrite elem_of_app, list_elem_of_singleton. done.
Qed.

Lemma NoDup_set_add (s : list Z) (x : Z) : NoDup s → NoDup (set_add s x).
Proof.
  intros Hs. unfold set_add. case_decide; [done |].
  apply NoDup_app. split_and!; [done | | apply NoDup_singleton].
  intros y Hy ->%list_elem_of_singleton. done.
Qed.

(** The members of the collected set, for any starting set. *)
Lemma elem_of_collect (T : Z) (seeds : list number) (acc : list Z) (x : Z) :
  x ∈ foldl (λ s idx,
               match idx with
               | Finite q =>
                   let i := Qfloor q in
                   if decide (i < 0 ∨ T ≤ i) then s else set_add s i
               | _ => s
               end) acc seeds
  ↔ x ∈ acc ∨ (0 ≤ x < T ∧ is_seed seeds x).
Proof.
  unfold is_seed. revert acc.
  induction seeds as [|idx seeds IH]; intros acc; simpl.
  - split; [by left | intros [? | [_ (q & Hq & _)]]; [done |]].
    by apply not_elem_of_nil in Hq.
  - rewrite IH. clear IH. split.
    + intros [Hacc | (Hx & q & Hq & Hfl)].
      * destruct idx as [q | | |]; try by left.
        case_decide; [by left |].
        apply elem_of_set_add in Hacc as [? | ->]; [by left | right].
        split; [lia |]. exists q. split; [left | done].
      * right. split; [done |]. exists q. split; [by right | done].
    + intros [Hacc | (Hx & q & Hq & Hfl)].
      * left. destruct idx as [q | | |]; try done.
        case_decide; [done |]. apply elem_of_set_add. by left.
      * apply elem_of_cons in Hq as [<- | Hq].
        -- left. simpl. rewrite decide_False by lia.
           apply elem_of_set_add. by right.
        -- right. split; [done |]. by exists q.
Qed.

Lemma elem_of_collectSeeds (T : Z) (seeds : list number) (x : Z) :
  x ∈ collectSeeds T seeds ↔ 0 ≤ x < T ∧ is_seed seeds x.
Proof.
  unfold collectSeeds. rewrite elem_of_collect.
  split; [intros [Hnil | ?]; [by apply not_elem_of_nil in Hnil | done] |].
  by right.
Qed.

Lemma length_markOnes (values : row) (ps : list Z) :
  length (markOnes values ps) = length values.
Proof.
  unfold markOnes. revert values.
  induction ps as [|p ps IH]; intros values; simpl; [done |].
  by rewrite IH, length_insert.
Qed.

Lemma markOnes_keeps_one (values : row) (ps : list Z) (i : nat) :
  values !! i = Some 1 → markOnes values ps !! i = Some 1.
Proof.
  unfold markOnes. revert values.
  induction ps as [|p ps IH]; intros values Hi; simpl; [done |].
  apply IH. destruct (decide (Z.to_nat p = i)) as [<- | Hne].
  - apply list_lookup_insert_eq. by eapply lookup_lt_Some.
  - by rewrite list_lookup_insert_ne.
Qed.

Lemma markOnes_in (values : row) (ps : list Z) (i : nat) :
  (i < length values)%nat → Z.of_nat i ∈ ps →
  markOnes values ps !! i = Some 1.
Proof.
  revert values. induction ps as [|p ps IH]; intros values Hi Hin.
  - by apply not_elem_of_nil in Hin.
  - apply elem_of_cons in Hin as [<- | Hin].
    + apply (markOnes_keeps_one _ ps). rewrite Nat2Z.id.
      by apply list_lookup_insert_eq.
    + apply (IH (<[Z.to_nat p := 1]> values)); [| done].
      by rewrite length_insert.
Qed.

Lemma markOnes_notin (values : row) (ps : list Z) (i : nat) :
  Forall (λ p, 0 ≤ p) ps → Z.of_nat i ∉ ps →
  markOnes values ps !! i = values !! i.
Proof.
  unfold markOnes. revert values.
  induction ps as [|p ps IH]; intros values Hpos Hnotin; simpl; [done |].
  apply Forall_cons in Hpos as [Hp Hpos].
  apply not_elem_of_cons in Hnotin as [Hne Hnotin].
  rewrite IH by done. apply list_lookup_insert_ne. lia.
Qed.

Lemma lookup_from_length {A} (n : Z) (f : Z → A) (i : nat) :
  Z.of_nat i < n → from_length n f !! i = Some (f (Z.of_nat i)).
Proof.
  intros Hi. unfold from_length.
  rewrite list_lookup_fmap, lookup_seqZ_lt by done. done.
Qed.

Lemma length_from_length {A} (n : Z) (f : Z → A) :
  length (from_length n f) = Z.to_nat n.
Proof. unfold from_length. by rewrite length_fmap, length_seqZ. Qed.

Lemma makeInitialValues_explicit draws (T : Z) (ones : number)
    (bv : option Z) (idx : number) (rest : list number) :
  makeInitialValues draws T ones bv (Some (idx :: rest))
  = markOnes (from_length T (λ _, default 0 bv))
      (collectSeeds T (idx :: rest)).
Proof.
  unfold makeInitialValues. case_decide as HT; [| done].
  subst T. unfold collectSeeds.
  assert (∀ (l : list number) (acc : list Z),
    foldl (λ s idx0,
             match idx0 with
             | Finite q =>
                 let i := Qfloor q in
                 if decide (i < 0 ∨ 0 ≤ i) then s else set_add s i
             | _ => s
             end) acc l = acc) as Hskip.
  { induction l as [|x l IH]; intros acc; simpl; [done |].
    rewrite IH. destruct x; try done. simpl. rewrite decide_True; [done | lia]. }
  by rewrite Hskip.
Qed.

(** C4 (as the code has it).  With a non-empty explicit [seedIndices]
    the generation-0 row has [totalItems] cells; the cells at the
    positions of [seedIndices] (floored, inside the row, duplicates
    counting once) hold 1, and every other cell holds the fill value
    [boundaryValue ?? 0], which is 0 when [boundaryValue] is 0 or
    absent. *)
Theorem C4_explicit_seed_row draws (T : Z) (ones : number)
    (bv : option Z) (seeds : list number) :
  seeds ≠ [] →
  let r := makeInitialValues draws T ones bv (Some seeds) in
  length r = Z.to_nat T
  ∧ ∀ i : Z, 0 ≤ i < T →
      (is_seed seeds i → r !! Z.to_nat i = Some 1)
      ∧ (¬ is_seed seeds i → r !! Z.to_nat i = Some (default 0 bv)).
Proof.
  intros Hne. destruct seeds as [|idx rest]; [done |]. clear Hne.
  cbv zeta. rewrite makeInitialValues_explicit.
  split; [by rewrite length_markOnes, length_from_length |].
  intros i Hi. split.
  - intros Hseed. apply markOnes_in.
    + rewrite length_from_length. lia.
    + rewrite Z2Nat.id by lia. by apply elem_of_collectSeeds.
  - intros Hseed. rewrite markOnes_notin.
    + rewrite lookup_from_length by lia. done.
    + apply Forall_forall. intros p Hp%elem_of_collectSeeds. lia.
    + rewrite Z2Nat.id by lia. intros Hin%elem_of_collectSeeds. tauto.
Qed.

Lemma C4_explicit_seed_row_witness :
  let seeds := [Int 2; Finite (5 # 2); Int 9; NaN] in
  let r := makeInitialValues (λ _, O) 4 (Int 1) None (Some seeds) in
  length r = 4%nat
  ∧ ∀ i : Z, 0 ≤ i < 4 →
      (is_seed seeds i → r !! Z.to_nat i = Some 1)
      ∧ (¬ is_seed seeds i → r !! Z.to_nat i = Some 0).
Proof.
  apply (C4_explicit_seed_row (λ _, O) 4 (Int 1) None
           [Int 2; Finite (5 # 2); Int 9; NaN]).
  done.
Defined.

(** "Value 0 at every other position" does not hold when the row is
    filled with [boundaryValue = 1]: cell 1 is no seed position and
    holds 1. *)
Lemma C4_fill_counterexample :
  makeInitialValues (λ _, O) 3 (Int 1) (Some 1) (Some [Int 0])
  = [1; 1; 1]
  ∧ ¬ is_seed [Int 0] 1.
Proof.
  split; [reflexivity |].
  intros (q & Hq & Hfl).
  apply list_elem_of_singleton in Hq. injection Hq as ->. done.
Qed.

End EngineFacts.

(** ** The rule codec *)

Module RulesFacts.
Import Rules RulesSpec JSFacts.

Lemma denotes_integer (q : Q) (z : Z) :
  q == inject_Z z → Qnum q = z * Zpos (Qden q).
Proof. unfold Qeq, inject_Z. simpl. lia. Qed.

Lemma isInteger_denotes (q : Q) (z : Z) :
  q == inject_Z z → isInteger (Finite q) = true.
Proof.
  intros Hq. simpl. rewrite (denotes_integer q z Hq).
  rewrite Z.mod_mul by lia. done.
Qed.

Lemma isInteger_floor (q : Q) :
  isInteger (Finite q) = true → q == inject_Z (Qfloor q).
Proof.
  simpl. intros Hmod%Z.eqb_eq.
  destruct q as [n d]. unfold Qeq, Qfloor, inject_Z in *. simpl in *.
  pose proof (Z.div_mod n (Zpos d)). lia.
Qed.

Lemma floor_denotes (q : Q) (z : Z) : q == inject_Z z → Qfloor q = z.
Proof. intros Hq. rewrite (Qfloor_comp _ _ Hq). apply Qfloor_Z. Qed.

Lemma Qle_bool_inject (a b : Z) :
  Qle_bool (inject_Z a) (inject_Z b) = true ↔ a ≤ b.
Proof. rewrite Qle_bool_iff, <- Zle_Qle. done. Qed.

(** All 256 rules, checked one by one. *)
Lemma padded_bits_table :
  Forall (λ z, string_of_list_ascii (padStart 8 "0"%char (toString2 z))
               = binary8 z) (seqZ 0 256).
Proof. decide_closed. Qed.

Lemma padded_bits (z : Z) :
  0 ≤ z ≤ 255 →
  string_of_list_ascii (padStart 8 "0"%char (toString2 z)) = binary8 z.
Proof.
  intros Hz. pose proof padded_bits_table as Htab.
  rewrite Forall_forall in Htab. apply Htab.
  apply elem_of_seqZ. lia.
Qed.

(** C7. [to8BitBinary] returns the eight binary digits, most significant
    first, of every integer of [0,255], and throws for every other
    number: fractions, negative numbers, numbers above 255, [NaN] and the
    infinities. *)
Theorem C7_to8BitBinary (x : number) :
  (∀ z : Z, denotes x z → 0 ≤ z ≤ 255 →
     to8BitBinary x = Return (binary8 z))
  ∧ ((¬ ∃ z : Z, denotes x z ∧ 0 ≤ z ≤ 255) →
     to8BitBinary x = Throw InvalidRuleError)
  ∧ to8BitBinary (Int 22) = Return "00010110"
  ∧ to8BitBinary (Int 255) = Return "11111111"
  ∧ to8BitBinary (Int 0) = Return "00000000"
  ∧ to8BitBinary (Int 256) = Throw InvalidRuleError
  ∧ to8BitBinary (Int (-1)) = Throw InvalidRuleError.
Proof.
  split; [| split; [| by vm_compute]].
  - intros z (q & -> & Hq) Hz. unfold to8BitBinary.
    rewrite (isInteger_denotes q z Hq).
    assert (Qle_bool 0 q = true) as ->.
    { rewrite Hq. apply (Qle_bool_inject 0 z). lia. }
    assert (Qle_bool q 255 = true) as ->.
    { rewrite Hq. apply (Qle_bool_inject z 255). lia. }
    simpl. rewrite (floor_denotes q z Hq). by rewrite padded_bits.
  - intros Hnone. destruct x as [q | | |]; try done.
    unfold to8BitBinary.
    destruct (isInteger (Finite q)) eqn:Hint; [| done].
    destruct (Qle_bool 0 q) eqn:Hlo; [| done].
    destruct (Qle_bool q 255) eqn:Hhi; [| done].
    exfalso. apply Hnone. exists (Qfloor q).
    pose proof (isInteger_floor q Hint) as Hq.
    split; [by exists q |].
    rewrite Hq in Hlo, Hhi.
    apply (Qle_bool_inject 0) in Hlo. apply (Qle_bool_inject _ 255) in Hhi.
    lia.
Qed.

Lemma C7_to8BitBinary_witness :
  to8BitBinary (Finite (60 # 2)) = Return "00011110"
  ∧ to8BitBinary (Finite (1 # 2)) = Throw InvalidRuleError.
Proof.
  destruct (C7_to8BitBinary (Finite (60 # 2))) as (Hret & _).
  destruct (C7_to8BitBinary (Finite (1 # 2))) as (_ & Hthrow & _).
  split.
  - apply (Hret 30); [| lia]. exists (60 # 2). split; reflexivity.
  - apply Hthrow. intros (z & (q & Heq & Hq) & _).
    injection Heq as <-. unfold Qeq, inject_Z in Hq. simpl in Hq. lia.
Defined.

End RulesFacts.

(** ** Base64 *)

Module Base64Facts.
Import Base64 CodecSpec JSFacts.

(** Induction over a byte sequence three bytes at a time. *)
Lemma list_ind3 {A} (P : list A → Prop) :
  P [] → (∀ a, P [a]) → (∀ a b, P [a; b]) →
  (∀ a b c l, P l → P (a :: b :: c :: l)) →
  ∀ l, P l.
Proof.
  intros H0 H1 H2 H3 l.
  assert (P l ∧ (∀ a, P (a :: l)) ∧ ∀ a b, P (a :: b :: l)) as [? _].
  { induction l as [|x l (IH0 & IH1 & IH2)]; [by split_and! |].
    split_and!; [apply IH1 | intros; apply IH2 |].
    intros a b. by apply H3. }
  done.
Qed.

Lemma all_ascii (P : ascii → Prop) :
  (∀ b0 b1 b2 b3 b4 b5 b6 b7 : bool, P (Ascii b0 b1 b2 b3 b4 b5 b6 b7)) →
  ∀ c, P c.
Proof. intros H []. apply H. Qed.

(** A boolean fact about characters, checked on all 256 of them. *)
Ltac ascii_cases c :=
  revert c; apply all_ascii;
  intros [] [] [] [] [] [] [] []; vm_compute; reflexivity.

Lemma charCode_bounds (c : ascii) : 0 ≤ charCode c < 256.
Proof.
  unfold charCode. pose proof (N_ascii_bounded c). lia.
Qed.

Lemma fromCharCode_charCode (c : ascii) : fromCharCode (charCode c) = c.
Proof.
  unfold fromCharCode, charCode. rewrite N2Z.id. apply ascii_N_embedding.
Qed.

Lemma charCode_fromCharCode (b : Z) :
  is_byte b → charCode (fromCharCode b) = b.
Proof.
  intros Hb. unfold fromCharCode, charCode, is_byte in *.
  rewrite N_ascii_embedding by lia. lia.
Qed.

Lemma charCodes_fromCharCodes (bytes : list Z) :
  Forall is_byte bytes → charCode <$> (fromCharCode <$> bytes) = bytes.
Proof.
  induction 1 as [|b bytes Hb _ IH]; [done |].
  rewrite !fmap_cons. rewrite charCode_fromCharCode by done. by rewrite IH.
Qed.

(** The alphabet table and the six-bit values. *)
Lemma b64_value_char_table :
  Forall (λ v, b64_value (b64_char v) = Some v) (seqZ 0 64).
Proof. decide_closed. Qed.

Lemma b64_value_char (v : Z) :
  0 ≤ v < 64 → b64_value (b64_char v) = Some v.
Proof.
  intros Hv. pose proof b64_value_char_table as Htab.
  rewrite Forall_forall in Htab. apply Htab, elem_of_seqZ. lia.
Qed.

Lemma b64_value_is_char_bool (c : ascii) :
  bool_decide (is_Some (b64_value c)) = is_base64_char c.
Proof.
  ascii_cases c.
Qed.

Lemma b64_value_is_char (c : ascii) :
  is_Some (b64_value c) ↔ is_base64_char c = true.
Proof.
  rewrite <- b64_value_is_char_bool. symmetry. apply bool_decide_eq_true.
Qed.

Lemma b64_value_bounds (c : ascii) (v : Z) :
  b64_value c = Some v → 0 ≤ v < 64.
Proof.
  unfold b64_value. intros Hv.
  apply fmap_Some in Hv as ([i a] & Hfind & ->).
  apply list_find_Some in Hfind as (Hi & _).
  apply lookup_lt_Some in Hi.
  change (length alphabet) with 64%nat in Hi. simpl. lia.
Qed.

Lemma base64_char_plain_bool (c : ascii) :
  implb (is_base64_char c)
        (negb (is_ascii_whitespace c) && bool_decide (c ≠ pad)) = true.
Proof.
  ascii_cases c.
Qed.

Lemma base64_char_plain (c : ascii) :
  is_base64_char c = true →
  is_ascii_whitespace c = false ∧ c ≠ pad.
Proof.
  intros Hc. pose proof (base64_char_plain_bool c) as H.
  rewrite Hc in H. simpl in H.
  apply andb_true_iff in H as [Hws Hpad].
  split; [by apply negb_true_iff | by apply bool_decide_eq_true in Hpad].
Qed.

(** Three bytes survive the passage through four six-bit groups. *)
Lemma groups_of_3 (b0 b1 b2 : Z) :
  is_byte b0 → is_byte b1 → is_byte b2 →
  let n := (b0 * 256 + b1) * 256 + b2 in
  let s0 := n / 262144 in
  let s1 := n / 4096 mod 64 in
  let s2 := n / 64 mod 64 in
  let s3 := n mod 64 in
  (0 ≤ s0 < 64 ∧ 0 ≤ s1 < 64 ∧ 0 ≤ s2 < 64 ∧ 0 ≤ s3 < 64)
  ∧ ((s0 * 64 + s1) * 64 + s2) * 64 + s3 = n
  ∧ n / 65536 = b0 ∧ n / 256 mod 256 = b1 ∧ n mod 256 = b2.
Proof.
  unfold is_byte. intros H0 H1 H2. cbv zeta.
  repeat split; Z.div_mod_to_equations; lia.
Qed.

Lemma groups_of_2 (b0 b1 : Z) :
  is_byte b0 → is_byte b1 →
  let n := (b0 * 256 + b1) * 4 in
  let s0 := n / 4096 in
  let s1 := n / 64 mod 64 in
  let s2 := n mod 64 in
  (0 ≤ s0 < 64 ∧ 0 ≤ s1 < 64 ∧ 0 ≤ s2 < 64)
  ∧ ((s0 * 64 + s1) * 64 + s2) / 4 / 256 = b0
  ∧ ((s0 * 64 + s1) * 64 + s2) / 4 mod 256 = b1.
Proof.
  unfold is_byte. intros H0 H1. cbv zeta.
  repeat split; Z.div_mod_to_equations; lia.
Qed.

Lemma groups_of_1 (b0 : Z) :
  is_byte b0 →
  let n := b0 * 16 in
  let s0 := n / 64 in
  let s1 := n mod 64 in
  (0 ≤ s0 < 64 ∧ 0 ≤ s1 < 64) ∧ (s0 * 64 + s1) / 16 = b0.
Proof.
  unfold is_byte. intros H0. cbv zeta.
  repeat split; Z.div_mod_to_equations; lia.
Qed.

Lemma btoa_codes_cons3 (b0 b1 b2 : Z) (rest : list Z) :
  btoa_codes (b0 :: b1 :: b2 :: rest)
  = b64_char (((b0 * 256 + b1) * 256 + b2) / 262144)
      :: b64_char (((b0 * 256 + b1) * 256 + b2) / 4096 mod 64)
      :: b64_char (((b0 * 256 + b1) * 256 + b2) / 64 mod 64)
      :: b64_char (((b0 * 256 + b1) * 256 + b2) mod 64)
      :: btoa_codes rest.
Proof. done. Qed.

Lemma decode_groups_cons4 (s0 s1 s2 s3 : Z) (rest : list Z) :
  decode_groups (s0 :: s1 :: s2 :: s3 :: rest)
  = (((s0 * 64 + s1) * 64 + s2) * 64 + s3) / 65536
      :: (((s0 * 64 + s1) * 64 + s2) * 64 + s3) / 256 mod 256
      :: (((s0 * 64 + s1) * 64 + s2) * 64 + s3) mod 256
      :: decode_groups rest.
Proof. done. Qed.

(** The output of [btoa] is the characters of a sequence of six-bit
    groups that decodes to the input, followed by the padding that
    completes the last four characters. *)
Lemma btoa_codes_groups (bytes : list Z) :
  Forall is_byte bytes →
  ∃ (vs : list Z) (k : nat),
    btoa_codes bytes = (b64_char <$> vs) ++ replicate k pad
    ∧ (k ≤ 2)%nat
    ∧ ((length vs + k) mod 4 = 0)%nat
    ∧ Forall (λ v, 0 ≤ v < 64) vs
    ∧ decode_groups vs = bytes.
Proof.
  induction bytes as [| b0 | b0 b1 | b0 b1 b2 rest IH] using list_ind3;
    intros Hbytes.
  - exists [], 0%nat. split_and!; [done | lia | done | constructor | done].
  - apply Forall_cons in Hbytes as [H0 _].
    destruct (groups_of_1 b0 H0) as ((Hs0 & Hs1) & Hdec).
    exists [b0 * 16 / 64; b0 * 16 mod 64], 2%nat.
    split_and!; [done | lia | done | by repeat (apply Forall_cons_2; [done |]) |].
    simpl. by rewrite Hdec.
  - apply Forall_cons in Hbytes as [H0 Hbytes].
    apply Forall_cons in Hbytes as [H1 _].
    destruct (groups_of_2 b0 b1 H0 H1) as ((Hs0 & Hs1 & Hs2) & Hd0 & Hd1).
    exists [(b0 * 256 + b1) * 4 / 4096; (b0 * 256 + b1) * 4 / 64 mod 64;
            (b0 * 256 + b1) * 4 mod 64], 1%nat.
    split_and!; [done | lia | done | by repeat (apply Forall_cons_2; [done |]) |].
    simpl. by rewrite Hd0, Hd1.
  - apply Forall_cons in Hbytes as [H0 Hbytes].
    apply Forall_cons in Hbytes as [H1 Hbytes].
    apply Forall_cons in Hbytes as [H2 Hbytes].
    destruct (IH Hbytes) as (vs & k & Henc & Hk & Hlen & Hvs & Hdec).
    destruct (groups_of_3 b0 b1 b2 H0 H1 H2)
      as ((Hs0 & Hs1 & Hs2 & Hs3) & Hn & Hd0 & Hd1 & Hd2).
    exists (((b0 * 256 + b1) * 256 + b2) / 262144
              :: ((b0 * 256 + b1) * 256 + b2) / 4096 mod 64
              :: ((b0 * 256 + b1) * 256 + b2) / 64 mod 64
              :: ((b0 * 256 + b1) * 256 + b2) mod 64 :: vs), k.
    split_and!.
    + rewrite btoa_codes_cons3, Henc. by rewrite !fmap_cons.
    + done.
    + rewrite !length_cons.
      replace (S (S (S (S (length vs)))) + k)%nat
        with (length vs + k + 1 * 4)%nat by lia.
      by rewrite Nat.Div0.mod_add.
    + by repeat (apply Forall_cons_2; [done |]).
    + rewrite decode_groups_cons4, Hn, Hd0, Hd1, Hd2, Hdec. done.
Qed.

Lemma filter_not_whitespace (l : list ascii) :
  Forall (λ c, is_ascii_whitespace c = false) l →
  filter (λ c, is_ascii_whitespace c = false) l = l.
Proof.
  induction 1 as [|c l Hc _ IH]; [done |].
  rewrite filter_cons_True by done. by rewrite IH.
Qed.

(** Removing the padding of [atob]'s second step takes off at most two
    characters, all of them [=]. *)
Lemma strip_padding_split (t : list ascii) :
  ∃ k : nat, (k ≤ 2)%nat ∧ t = strip_padding t ++ replicate k pad.
Proof.
  unfold strip_padding. case_decide as Hlen.
  - clear Hlen. remember (reverse t) as rt eqn:Hr.
    apply (f_equal reverse) in Hr. rewrite reverse_involutive in Hr.
    subst t. destruct rt as [|c1 [|c2 r]].
    + exists 0%nat. split; [lia | done].
    + case_decide as Hc1.
      * subst c1. exists 1%nat. split; [lia | done].
      * exists 0%nat. split; [lia |]. by rewrite app_nil_r.
    + case_decide as Hc1; [case_decide as Hc2 |].
      * subst c1 c2. exists 2%nat. split; [lia |].
        rewrite !reverse_cons, <- app_assoc. done.
      * subst c1. exists 1%nat. split; [lia |].
        by rewrite (reverse_cons (c2 :: r) pad).
      * exists 0%nat. split; [lia |]. by rewrite app_nil_r.
  - exists 0%nat. split; [lia |]. by rewrite app_nil_r.
Qed.

(** When the body holds no [=], exactly the padding goes. *)
Lemma strip_padding_body (body : list ascii) (k : nat) :
  Forall (λ c, c ≠ pad) body → (k ≤ 2)%nat →
  ((length body + k) mod 4 = 0)%nat →
  strip_padding (body ++ replicate k pad) = body.
Proof.
  intros Hbody Hk Hlen. unfold strip_padding.
  rewrite length_app, length_replicate, decide_True by done.
  rewrite reverse_app, reverse_replicate.
  pose proof (proj2 (Forall_reverse _ _) Hbody) as Hrev.
  destruct k as [|[|[|k]]]; [| | | lia]; simpl.
  - destruct (reverse body) as [|c1 [|c2 r]] eqn:Hr.
    + apply (f_equal reverse) in Hr. rewrite reverse_involutive in Hr.
      subst body. by rewrite app_nil_r.
    + apply Forall_cons in Hrev as [Hc1 _].
      by rewrite decide_False, app_nil_r.
    + apply Forall_cons in Hrev as [Hc1 _].
      by rewrite decide_False, app_nil_r.
  - destruct (reverse body) as [|c2 r] eqn:Hr.
    + apply (f_equal reverse) in Hr. rewrite reverse_involutive in Hr.
      subst body. reflexivity.
    + apply Forall_cons in Hrev as [Hc2 _].
      rewrite ?decide_True by done. rewrite decide_False by done.
      rewrite <- Hr. apply reverse_involutive.
  - rewrite ?decide_True by done. apply reverse_involutive.
Qed.

Lemma pad_plain : is_ascii_whitespace pad = false.
Proof. done. Qed.

Lemma length_mod4_body (n k : nat) :
  (k ≤ 2)%nat → ((n + k) mod 4 = 0)%nat → (n mod 4 ≠ 1)%nat.
Proof.
  intros Hk Hlen Hn.
  pose proof (Nat.div_mod_eq (n + k) 4). pose proof (Nat.div_mod_eq n 4).
  lia.
Qed.

(** [atob] accepts alphabet characters followed by the padding that
    completes the last four characters, and decodes their groups. *)
Lemma atob_success (body : list ascii) (vs : list Z) (k : nat) :
  mapM b64_value body = Some vs → (k ≤ 2)%nat →
  ((length body + k) mod 4 = 0)%nat →
  atob (body ++ replicate k pad)
  = Some (fromCharCode <$> decode_groups vs).
Proof.
  intros Hmap Hk Hlen.
  assert (Forall (λ c, is_base64_char c = true) body) as Hbody.
  { apply Forall_forall. intros c Hc. apply b64_value_is_char.
    assert (is_Some (mapM b64_value body)) as Hsome by eauto.
    rewrite mapM_is_Some, Forall_forall in Hsome. by apply Hsome. }
  unfold atob. rewrite filter_not_whitespace.
  - rewrite strip_padding_body; [| | done | done].
    + rewrite decide_False by (by apply (length_mod4_body _ k)).
      by rewrite Hmap.
    + eapply Forall_impl; [exact Hbody |]. intros c Hc.
      by apply base64_char_plain.
  - apply Forall_app. split.
    + eapply Forall_impl; [exact Hbody |]. intros c Hc.
      by apply base64_char_plain.
    + apply Forall_replicate. exact pad_plain.
Qed.

Lemma atob_valid (t : list ascii) : valid_base64 t → is_Some (atob t).
Proof.
  intros (Hlen & body & k & -> & Hk & Hbody).
  assert (is_Some (mapM b64_value body)) as [vs Hvs].
  { apply mapM_is_Some. eapply Forall_impl; [exact Hbody |].
    intros c Hc. by apply b64_value_is_char. }
  rewrite length_app, length_replicate in Hlen.
  pose proof (atob_success body vs k Hvs Hk Hlen) as Hok.
  unfold pad in Hok. rewrite Hok. eauto.
Qed.

(** Without whitespace, what [atob] accepts at a length that is a
    multiple of four is valid base64. *)
Lemma atob_Some_valid (t bin : list ascii) :
  Forall (λ c, is_ascii_whitespace c = false) t →
  (length t mod 4 = 0)%nat →
  atob t = Some bin → valid_base64 t.
Proof.
  intros Hws Hlen. unfold atob. rewrite filter_not_whitespace by done.
  destruct (strip_padding_split t) as (k & Hk & Ht).
  case_decide as Hone; [done |].
  destruct (mapM b64_value (strip_padding t)) as [vs|] eqn:Hmap; [| done].
  intros _. split; [done |].
  exists (strip_padding t), k. split_and!; [exact Ht | done |].
  assert (is_Some (mapM b64_value (strip_padding t))) as Hsome by eauto.
  rewrite mapM_is_Some in Hsome.
  eapply Forall_impl; [exact Hsome |]. intros c Hc.
  by apply b64_value_is_char.
Qed.

(** [atob] reads its argument with the whitespace removed. *)
Lemma atob_filter (t : list ascii) :
  atob t = atob (filter (λ c, is_ascii_whitespace c = false) t).
Proof.
  unfold atob.
  rewrite (filter_not_whitespace
             (filter (λ c, is_ascii_whitespace c = false) t)); [done |].
  apply Forall_forall. by intros c [Hc _]%list_elem_of_filter.
Qed.

Lemma strip_padding_short (t : list ascii) :
  (length t mod 4 ≠ 0)%nat → strip_padding t = t.
Proof. intros Hlen. unfold strip_padding. by rewrite decide_False. Qed.

(** [atob] returns exactly for the strings that the forgiving-base64
    decoder takes, and throws for every other one. *)
Lemma atob_accepts (t : list ascii) : is_Some (atob t) ↔ forgiving_base64 t.
Proof.
  rewrite atob_filter. unfold forgiving_base64.
  set (data := filter (λ c, is_ascii_whitespace c = false) t).
  assert (Forall (λ c, is_ascii_whitespace c = false) data) as Hws.
  { apply Forall_forall. by intros c [Hc _]%list_elem_of_filter. }
  pose proof (Nat.mod_upper_bound (length data) 4) as Hbound.
  destruct (decide (length data mod 4 = 0)%nat) as [Hzero | Hrest].
  - split.
    + intros [bin Hbin]. left. by eapply atob_Some_valid.
    + intros [Hvalid | [_ Hlen]]; [by apply atob_valid | lia].
  - unfold atob. rewrite filter_not_whitespace by done.
    rewrite strip_padding_short by done.
    split.
    + case_decide as Hone; [by intros [? ?] |].
      destruct (mapM b64_value data) as [vs|] eqn:Hmap;
        [| by intros [? ?]].
      intros _. right. split; [| lia].
      assert (is_Some (mapM b64_value data)) as Hsome by eauto.
      rewrite mapM_is_Some in Hsome.
      eapply Forall_impl; [exact Hsome |]. intros c Hc.
      by apply b64_value_is_char.
    + intros [[Hlen _] | [Hchars Hlen]]; [done |].
      rewrite decide_False by lia.
      assert (is_Some (mapM b64_value data)) as [vs ->]; [| by eauto].
      apply mapM_is_Some. eapply Forall_impl; [exact Hchars |].
      intros c Hc. by apply b64_value_is_char.
Qed.

(** Every byte that [atob] returns is a character code. *)
Lemma charCodes_bytes (bin : list ascii) : Forall is_byte (charCode <$> bin).
Proof.
  apply Forall_fmap, Forall_forall. intros c _. apply charCode_bounds.
Qed.

End Base64Facts.

(** ** The bitset and URL codec *)

Module CodecFacts.
Import Base64 UrlState CodecSpec EngineSpec JSFacts Base64Facts.

(** *** Clamping *)

Lemma clampInt_bounds (value : number) (lo hi : Z) :
  lo ≤ hi → lo ≤ clampInt value lo hi ≤ hi.
Proof. intros Hle. unfold clampInt. lia. Qed.

Lemma clampInt_Int (z lo hi : Z) :
  lo ≤ z ≤ hi → clampInt (Int z) lo hi = z.
Proof. intros Hz. unfold clampInt, Int. rewrite Qfloor_Z. lia. Qed.

Lemma floor_div_8 (a : Z) : floor_div a 8 = a / 8.
Proof.
  unfold floor_div, Qfloor, Qdiv, Qmult, Qinv, inject_Z. simpl.
  f_equal. lia.
Qed.

Lemma ceil_div_8 (a : Z) : ceil_div a 8 = (a + 7) / 8.
Proof.
  unfold ceil_div, Qceiling, Qfloor, Qopp, Qdiv, Qmult, Qinv, inject_Z.
  simpl. rewrite Z.mul_1_r. Z.div_mod_to_equations. lia.
Qed.

(** *** Characters *)

Lemma to_plain_to_url_bool (c : ascii) :
  implb (is_base64_char c)
        (bool_decide (to_url c ≠ pad)
         && bool_decide (to_plain (to_url c) = c)) = true.
Proof.
  ascii_cases c.
Qed.

Lemma to_plain_to_url (c : ascii) :
  is_base64_char c = true → to_url c ≠ pad ∧ to_plain (to_url c) = c.
Proof.
  intros Hc. pose proof (to_plain_to_url_bool c) as H.
  rewrite Hc in H. simpl in H. apply andb_true_iff in H as [H1 H2].
  split; by eapply bool_decide_eq_true.
Qed.

Lemma to_plain_url_char_bool (c : ascii) :
  implb (is_base64url_char c) (is_base64_char (to_plain c)) = true.
Proof.
  ascii_cases c.
Qed.

Lemma to_plain_url_char (c : ascii) :
  is_base64url_char c = true → is_base64_char (to_plain c) = true.
Proof.
  intros Hc. pose proof (to_plain_url_char_bool c) as H.
  by rewrite Hc in H.
Qed.

Lemma to_plain_whitespace_bool (c : ascii) :
  is_ascii_whitespace (to_plain c) = is_ascii_whitespace c.
Proof.
  ascii_cases c.
Qed.

Lemma b64_char_is_char (v : Z) :
  0 ≤ v < 64 → is_base64_char (b64_char v) = true.
Proof.
  intros Hv. apply b64_value_is_char. rewrite b64_value_char by done. eauto.
Qed.

Lemma replaceAll_to_url (l : list ascii) :
  replaceAll "/"%char "_"%char (replaceAll "+"%char "-"%char l)
  = to_url <$> l.
Proof. unfold replaceAll. by rewrite <- list_fmap_compose. Qed.

Lemma replaceAll_to_plain (l : list ascii) :
  replaceAll "_"%char "/"%char (replaceAll "-"%char "+"%char l)
  = to_plain <$> l.
Proof. unfold replaceAll. by rewrite <- list_fmap_compose. Qed.

(** *** Padding restored by the decoder *)

Lemma pad_length_spec (n : nat) :
  ((n + pad_length n) mod 4 = 0)%nat
  ∧ (pad_length n ≤ 3)%nat
  ∧ ((n mod 4 ≠ 1)%nat → (pad_length n ≤ 2)%nat).
Proof.
  unfold pad_length.
  pose proof (Nat.div_mod_eq n 4) as Hn.
  pose proof (Nat.mod_upper_bound n 4).
  assert (Z.of_nat n mod 4 = Z.of_nat (n mod 4)) as ->
    by (rewrite Nat2Z.inj_mod; done).
  remember (n mod 4)%nat as r eqn:Hr.
  assert (r = 0 ∨ r = 1 ∨ r = 2 ∨ r = 3)%nat as Hcases by lia.
  destruct Hcases as [-> | [-> | [-> | ->]]].
  - change (Z.to_nat ((4 - Z.of_nat 0) mod 4)) with 0%nat.
    split_and!; [| lia | lia].
    replace (n + 0)%nat with (0 + (n / 4) * 4)%nat by lia.
    by rewrite Nat.Div0.mod_add.
  - change (Z.to_nat ((4 - Z.of_nat 1) mod 4)) with 3%nat.
    split_and!; [| lia | lia].
    replace (n + 3)%nat with (0 + (n / 4 + 1) * 4)%nat by lia.
    by rewrite Nat.Div0.mod_add.
  - change (Z.to_nat ((4 - Z.of_nat 2) mod 4)) with 2%nat.
    split_and!; [| lia | lia].
    replace (n + 2)%nat with (0 + (n / 4 + 1) * 4)%nat by lia.
    by rewrite Nat.Div0.mod_add.
  - change (Z.to_nat ((4 - Z.of_nat 3) mod 4)) with 1%nat.
    split_and!; [| lia | lia].
    replace (n + 1)%nat with (0 + (n / 4 + 1) * 4)%nat by lia.
    by rewrite Nat.Div0.mod_add.
Qed.

Lemma padded_spec (s : string) :
  padded s
  = (to_plain <$> list_ascii_of_string s)
      ++ replicate (pad_length (length (list_ascii_of_string s))) pad.
Proof.
  unfold padded. rewrite replaceAll_to_plain, length_fmap.
  f_equal. f_equal. unfold pad_length.
  set (n := Z.of_nat (length (list_ascii_of_string s))).
  assert (0 ≤ n mod 4 < 4) by (apply Z.mod_pos_bound; lia).
  rewrite (rem_mod n 4) by lia.
  rewrite rem_mod by lia. done.
Qed.

Lemma length_padded (s : string) : (length (padded s) mod 4 = 0)%nat.
Proof.
  rewrite padded_spec, length_app, length_replicate, length_fmap.
  apply pad_length_spec.
Qed.

(** *** Reading the packed bits *)

Lemma readBit_spec (bytes : list Z) (i : Z) :
  Forall is_byte bytes → 0 ≤ i →
  readBit bytes i = 1 ↔ bit_set bytes i.
Proof.
  intros Hbytes Hi. unfold readBit, bit_set.
  rewrite floor_div_8, rem_mod by lia.
  assert (0 ≤ i / 8) by (apply Z.div_pos; lia).
  assert (0 ≤ i mod 8 < 8) by (apply Z.mod_pos_bound; lia).
  rewrite get_lookup by done.
  set (b := default 0 (bytes !! Z.to_nat (i / 8))).
  assert (is_byte b) as Hb.
  { unfold b. destruct (bytes !! Z.to_nat (i / 8)) as [x|] eqn:Hx; simpl.
    - by eapply Forall_lookup_1.
    - unfold is_byte. lia. }
  unfold is_byte in Hb.
  rewrite shr_small by lia.
  pose proof (shiftr_bounds b (7 - i mod 8)).
  rewrite band_small by lia.
  rewrite Z.testbit_true by lia.
  rewrite Z.shiftr_div_pow2 by lia.
  change 1 with (Z.ones 1) at 1. rewrite Z.land_ones by lia.
  done.
Qed.

Lemma StronglySorted_seqZ (m n : Z) : StronglySorted Z.lt (seqZ m n).
Proof.
  destruct (decide (n ≤ 0)) as [Hn | Hn];
    [rewrite seqZ_nil by done; constructor |].
  rewrite <- (Z2Nat.id n) by lia. generalize (Z.to_nat n) as k. clear.
  intros k. revert m. induction k as [|k IH]; intros m.
  - rewrite seqZ_nil by lia. constructor.
  - rewrite seqZ_cons by lia.
    replace (Z.pred (Z.of_nat (S k))) with (Z.of_nat k) by lia.
    constructor; [apply IH |].
    apply Forall_forall. intros x Hx%elem_of_seqZ. lia.
Qed.

Lemma StronglySorted_filter {A} (R : A → A → Prop) (P : A → Prop)
    `{∀ x, Decision (P x)} (l : list A) :
  StronglySorted R l → StronglySorted R (filter P l).
Proof.
  induction 1 as [|x l Hsorted IH Hall]; [constructor |].
  destruct (decide (P x)).
  - rewrite filter_cons_True by done. constructor; [done |].
    rewrite Forall_forall in Hall. apply Forall_forall.
    intros y [_ Hy]%list_elem_of_filter. by apply Hall.
  - by rewrite filter_cons_False.
Qed.

(** What a successful decode returns. *)
Lemma decodeSeedBitset_Some (T : number) (s : string) (out : list Z) :
  decodeSeedBitset T s = Some out →
  ∃ bytes : list Z,
    base64UrlDecode s = Some bytes
    ∧ Forall is_byte bytes
    ∧ (∀ i : Z, i ∈ out ↔ 0 ≤ i < clampInt T 1 300 ∧ bit_set bytes i)
    ∧ StronglySorted Z.lt out.
Proof.
  unfold decodeSeedBitset.
  destruct (base64UrlDecode s) as [bytes|] eqn:Hdec; [| done].
  intros [= <-]. exists bytes.
  assert (Forall is_byte bytes) as Hbytes.
  { unfold base64UrlDecode in Hdec.
    destruct (atob (padded s)); [| done].
    injection Hdec as <-. apply charCodes_bytes. }
  split_and!; [done | done | |].
  - intros i. rewrite list_elem_of_filter, elem_of_seqZ.
    split.
    + intros [Hbit Hi]. split; [lia |]. apply readBit_spec; [done | lia | done].
    + intros [Hi Hbit]. split; [| lia]. apply readBit_spec; [done | lia | done].
  - apply StronglySorted_filter, StronglySorted_seqZ.
Qed.

(** The decoder accepts every valid unpadded base64url string. *)
Lemma base64UrlDecode_valid (s : string) :
  valid_base64url s → is_Some (base64UrlDecode s).
Proof.
  intros [Hchars Hlen]. unfold base64UrlDecode.
  destruct (atob_valid (padded s)) as [bin Hbin]; [| rewrite Hbin; eauto].
  split; [apply length_padded |].
  exists (to_plain <$> list_ascii_of_string s),
         (pad_length (length (list_ascii_of_string s))).
  split_and!; [apply padded_spec | by apply pad_length_spec |].
  apply Forall_fmap. eapply Forall_impl; [exact Hchars |].
  intros c Hc. by apply to_plain_url_char.
Qed.

(** C10. For [totalItems] in [1,300] and every valid base64url string
    the decode succeeds whatever the length of the payload: the result
    is the indices of [0,totalItems) whose packed bit is set, a byte
    that the payload lacks counting as zero and bits at or beyond
    [totalItems] being left out, so every index returned lies inside
    [0,totalItems). *)
Theorem C10_decode_any_payload_length (T : Z) (s : string) :
  1 ≤ T ≤ 300 → valid_base64url s →
  ∃ (bytes out : list Z),
    base64UrlDecode s = Some bytes
    ∧ decodeSeedBitset (Int T) s = Some out
    ∧ (∀ i : Z, i ∈ out ↔ 0 ≤ i < T ∧ bit_set bytes i)
    ∧ Forall (λ i, 0 ≤ i < T) out.
Proof.
  intros HT Hvalid.
  destruct (base64UrlDecode_valid s Hvalid) as [bytes Hbytes].
  assert (is_Some (decodeSeedBitset (Int T) s)) as [out Hout].
  { unfold decodeSeedBitset. rewrite Hbytes. eauto. }
  destruct (decodeSeedBitset_Some _ _ _ Hout)
    as (bytes' & Hbytes' & _ & Hmem & _).
  rewrite clampInt_Int in Hmem by done.
  assert (bytes' = bytes) as -> by congruence.
  exists bytes, out. split_and!; [done | done | done |].
  apply Forall_forall. intros i Hi. by apply Hmem.
Qed.

Lemma C10_decode_any_payload_length_witness :
  ∃ (bytes out : list Z),
    base64UrlDecode "gA" = Some bytes
    ∧ decodeSeedBitset (Int 16) "gA" = Some out
    ∧ (∀ i : Z, i ∈ out ↔ 0 ≤ i < 16 ∧ bit_set bytes i)
    ∧ Forall (λ i, 0 ≤ i < 16) out.
Proof.
  apply (C10_decode_any_payload_length 16 "gA"); [lia |].
  split; [| done].
  unfold is_base64url_char. decide_closed.
Defined.

(** *** When the decoder returns [null] *)

Lemma padded_no_whitespace (s : string) :
  no_whitespace s →
  Forall (λ c, is_ascii_whitespace c = false) (padded s).
Proof.
  intros Hs. rewrite padded_spec. apply Forall_app. split.
  - apply Forall_fmap. eapply Forall_impl; [exact Hs |].
    intros c Hc. simpl. rewrite to_plain_whitespace_bool.
    by apply bool_decide_eq_false.
  - apply Forall_replicate. exact pad_plain.
Qed.

Lemma base64UrlDecode_None (s : string) :
  base64UrlDecode s = None ↔ atob (padded s) = None.
Proof. unfold base64UrlDecode. by destruct (atob (padded s)). Qed.

Lemma decodeSeedBitset_None (T : number) (s : string) :
  decodeSeedBitset T s = None ↔ atob (padded s) = None.
Proof.
  rewrite <- base64UrlDecode_None. unfold decodeSeedBitset.
  by destruct (base64UrlDecode s).
Qed.

(** C6 (as the code has it).  The decoder is total: its only failure is
    the [null] result.  For every string it returns [null] exactly when
    the forgiving-base64 decoder of [atob] does not take the string
    with the URL-safe substitutions undone and the padding restored:
    when, ASCII whitespace removed, that padded string is neither valid
    base64 nor valid base64 without its padding.  So it never returns
    [null] for a string that is valid base64 once padded, and for a
    string without ASCII whitespace it returns [null] exactly when the
    padded string is not valid base64.  A successful result is the
    strictly ascending list of the indices of [0, safeTotal),
    [safeTotal] being [totalItems] floored and clamped to [1,300],
    whose packed bit is set. *)
Theorem C6_decode_null (T : number) (s : string) :
  (decodeSeedBitset T s = None ↔ ¬ forgiving_base64 (padded s))
  ∧ (decodeSeedBitset T s = None → ¬ valid_base64 (padded s))
  ∧ (no_whitespace s → ¬ valid_base64 (padded s) →
     decodeSeedBitset T s = None)
  ∧ (∀ out : list Z, decodeSeedBitset T s = Some out →
       ∃ bytes : list Z,
         base64UrlDecode s = Some bytes
         ∧ (∀ i : Z, i ∈ out ↔ 0 ≤ i < clampInt T 1 300 ∧ bit_set bytes i)
         ∧ StronglySorted Z.lt out).
Proof.
  split_and!.
  - rewrite decodeSeedBitset_None, <- atob_accepts.
    split; [intros -> [? ?]; done |].
    intros Hnot. destruct (atob (padded s)) as [bin|]; [| done].
    destruct Hnot. eauto.
  - intros Hnone%decodeSeedBitset_None Hvalid.
    apply atob_valid in Hvalid as [bin Hbin]. congruence.
  - intros Hws Hinvalid. apply decodeSeedBitset_None.
    destruct (atob (padded s)) as [bin|] eqn:Hbin; [| done].
    exfalso. apply Hinvalid.
    eapply atob_Some_valid;
      [by apply padded_no_whitespace | apply length_padded | exact Hbin].
  - intros out Hout.
    destruct (decodeSeedBitset_Some T s out Hout)
      as (bytes & Hbytes & _ & Hmem & Hsorted).
    by exists bytes.
Qed.

Lemma C6_decode_null_witness :
  decodeSeedBitset (Int 8) "g A" = None
  ∧ decodeSeedBitset (Int 8) "A" = None
  ∧ ¬ valid_base64 (padded "gA=A").
Proof.
  destruct (C6_decode_null (Int 8) "g A") as (Hiff & _).
  destruct (C6_decode_null (Int 8) "A") as (_ & _ & Hnull & _).
  destruct (C6_decode_null (Int 8) "gA=A") as (_ & Hinv & _).
  split_and!.
  - apply Hiff. unfold forgiving_base64.
    change (filter (λ c, is_ascii_whitespace c = false) (padded "g A"))
      with ([ "g"; "A"; "=" ]%char).
    intros [[Hlen _] | [Hchars _]]; [done |].
    apply Forall_cons in Hchars as [_ Hchars].
    apply Forall_cons in Hchars as [_ Hchars].
    by apply Forall_cons in Hchars as [? _].
  - apply Hnull.
    + unfold no_whitespace. decide_closed.
    + intros (_ & body & k & Heq & Hk & Hbody).
      change (padded "A") with ([ "A"; "="; "="; "=" ]%char) in Heq.
      destruct k as [|[|[|k]]]; [| | | lia]; simpl in Heq.
      * rewrite app_nil_r in Heq. subst body.
        apply Forall_cons in Hbody as [_ Hbody].
        by apply Forall_cons in Hbody as [? _].
      * change ([ "A"; "="; "="; "=" ]%char)
          with ([ "A"; "="; "=" ]%char ++ ["="%char]) in Heq.
        apply app_inj_tail in Heq as [<- _].
        apply Forall_cons in Hbody as [_ Hbody].
        by apply Forall_cons in Hbody as [? _].
      * change ([ "A"; "="; "="; "=" ]%char)
          with ([ "A"; "=" ]%char ++ ["="; "="]%char) in Heq.
        apply app_inj_2 in Heq as [<- _]; [| done].
        apply Forall_cons in Hbody as [_ Hbody].
        by apply Forall_cons in Hbody as [? _].
  - by apply Hinv.
Defined.

(** "[null] if and only if not valid base64" does not hold for a string
    that holds whitespace: ["AA A"] is not valid base64, yet [atob]
    drops the space and the decode succeeds. *)
Lemma C6_whitespace_counterexample :
  decodeSeedBitset (Int 8) "AA A" = Some []
  ∧ ¬ valid_base64 (padded "AA A").
Proof.
  split; [reflexivity |].
  intros (_ & body & k & Heq & Hk & Hbody).
  change (padded "AA A") with ([ "A"; "A"; " "; "A" ]%char) in Heq.
  destruct k as [|[|[|k]]]; [| | | lia]; simpl in Heq.
  - rewrite app_nil_r in Heq. subst body.
    apply Forall_cons in Hbody as [_ Hbody].
    apply Forall_cons in Hbody as [_ Hbody].
    by apply Forall_cons in Hbody as [? _].
  - change ([ "A"; "A"; " "; "A" ]%char)
      with ([ "A"; "A"; " " ]%char ++ ["A"%char]) in Heq.
    by apply app_inj_tail in Heq as [_ ?].
  - change ([ "A"; "A"; " "; "A" ]%char)
      with ([ "A"; "A" ]%char ++ [" "; "A"]%char) in Heq.
    by apply app_inj_2 in Heq as [_ ?].
Qed.

(** *** The encoder, and the round trip *)

Lemma to_url_pad : to_url pad = pad.
Proof. done. Qed.

Lemma filter_no_pad (l : list ascii) :
  Forall (λ c, c ≠ pad) l → filter (λ c, c ≠ "="%char) l = l.
Proof.
  induction 1 as [|c l Hc _ IH]; [done |].
  rewrite filter_cons_True by done. by rewrite IH.
Qed.

Lemma filter_all_pad (k : nat) :
  filter (λ c, c ≠ "="%char) (replicate k pad) = [].
Proof.
  induction k as [|k IH]; [done |]. simpl replicate.
  rewrite filter_cons_False; [done |]. intros Hne. by apply Hne.
Qed.

(** The encoded string is the URL-safe characters of groups that decode
    to the bytes. *)
Lemma base64UrlEncode_groups (bytes : list Z) :
  Forall is_byte bytes →
  ∃ vs : list Z,
    list_ascii_of_string (base64UrlEncode bytes)
    = to_url <$> (b64_char <$> vs)
    ∧ Forall (λ v, 0 ≤ v < 64) vs
    ∧ (length vs mod 4 ≠ 1)%nat
    ∧ decode_groups vs = bytes.
Proof.
  intros Hbytes. unfold base64UrlEncode, btoa.
  rewrite charCodes_fromCharCodes by done.
  destruct (btoa_codes_groups bytes Hbytes)
    as (vs & k & Henc & Hk & Hlen & Hvs & Hdec).
  exists vs. split_and!; [| done | by apply (length_mod4_body _ k) | done].
  rewrite list_ascii_of_string_of_list_ascii.
  rewrite Henc, replaceAll_to_url, fmap_app. unfold removeAll.
  rewrite filter_app, fmap_replicate, to_url_pad, filter_all_pad, app_nil_r.
  apply filter_no_pad. apply Forall_fmap, Forall_fmap.
  eapply Forall_impl; [exact Hvs |]. intros v Hv. simpl.
  by apply to_plain_to_url, b64_char_is_char.
Qed.

Lemma mapM_b64_value_chars (vs : list Z) :
  Forall (λ v, 0 ≤ v < 64) vs → mapM b64_value (b64_char <$> vs) = Some vs.
Proof.
  intros Hvs. apply mapM_Some_2, Forall2_fmap_l, Forall_Forall2_diag.
  eapply Forall_impl; [exact Hvs |]. intros v Hv. by apply b64_value_char.
Qed.

Lemma base64Url_roundtrip (bytes : list Z) :
  Forall is_byte bytes →
  base64UrlDecode (base64UrlEncode bytes) = Some bytes.
Proof.
  intros Hbytes.
  destruct (base64UrlEncode_groups bytes Hbytes)
    as (vs & Henc & Hvs & Hlen & Hdec).
  unfold base64UrlDecode. rewrite padded_spec, Henc.
  assert (to_plain <$> (to_url <$> (b64_char <$> vs)) = b64_char <$> vs)
    as ->.
  { rewrite <- list_fmap_compose. rewrite <- (list_fmap_id (b64_char <$> vs)) at 2.
    apply Forall_fmap_ext, Forall_fmap.
    eapply Forall_impl; [exact Hvs |]. intros v Hv. simpl.
    by apply to_plain_to_url, b64_char_is_char. }
  rewrite !length_fmap.
  pose proof (pad_length_spec (length vs)) as (Hpad & _ & Hk).
  rewrite (atob_success _ vs).
  - by rewrite Hdec, charCodes_fromCharCodes.
  - by apply mapM_b64_value_chars.
  - by apply Hk.
  - by rewrite length_fmap.
Qed.

(** *** Packing the bits *)

Lemma bit_set_zeros (n : nat) (i : Z) : ¬ bit_set (replicate n 0) i.
Proof.
  unfold bit_set.
  destruct (replicate n 0 !! Z.to_nat (i / 8)) as [b|] eqn:Hb; simpl.
  - apply lookup_replicate in Hb as [-> _]. by rewrite Z.bits_0.
  - by rewrite Z.bits_0.
Qed.

(** One store of the packing loop sets the bit of its index and no
    other. *)
Lemma or_byte_spec (bytes : list Z) (idx : Z) :
  Forall is_byte bytes →
  0 ≤ idx < 8 * Z.of_nat (length bytes) →
  let bytes' :=
    or_byte bytes (floor_div idx 8) (shl 1 (7 - JS.rem idx 8)) in
  Forall is_byte bytes'
  ∧ length bytes' = length bytes
  ∧ ∀ i : Z, 0 ≤ i → bit_set bytes' i ↔ bit_set bytes i ∨ i = idx.
Proof.
  intros Hbytes Hidx. cbv zeta.
  rewrite floor_div_8, rem_mod by lia.
  assert (0 ≤ idx / 8 < Z.of_nat (length bytes)) as Hj
    by (split; [apply Z.div_pos; lia | apply Z.div_lt_upper_bound; lia]).
  assert (0 ≤ idx mod 8 < 8) as Hk by (apply Z.mod_pos_bound; lia).
  unfold or_byte. rewrite get_lookup by lia.
  destruct (lookup_lt_is_Some_2 bytes (Z.to_nat (idx / 8))) as [b Hb];
    [lia |].
  rewrite Hb.
  assert (is_byte b) as Hbyte by (by eapply Forall_lookup_1).
  unfold is_byte in Hbyte.
  rewrite shl_one by lia.
  assert (0 < 2 ^ (7 - idx mod 8) ≤ 2 ^ 7) as Hpow
    by (split; [apply Z.pow_pos_nonneg; lia
               | apply Z.pow_le_mono_r; lia]).
  rewrite bor_small by lia.
  split_and!.
  - apply Forall_insert; [done |]. unfold is_byte.
    apply Z.mod_pos_bound. lia.
  - apply length_insert.
  - intros i Hi. unfold bit_set.
    assert (0 ≤ i mod 8 < 8) by (apply Z.mod_pos_bound; lia).
    assert (0 ≤ i / 8) by (apply Z.div_pos; lia).
    destruct (decide (i / 8 = idx / 8)) as [Heq | Hne].
    + rewrite Heq, list_lookup_insert_eq, Hb by lia. simpl.
      change 256 with (2 ^ 8). rewrite Z.mod_pow2_bits_low by lia.
      rewrite Z.lor_spec, Z.pow2_bits_eqb, orb_true_iff, Z.eqb_eq by lia.
      split; (intros [? | ?]; [by left | right]).
      * rewrite (Z.div_mod i 8), (Z.div_mod idx 8) by lia. lia.
      * subst i. done.
    + rewrite list_lookup_insert_ne by lia.
      split; [by left | intros [? | ->]; done].
Qed.

Lemma packBits_fold (n : nat) (rest : list Z) (acc : list Z)
    (seen : Z → Prop) :
  Forall is_byte acc → length acc = n →
  (∀ i, 0 ≤ i → bit_set acc i ↔ seen i) →
  Forall (λ i, 0 ≤ i < 8 * Z.of_nat n) rest →
  let bytes :=
    foldl (λ bytes idx,
             let byteIndex := floor_div idx 8 in
             let bitInByte := JS.rem idx 8 in
             or_byte bytes byteIndex (shl 1 (7 - bitInByte))) acc rest in
  Forall is_byte bytes
  ∧ length bytes = n
  ∧ ∀ i, 0 ≤ i → bit_set bytes i ↔ seen i ∨ i ∈ rest.
Proof.
  revert acc seen.
  induction rest as [|idx rest IH]; intros acc seen Hacc Hlen Hseen Hrest;
    cbv zeta.
  - split_and!; [done | done |]. intros i Hi. rewrite Hseen by done.
    split; [by left | intros [? | Hin]; [done |]].
    by apply not_elem_of_nil in Hin.
  - apply Forall_cons in Hrest as [Hidx Hrest]. simpl foldl.
    destruct (or_byte_spec acc idx Hacc) as (Hacc' & Hlen' & Hbits);
      [lia |].
    destruct (IH _ (λ i, seen i ∨ i = idx) Hacc') as (Hr & Hrl & Hrb);
      [lia | | done |].
    + intros i Hi. rewrite Hbits, Hseen by done. done.
    + split_and!; [done | done |]. intros i Hi.
      rewrite Hrb, elem_of_cons by done. tauto.
Qed.

Lemma packBits_spec (T : Z) (idxs : list Z) :
  1 ≤ T → Forall (λ i, 0 ≤ i < T) idxs →
  Forall is_byte (packBits T idxs)
  ∧ ∀ i, 0 ≤ i → bit_set (packBits T idxs) i ↔ i ∈ idxs.
Proof.
  intros HT Hidxs. unfold packBits. rewrite ceil_div_8.
  destruct (packBits_fold (Z.to_nat ((T + 7) / 8)) idxs
              (replicate (Z.to_nat ((T + 7) / 8)) 0) (λ _, False))
    as (Hbytes & _ & Hbits).
  - apply Forall_replicate. unfold is_byte. lia.
  - apply length_replicate.
  - intros i _. split; [by intros ?%bit_set_zeros | done].
  - eapply Forall_impl; [exact Hidxs |]. intros i Hi. cbv beta in *.
    rewrite Z2Nat.id by (apply Z.div_pos; lia).
    Z.div_mod_to_equations. lia.
  - split; [done |]. intros i Hi. rewrite Hbits by done. tauto.
Qed.

Lemma elem_of_uniqSortedIndices (seeds : list number) (T x : Z) :
  x ∈ uniqSortedIndices seeds T ↔ 0 ≤ x < T ∧ is_seed seeds x.
Proof.
  unfold uniqSortedIndices. rewrite sort_perm.
  rewrite EngineFacts.elem_of_collect.
  split; [intros [Hnil | ?]; [by apply not_elem_of_nil in Hnil | done] |].
  by right.
Qed.

Lemma is_seed_Int (S : list Z) (x : Z) : is_seed (Int <$> S) x ↔ x ∈ S.
Proof.
  unfold is_seed. split.
  - intros (q & Hq & <-).
    apply list_elem_of_fmap in Hq as (y & Heq & Hy).
    injection Heq as ->. by rewrite Qfloor_Z.
  - intros Hx. exists (inject_Z x). split; [| apply Qfloor_Z].
    apply list_elem_of_fmap. by exists x.
Qed.

(** Decoding an encoding gives back the floored, in-range seeds. *)
Lemma decode_encode_seeds (T : Z) (seeds : list number) :
  1 ≤ T ≤ 300 →
  ∃ out : list Z,
    decodeSeedBitset (Int T) (encodeSeedBitset (Int T) seeds) = Some out
    ∧ StronglySorted Z.lt out
    ∧ ∀ x : Z, x ∈ out ↔ 0 ≤ x < T ∧ is_seed seeds x.
Proof.
  intros HT. unfold encodeSeedBitset.
  rewrite clampInt_Int by done.
  set (idxs := uniqSortedIndices seeds T).
  destruct (packBits_spec T idxs) as [Hbytes Hbits]; [lia | |].
  { apply Forall_forall. by intros x [? _]%elem_of_uniqSortedIndices. }
  pose proof (base64Url_roundtrip _ Hbytes) as Hround.
  assert (is_Some (decodeSeedBitset (Int T)
                     (base64UrlEncode (packBits T idxs)))) as [out Hout].
  { unfold decodeSeedBitset. rewrite Hround. eauto. }
  destruct (decodeSeedBitset_Some _ _ _ Hout)
    as (bytes & Hdec & _ & Hmem & Hsorted).
  rewrite clampInt_Int in Hmem by done.
  assert (bytes = packBits T idxs) as -> by congruence.
  exists out. split_and!; [done | done |].
  intros x. rewrite Hmem, <- elem_of_uniqSortedIndices. fold idxs. split.
  - intros [Hx Hbit]. apply Hbits; [lia | done].
  - intros Hx. pose proof Hx as [Hrange _]%elem_of_uniqSortedIndices.
    split; [done |]. apply Hbits; [lia | done].
Qed.

(** C2. For [totalItems] in [1,300] and indices [S] inside
    [0,totalItems), decoding the encoding of [S] succeeds and returns
    the sorted, duplicate-free elements of [S]: the strictly ascending
    list with the same members. *)
Theorem C2_seed_bitset_roundtrip (T : Z) (S : list Z) :
  1 ≤ T ≤ 300 → Forall (λ x, 0 ≤ x < T) S →
  ∃ out : list Z,
    decodeSeedBitset (Int T) (encodeSeedBitset (Int T) (Int <$> S))
    = Some out
    ∧ StronglySorted Z.lt out
    ∧ ∀ x : Z, x ∈ out ↔ x ∈ S.
Proof.
  intros HT HS.
  destruct (decode_encode_seeds T (Int <$> S) HT)
    as (out & Hout & Hsorted & Hmem).
  exists out. split_and!; [done | done |].
  intros x. rewrite Hmem, is_seed_Int.
  rewrite Forall_forall in HS.
  split; [tauto |]. intros Hx. split; [| done]. by apply HS.
Qed.

Lemma C2_seed_bitset_roundtrip_witness :
  ∃ out : list Z,
    decodeSeedBitset (Int 300)
      (encodeSeedBitset (Int 300) (Int <$> [299; 5; 0; 17; 5]))
    = Some out
    ∧ StronglySorted Z.lt out
    ∧ ∀ x : Z, x ∈ out ↔ x ∈ [299; 5; 0; 17; 5].
Proof.
  apply (C2_seed_bitset_roundtrip 300 [299; 5; 0; 17; 5]); [lia |].
  repeat (apply Forall_cons_2; [lia |]). apply Forall_nil_2.
Defined.

(** The encoding of the empty seed set decodes to the empty list. *)
Lemma empty_seed_roundtrip (T : Z) :
  1 ≤ T ≤ 300 →
  decodeSeedBitset (Int T) (encodeSeedBitset (Int T) []) = Some [].
Proof.
  intros HT.
  destruct (decode_encode_seeds T [] HT) as (out & Hout & _ & Hmem).
  rewrite Hout. f_equal.
  destruct out as [|x out]; [done |].
  assert (x ∈ x :: out) as [_ (q & Hq & _)]%Hmem by left.
  by apply not_elem_of_nil in Hq.
Qed.

End CodecFacts.

(** ** The shareable query string *)

Module UrlFacts.
Import Base64 UrlState CodecSpec EngineSpec JSFacts Base64Facts CodecFacts.

Lemma string_of_list_ascii_app (l1 l2 : list ascii) :
  string_of_list_ascii (l1 ++ l2)
  = string_of_list_ascii l1 +:+ string_of_list_ascii l2.
Proof. induction l1 as [|c l1 IH]; simpl; [done | by rewrite IH]. Qed.

Lemma encode_unreserved (l : list ascii) :
  Forall (λ c, is_unreserved c = true) l → mbind encode_byte l = l.
Proof.
  induction 1 as [|c l Hc _ IH]; [done |].
  rewrite bind_cons, IH. unfold encode_byte. by rewrite Hc.
Qed.

(** The decimal digits of the clamped fields need no escaping. *)
Lemma encode_int_table :
  Forall (λ z, encode_component (String_of_int z)
               = list_ascii_of_string (String_of_int z)) (seqZ 0 5001).
Proof. decide_closed. Qed.

Lemma encode_int (z : Z) :
  0 ≤ z ≤ 5000 →
  encode_component (String_of_int z) = list_ascii_of_string (String_of_int z).
Proof.
  intros Hz. pose proof encode_int_table as Htab.
  rewrite Forall_forall in Htab. apply Htab, elem_of_seqZ. lia.
Qed.

Lemma url_char_unreserved_table :
  Forall (λ v, is_unreserved (to_url (b64_char v)) = true) (seqZ 0 64).
Proof. decide_closed. Qed.

(** Neither does the seed bitset. *)
Lemma encode_seed (T : number) (seeds : list number) :
  encode_component (encodeSeedBitset T seeds)
  = list_ascii_of_string (encodeSeedBitset T seeds).
Proof.
  unfold encodeSeedBitset, encode_component.
  assert (1 ≤ clampInt T 1 300 ≤ 300) as HT
    by (apply clampInt_bounds; lia).
  destruct (packBits_spec (clampInt T 1 300)
              (uniqSortedIndices seeds (clampInt T 1 300))) as [Hbytes _];
    [lia | |].
  { apply Forall_forall. by intros x [? _]%elem_of_uniqSortedIndices. }
  destruct (base64UrlEncode_groups _ Hbytes) as (vs & Henc & Hvs & _).
  rewrite Henc. apply encode_unreserved.
  apply Forall_fmap, Forall_fmap.
  eapply Forall_impl; [exact Hvs |]. intros v Hv. cbv beta in *.
  unfold compose.
  pose proof url_char_unreserved_table as Htab.
  rewrite Forall_forall in Htab. apply Htab, elem_of_seqZ. lia.
Qed.

Lemma params_five (R W G D E : string) :
  params_set "s" E
    (params_set "d" D
       (params_set "g" G (params_set "w" W (params_set "r" R []))))
  = [("r", R); ("w", W); ("g", G); ("d", D); ("s", E)].
Proof. reflexivity. Qed.

Lemma toString_five (R W G D E : string) :
  encode_component R = list_ascii_of_string R →
  encode_component W = list_ascii_of_string W →
  encode_component G = list_ascii_of_string G →
  encode_component D = list_ascii_of_string D →
  encode_component E = list_ascii_of_string E →
  params_toString [("r", R); ("w", W); ("g", G); ("d", D); ("s", E)]
  = "r=" +:+ R +:+ "&w=" +:+ W +:+ "&g=" +:+ G +:+ "&d=" +:+ D
      +:+ "&s=" +:+ E.
Proof.
  intros HR HW HG HD HE. unfold params_toString.
  change (join_pairs [("r", R); ("w", W); ("g", G); ("d", D); ("s", E)])
    with ("r"%char :: "="%char :: encode_component R
          ++ "&"%char :: "w"%char :: "="%char :: encode_component W
          ++ "&"%char :: "g"%char :: "="%char :: encode_component G
          ++ "&"%char :: "d"%char :: "="%char :: encode_component D
          ++ "&"%char :: "s"%char :: "="%char :: encode_component E).
  rewrite HR, HW, HG, HD, HE. simpl.
  repeat (rewrite string_of_list_ascii_app; simpl).
  by rewrite !string_of_list_ascii_of_string.
Qed.

(** C8. [buildShareableSearch] writes the clamped fields: the query
    string is [?r=..&w=..&g=..&d=..&s=..] with [r], [w], [g], [d] the
    fields floored and clamped into [0,255], [1,300], [1,500] and
    [10,5000]; the out-of-range example gives 255, 1, 500 and 10. *)
Theorem C8_build_clamps (st : ShareableAutomatonState) :
  let r := clampInt (ruleDecimal st) 0 255 in
  let w := clampInt (totalItems st) 1 300 in
  let g := clampInt (generations st) 1 500 in
  let d := clampInt (delay st) 10 5000 in
  buildShareableSearch st
  = "?r=" +:+ String_of_int r +:+ "&w=" +:+ String_of_int w
      +:+ "&g=" +:+ String_of_int g +:+ "&d=" +:+ String_of_int d
      +:+ "&s=" +:+ encodeSeedBitset (totalItems st) (seedIndices st)
  ∧ 0 ≤ r ≤ 255 ∧ 1 ≤ w ≤ 300 ∧ 1 ≤ g ≤ 500 ∧ 10 ≤ d ≤ 5000
  ∧ buildShareableSearch
      {| ruleDecimal := Int 999; totalItems := Int 0;
         generations := Int 99999; delay := Int 1; seedIndices := [] |}
    = "?r=255&w=1&g=500&d=10&s=AA".
Proof.
  intros r w g d.
  assert (0 ≤ clampInt (ruleDecimal st) 0 255 ≤ 255) as Hr
    by (apply clampInt_bounds; lia).
  assert (1 ≤ clampInt (totalItems st) 1 300 ≤ 300) as Hw
    by (apply clampInt_bounds; lia).
  assert (1 ≤ clampInt (generations st) 1 500 ≤ 500) as Hg
    by (apply clampInt_bounds; lia).
  assert (10 ≤ clampInt (delay st) 10 5000 ≤ 5000) as Hd
    by (apply clampInt_bounds; lia).
  fold r in Hr. fold w in Hw. fold g in Hg. fold d in Hd.
  split; [| repeat split; try lia; by vm_compute].
  unfold buildShareableSearch. fold r w g d.
  rewrite params_five.
  rewrite toString_five;
    [| apply encode_int; lia | apply encode_int; lia | apply encode_int; lia
     | apply encode_int; lia | apply encode_seed].
  done.
Qed.

(** *** Reading a location *)

Section Location.

Variable URLSearchParams : string → params.
Variable Number : string → number.

Lemma parseIntParam_missing (p : params) (key : string) (fallback : Z) :
  params_get p key = None → parseIntParam Number p key fallback = fallback.
Proof. intros Hnone. unfold parseIntParam. by rewrite Hnone. Qed.

Lemma parseIntParam_finite (p : params) (key raw : string) (fallback : Z)
    (q : Q) :
  params_get p key = Some raw → Number raw = Finite q →
  parseIntParam Number p key fallback = Qfloor q.
Proof. intros Hraw Hq. unfold parseIntParam. by rewrite Hraw, Hq. Qed.

Lemma clampInt_Int_spec (z lo hi : Z) :
  clampInt (Int z) lo hi = Z.max lo (Z.min hi z).
Proof. unfold clampInt, Int. by rewrite Qfloor_Z. Qed.

(** C5. [parseShareableStateFromLocation] always returns the four
    numeric fields, each inside its bound: the default (22, 118, 100,
    10) when the parameter is missing, the floored and clamped number
    when the parameter is one.  [seedIndices] is in the result exactly
    when [s] is present and decodes against the resolved [totalItems],
    and it is then the decoded list; in particular the encoding of the
    empty seed set gives [seedIndices = []], while an absent or
    undecodable [s] leaves the field out. *)
Theorem C5_parse_location (search : string) :
  let p := URLSearchParams search in
  let st := parseShareableStateFromLocation URLSearchParams Number search in
  ∃ r w g d : Z,
    (p_ruleDecimal st = Some r ∧ p_totalItems st = Some w
     ∧ p_generations st = Some g ∧ p_delay st = Some d)
    ∧ (0 ≤ r ≤ 255 ∧ 1 ≤ w ≤ 300 ∧ 1 ≤ g ≤ 500 ∧ 10 ≤ d ≤ 5000)
    ∧ ((params_get p "r" = None → r = 22)
       ∧ (params_get p "w" = None → w = 118)
       ∧ (params_get p "g" = None → g = 100)
       ∧ (params_get p "d" = None → d = 10))
    ∧ (∀ raw q, Number raw = Finite q →
         (params_get p "r" = Some raw → r = Z.max 0 (Z.min 255 (Qfloor q)))
         ∧ (params_get p "w" = Some raw → w = Z.max 1 (Z.min 300 (Qfloor q)))
         ∧ (params_get p "g" = Some raw → g = Z.max 1 (Z.min 500 (Qfloor q)))
         ∧ (params_get p "d" = Some raw
            → d = Z.max 10 (Z.min 5000 (Qfloor q))))
    ∧ (∀ l : list Z,
         p_seedIndices st = Some l
         ↔ ∃ enc, params_get p "s" = Some enc
                  ∧ decodeSeedBitset (Int w) enc = Some l)
    ∧ (p_seedIndices st = None
       ↔ params_get p "s" = None
         ∨ ∃ enc, params_get p "s" = Some enc
                  ∧ decodeSeedBitset (Int w) enc = None)
    ∧ (params_get p "s" = Some (encodeSeedBitset (Int w) [])
       → p_seedIndices st = Some []).
Proof.
  intros p st.
  exists (clampInt (Int (parseIntParam Number p "r" 22)) 0 255),
         (clampInt (Int (parseIntParam Number p "w" 118)) 1 300),
         (clampInt (Int (parseIntParam Number p "g" 100)) 1 500),
         (clampInt (Int (parseIntParam Number p "d" 10)) 10 5000).
  assert (1 ≤ clampInt (Int (parseIntParam Number p "w" 118)) 1 300 ≤ 300)
    as Hw by (apply clampInt_bounds; lia).
  split; [done |].
  split; [split_and!; apply clampInt_bounds; lia |].
  split.
  { split_and!; intros Hnone; rewrite parseIntParam_missing by done;
      by vm_compute. }
  split.
  { intros raw q Hq. split_and!; intros Hraw;
      rewrite (parseIntParam_finite _ _ raw _ q) by done;
      apply clampInt_Int_spec. }
  unfold st, parseShareableStateFromLocation; simpl. fold p.
  destruct (params_get p "s") as [enc|] eqn:Hs.
  - split_and!.
    + intros l. split; [by exists enc |]. by intros (? & [= <-] & ?).
    + split; [intros Hnone; right; by exists enc |].
      intros [? | (? & [= <-] & ?)]; done.
    + intros [= ->]. by apply empty_seed_roundtrip.
  - split_and!.
    + intros l. split; [done | by intros (? & ? & _)].
    + split; [by left | done].
    + done.
Qed.

End Location.

Lemma C5_parse_location_witness :
  p_seedIndices
    (parseShareableStateFromLocation
       (λ _, [("s", "gA"); ("w", "8")]) (λ _, Int 8) "?s=gA&w=8")
  = Some [0].
Proof.
  destruct (C5_parse_location (λ _, [("s", "gA"); ("w", "8")])
              (λ _, Int 8) "?s=gA&w=8")
    as (r & w & g & d & (_ & Hw & _) & _ & _ & _ & Hseed & _).
  injection Hw as <-. apply Hseed. by exists "gA".
Defined.

End UrlFacts.

(** ** The starred-configuration store *)

Module StarredFacts.
Import Starred StarredSpec JSFacts.

(** *** Properties of entries *)

Lemma prop_cons (k key : string) (v : json) (rest : list (string * json)) :
  prop (JObject ((k, v) :: rest)) key
  = if decide (k = key) then Some v else prop (JObject rest) key.
Proof.
  unfold prop. simpl. case_decide; [done |].
  by destruct (list_find (λ kv, kv.1 = key) rest) as [[? [? ?]]|].
Qed.

Lemma prop_with_prop (key key' : string) (v : json)
    (fields : list (string * json)) :
  prop (JObject (with_prop key v fields)) key'
  = if decide (key = key') then Some v else prop (JObject fields) key'.
Proof.
  induction fields as [|[k w] fields IH]; cbn [with_prop].
  - rewrite prop_cons. by case_decide.
  - destruct (decide (k = key)) as [-> | Hne].
    + rewrite !prop_cons. by case_decide.
    + rewrite !prop_cons, IH.
      destruct (decide (k = key')) as [-> | Hne'];
        [by rewrite decide_False by done | done].
Qed.

Lemma valid_is_object (item : json) :
  isStarredConfig item = true →
  ∃ (fields : list (string * json)) (id s : string) (qr qc : Q),
    item = JObject fields
    ∧ prop item "id" = Some (JString id)
    ∧ prop item "search" = Some (JString s)
    ∧ prop item "ruleDecimal" = Some (JNumber (Finite qr))
    ∧ prop item "createdAt" = Some (JNumber (Finite qc)).
Proof.
  destruct item as [| | | | items | fields]; try done.
  unfold isStarredConfig. intros Hvalid.
  repeat (apply andb_true_iff in Hvalid as [Hvalid ?]).
  unfold is_string, is_finite_number in *.
  repeat match goal with
  | H : match ?x with _ => _ end = true |- _ =>
      let E := fresh "E" in destruct x as [[]|] eqn:E; try done
  | H : isFinite ?n = true |- _ => destruct n; try done; clear H
  end.
  eauto 10.
Qed.

Lemma normalized_props (item : json) :
  isStarredConfig item = true →
  isStarredConfig (normalized item) = true
  ∧ id_of (normalized item) = canonical_id item
  ∧ createdAt (normalized item) = createdAt item.
Proof.
  intros Hvalid.
  destruct (valid_is_object item Hvalid)
    as (fields & id & s & qr & qc & -> & Hid & Hs & Hr & Hc).
  unfold normalized.
  set (cid := canonical_id (JObject fields)).
  unfold isStarredConfig, id_of, createdAt.
  rewrite !prop_with_prop, Hr, Hc. done.
Qed.

(** *** The de-duplication loop *)

Lemma dedupe_step_valid (seen : gset string) (out : list json)
    (item : json) :
  isStarredConfig item = true →
  dedupe_step (seen, out) item
  = if decide (canonical_id item = EmptyString) then (seen, out)
    else if decide (canonical_id item ∈ seen) then (seen, out)
    else ({[ canonical_id item ]} ∪ seen, out ++ [normalized item]).
Proof.
  intros Hvalid.
  destruct (valid_is_object item Hvalid)
    as (fields & id & s & qr & qc & -> & Hid & Hs & Hr & Hc).
  unfold dedupe_step, normalized, canonical_id, search_of.
  by rewrite Hs.
Qed.

Lemma loop_inv_step (seen_items : list json) (seen : gset string)
    (out : list json) (item : json) :
  isStarredConfig item = true →
  loop_inv seen_items seen out →
  loop_inv (seen_items ++ [item])
    (dedupe_step (seen, out) item).1 (dedupe_step (seen, out) item).2.
Proof.
  intros Hvalid (Hout & Hnodup & Hseen & Hmet & Hfirst).
  assert (∀ o, o ∈ out →
    ∃ pre it post, seen_items ++ [item] = pre ++ it :: post
                   ∧ o = normalized it
                   ∧ ∀ x, x ∈ pre → canonical_id x ≠ id_of o) as Hfirst'.
  { intros o Ho. destruct (Hfirst o Ho) as (pre & it & post & -> & ? & ?).
    exists pre, it, (post ++ [item]).
    by rewrite <- app_assoc. }
  rewrite dedupe_step_valid by done.
  destruct (decide (canonical_id item = EmptyString)) as [Hempty | Hnonempty];
    [| destruct (decide (canonical_id item ∈ seen)) as [Hin | Hnew]];
    simpl.
  - split_and!; [done | done | done | | done].
    intros x [Hx | ->%list_elem_of_singleton]%elem_of_app Hne;
      [by apply Hmet | done].
  - split_and!; [done | done | done | | done].
    intros x [Hx | ->%list_elem_of_singleton]%elem_of_app Hne;
      [by apply Hmet | done].
  - destruct (normalized_props item Hvalid) as (Hnv & Hnid & _).
    split_and!.
    + apply Forall_app. split; [done |]. by apply Forall_singleton.
    + rewrite fmap_app. apply NoDup_app. split_and!; [done | |].
      * intros s Hs ->%list_elem_of_singleton.
        apply Hnew, Hseen. by rewrite <- Hnid.
      * apply NoDup_singleton.
    + intros s. rewrite fmap_app, elem_of_app, elem_of_union, Hseen.
      simpl. rewrite list_elem_of_singleton, elem_of_singleton, Hnid.
      tauto.
    + intros x [Hx | ->%list_elem_of_singleton]%elem_of_app Hne.
      * apply elem_of_union. right. by apply Hmet.
      * apply elem_of_union. left. by apply elem_of_singleton.
    + intros o [Ho | ->%list_elem_of_singleton]%elem_of_app;
        [by apply Hfirst' |].
      exists seen_items, item, []. split_and!; [done | done |].
      intros x Hx Heq. rewrite Hnid in Heq.
      apply Hnew. rewrite <- Heq. apply Hmet; [done |]. by rewrite Heq.
Qed.

Lemma loop_inv_fold (rest seen_items : list json) (seen : gset string)
    (out : list json) :
  Forall (λ o, isStarredConfig o = true) rest →
  loop_inv seen_items seen out →
  loop_inv (seen_items ++ rest)
    (foldl dedupe_step (seen, out) rest).1
    (foldl dedupe_step (seen, out) rest).2.
Proof.
  revert seen_items seen out.
  induction rest as [|item rest IH]; intros seen_items seen out Hrest Hinv.
  - by rewrite app_nil_r.
  - apply Forall_cons in Hrest as [Hitem Hrest].
    change (foldl dedupe_step (seen, out) (item :: rest))
      with (foldl dedupe_step (dedupe_step (seen, out) item) rest).
    replace (seen_items ++ item :: rest)
      with ((seen_items ++ [item]) ++ rest) by (by rewrite <- app_assoc).
    pose proof (loop_inv_step seen_items seen out item Hitem Hinv) as Hstep.
    destruct (dedupe_step (seen, out) item) as [seen' out'].
    by apply IH.
Qed.

Lemma loop_inv_start : loop_inv [] ∅ [].
Proof.
  split_and!; [constructor | constructor | | |].
  - intros s. split; [by intros ?%not_elem_of_empty |].
    by intros ?%not_elem_of_nil.
  - by intros x ?%not_elem_of_nil.
  - by intros o ?%not_elem_of_nil.
Qed.

(** *** Ordering *)

Lemma valid_createdAt (item : json) :
  isStarredConfig item = true → ∃ q : Q, createdAt item = Finite q.
Proof.
  intros Hvalid.
  destruct (valid_is_object item Hvalid)
    as (fields & id & s & qr & qc & -> & _ & _ & _ & Hc).
  exists qc. unfold createdAt. by rewrite Hc.
Qed.

Lemma newer_first_true (a b : json) :
  isStarredConfig a = true → isStarredConfig b = true →
  newer_first a b = true → newer_or_equal a b.
Proof.
  intros [qa Ha]%valid_createdAt [qb Hb]%valid_createdAt.
  unfold newer_first. rewrite Ha, Hb. simpl.
  intros Hle%Qle_bool_iff. exists qa, qb. split_and!; [done | done |]. lra.
Qed.

Lemma newer_first_false (a b : json) :
  isStarredConfig a = true → isStarredConfig b = true →
  newer_first a b = false → newer_or_equal b a.
Proof.
  intros [qa Ha]%valid_createdAt [qb Hb]%valid_createdAt.
  unfold newer_first. rewrite Ha, Hb. simpl. intros Hgt.
  exists qb, qa. split_and!; [done | done |].
  destruct (Qlt_le_dec (qb - qa) 0) as [Hlt | Hge]; [| lra].
  assert (Qle_bool (qb - qa) 0 = true) by (apply Qle_bool_iff; lra).
  congruence.
Qed.

Lemma newer_or_equal_trans (a b c : json) :
  newer_or_equal a b → newer_or_equal b c → newer_or_equal a c.
Proof.
  intros (qa & qb & Ha & Hb & Hab) (qb' & qc & Hb' & Hc & Hbc).
  assert (qb' = qb) as -> by congruence.
  exists qa, qc. split_and!; [done | done |]. lra.
Qed.

(** *** Loading *)

Section Loader.

Variable JSON_parse : string → option json.

(** What the loader returns for a parsed array. *)
Lemma load_array (getItem : string → option string) (parsed : list json) :
  safeJsonParse JSON_parse (getItem STORAGE_KEY) = JArray parsed →
  loadStarredConfigs JSON_parse (Some getItem)
  = take MAX_ITEMS
      (JS.sort newer_first
         (foldl dedupe_step (∅, [])
            (List.filter isStarredConfig parsed)).2).
Proof. intros Hparsed. unfold loadStarredConfigs. by rewrite Hparsed. Qed.

Lemma load_other (getItem : string → option string) :
  (∀ parsed, safeJsonParse JSON_parse (getItem STORAGE_KEY) ≠ JArray parsed) →
  loadStarredConfigs JSON_parse (Some getItem) = [].
Proof.
  intros Hother. unfold loadStarredConfigs.
  destruct (safeJsonParse JSON_parse (getItem STORAGE_KEY)); try done.
  by edestruct Hother.
Qed.

Lemma filter_valid (parsed : list json) :
  Forall (λ o, isStarredConfig o = true)
    (List.filter isStarredConfig parsed).
Proof.
  apply Forall_forall. intros o Ho%list_elem_of_In.
  by apply List.filter_In in Ho as [_ ?].
Qed.

(** C9 (as the code has it).  Whatever is persisted, the loaded list
    holds only structurally valid entries, at most one per canonical id,
    sorted newest first by [createdAt], and at most 50 of them; text
    that is not JSON gives the empty list.  Among the valid stored
    entries with one canonical id it is the first in stored order that
    is kept. *)
Theorem C9_load_starred (window : option (string → option string)) :
  let out := loadStarredConfigs JSON_parse window in
  Forall (λ o, isStarredConfig o = true) out
  ∧ NoDup (id_of <$> out)
  ∧ StronglySorted newer_or_equal out
  ∧ (length out ≤ 50)%nat
  ∧ (∀ getItem text,
       window = Some getItem → getItem STORAGE_KEY = Some text →
       JSON_parse text = None → out = [])
  ∧ (∀ getItem parsed,
       window = Some getItem →
       safeJsonParse JSON_parse (getItem STORAGE_KEY) = JArray parsed →
       ∀ o : json, o ∈ out →
         ∃ (pre : list json) (item : json) (post : list json),
           List.filter isStarredConfig parsed = pre ++ item :: post
           ∧ o = normalized item
           ∧ ∀ x : json, x ∈ pre → canonical_id x ≠ id_of o).
Proof.
  intros out.
  assert (∀ getItem text,
    window = Some getItem → getItem STORAGE_KEY = Some text →
    JSON_parse text = None → out = []) as Hmalformed.
  { intros getItem text -> Hraw Hparse. unfold out, loadStarredConfigs.
    unfold safeJsonParse. by rewrite Hraw, Hparse. }
  assert (Forall (λ o, isStarredConfig o = true) []
          ∧ NoDup (id_of <$> [])
          ∧ StronglySorted newer_or_equal []
          ∧ (length (@nil json) ≤ 50)%nat) as (? & ? & ? & ?)
    by (split_and!; [constructor | constructor | constructor | simpl; lia]).
  destruct window as [getItem|].
  2: { split_and!; [done | done | done | done | done |].
       intros ? ? [=]. }
  destruct (safeJsonParse JSON_parse (getItem STORAGE_KEY))
    as [| b | n | s | parsed | fields] eqn:Hparsed;
    try (assert (out = []) as Hnil
           by (unfold out; apply load_other; intros ?; by rewrite Hparsed);
         clearbody out; subst out;
         split_and!; [done | done | done | done | done |];
         intros ? ? _ _ o Ho; by apply not_elem_of_nil in Ho).
  unfold out. rewrite (load_array getItem parsed Hparsed).
  pose proof (loop_inv_fold (List.filter isStarredConfig parsed) [] ∅ []
                (filter_valid parsed) loop_inv_start) as Hinv.
  simpl app in Hinv.
  destruct (foldl dedupe_step (∅, []) (List.filter isStarredConfig parsed))
    as [seen loaded].
  destruct Hinv as (Hvalid & Hnodup & _ & _ & Hfirst).
  simpl in Hvalid, Hnodup, Hfirst.
  assert (Forall (λ o, isStarredConfig o = true)
            (JS.sort newer_first loaded)) as Hsorted_valid
    by (by rewrite sort_perm).
  split_and!.
  - by apply Forall_take.
  - rewrite fmap_take.
    apply (sublist_NoDup _ (id_of <$> JS.sort newer_first loaded));
      [by rewrite sort_perm | apply sublist_take].
  - eapply StronglySorted_app_1_l. rewrite take_drop.
    apply (sort_sorted newer_first (λ o, isStarredConfig o = true));
      [apply newer_first_true | apply newer_first_false
       | apply newer_or_equal_trans | done].
  - rewrite length_take. unfold MAX_ITEMS. lia.
  - intros getItem' text [= <-] Hraw Hparse.
    unfold safeJsonParse in Hparsed. by rewrite Hraw, Hparse in Hparsed.
  - intros getItem' parsed' [= <-] Hparsed' o Ho.
    assert (parsed' = parsed) as -> by congruence.
    apply Hfirst. apply subseteq_take in Ho. by rewrite sort_perm in Ho.
Qed.

End Loader.

Lemma C9_load_starred_witness :
  ∃ (pre : list json) (item : json) (post : list json),
    List.filter isStarredConfig
      [entry "a" 22 1; JNull; entry "?a" 30 7; entry "?b" 90 3]
    = pre ++ item :: post
    ∧ entry "?b" 90 3 = normalized item
    ∧ ∀ x : json, x ∈ pre → canonical_id x ≠ id_of (entry "?b" 90 3).
Proof.
  pose (stored :=
    JArray [entry "a" 22 1; JNull; entry "?a" 30 7; entry "?b" 90 3]).
  destruct (C9_load_starred (λ _, Some stored) (Some (λ _, Some "[]")))
    as (_ & _ & _ & _ & _ & Hfirst).
  apply (Hfirst (λ _, Some "[]")); [done | done |].
  vm_compute. left.
Defined.

(** "The most recent [createdAt] wins among duplicates" does not hold
    when the older duplicate is stored first: the entry created at 1 is
    kept and the one created at 2 is dropped. *)
Lemma C9_first_wins_counterexample :
  loadStarredConfigs (λ _, Some (JArray [entry "?a" 22 1; entry "?a" 22 2]))
    (Some (λ _, Some "[]"))
  = [entry "?a" 22 1]
  ∧ canonical_id (entry "?a" 22 1) = canonical_id (entry "?a" 22 2)
  ∧ createdAt (entry "?a" 22 1) = Int 1
  ∧ createdAt (entry "?a" 22 2) = Int 2.
Proof. by vm_compute. Qed.

End StarredFacts.

(** ** More on the engine *)

Module EngineMore.
Import Engine EngineSpec EngineMoreSpec JSFacts EngineFacts.

(** *** Rows stay binary *)

Lemma band_one_cell (x : Z) : is_cell (band x 1).
Proof.
  unfold band, is_cell. change (ToInt32 1) with (Z.ones 1).
  rewrite Z.land_ones by lia.
  pose proof (Z.mod_pos_bound (ToInt32 x) (2 ^ 1)). lia.
Qed.

(** X1. Whatever the rule number and the row, one step gives a row of
    the same length whose cells are all 0 or 1. *)
Theorem X1_step_keeps_rows_binary (o : Options) (st : State) :
  length (blocks (tick o st)) = length (blocks st)
  ∧ Forall is_cell (blocks (tick o st)).
Proof.
  rewrite blocks_tick.
  split; [apply length_nextBlocks |].
  apply Forall_lookup. intros i c Hc.
  assert (i < length (blocks st))%nat as Hi.
  { apply lookup_lt_Some in Hc. by rewrite length_nextBlocks in Hc. }
  rewrite lookup_nextBlocks in Hc by done. injection Hc as <-.
  unfold nextCell. rewrite decide_False by lia.
  apply band_one_cell.
Qed.

(** *** The histories *)

Lemma set_after_take {A} (l : list (option A)) (n : nat) (v : A) :
  length l = n → JS.set (take n l) n v = l ++ [Some v].
Proof.
  intros <-. rewrite firstn_all. apply set_at_end.
Qed.

Lemma histories_ok_start (draws : nat → nat) (o : Options) :
  histories_ok (clampRuleDecimal (ruleDecimal o)) (hookBoundary o)
    (blocks (start draws o)) (start draws o).
Proof.
  unfold histories_ok, start, seeded; simpl.
  split_and!; [lia | done | done | done |].
  intros [|k] Hk; [done | lia].
Qed.

Lemma histories_ok_tick (o : Options) (seed : row) (st : State) :
  histories_ok (clampRuleDecimal (ruleDecimal o)) (hookBoundary o) seed st →
  histories_ok (clampRuleDecimal (ruleDecimal o)) (hookBoundary o) seed
    (tick o st).
Proof.
  intros (Hgen & Hlb & Hlo & Hblocks & Hent).
  assert (Z.to_nat (generation st + 1) = S (Z.to_nat (generation st)))
    as Hnext by lia.
  unfold histories_ok, tick; simpl. rewrite Hnext.
  rewrite !set_after_take by done.
  assert (nextBlocks (clampRuleDecimal (ruleDecimal o)) (hookBoundary o)
            (blocks st)
          = row_at (clampRuleDecimal (ruleDecimal o)) (hookBoundary o) seed
              (S (Z.to_nat (generation st)))) as Hrow
    by (by rewrite Hblocks).
  split_and!; [lia | rewrite length_app; simpl; lia
              | rewrite length_app; simpl; lia | done |].
  intros k Hk.
  destruct (decide (k = S (Z.to_nat (generation st)))) as [-> | Hne].
  - rewrite !lookup_app_r by lia. rewrite Hlb, Hlo, Nat.sub_diag. simpl.
    rewrite Hrow. split; [| done]. do 3 f_equal. lia.
  - rewrite !lookup_app_l by lia. apply Hent. lia.
Qed.

Lemma histories_ok_rtc (o : Options) (seed : row) (st st' : State) :
  histories_ok (clampRuleDecimal (ruleDecimal o)) (hookBoundary o) seed st →
  rtc (step o) st st' →
  histories_ok (clampRuleDecimal (ruleDecimal o)) (hookBoundary o) seed st'.
Proof.
  intros Hok Hsteps. induction Hsteps as [st | st st' st'' Hstep _ IH];
    [done |].
  apply IH. destruct Hstep. by apply histories_ok_tick.
Qed.

(** X2. In every state that the clock reaches from [start], both
    histories have one entry per generation [0 .. generation]: entry [k]
    of [blocksHistory] is the seed row after [k] applications of the
    rule, entry [k] of [onesHistory] is the number of ones of that row,
    and the current row is the last entry. *)
Theorem X2_histories_track_the_run (draws : nat → nat) (o : Options)
    (st : State) :
  rtc (step o) (start draws o) st →
  histories_ok (clampRuleDecimal (ruleDecimal o)) (hookBoundary o)
    (blocks (start draws o)) st.
Proof.
  intros Hsteps.
  eapply histories_ok_rtc; [apply histories_ok_start | done].
Qed.

Lemma X2_histories_track_the_run_witness :
  histories_ok (clampRuleDecimal (ruleDecimal five_generations))
    (hookBoundary five_generations)
    (blocks (start (λ _, O) five_generations))
    (tick five_generations (start (λ _, O) five_generations)).
Proof.
  apply (X2_histories_track_the_run (λ _, O) five_generations).
  eapply rtc_l; [| apply rtc_refl]. by apply step_tick.
Defined.

(** *** Counting the ones of generation 0 *)

Lemma foldl_add_acc (a : Z) (l : list Z) :
  foldl Z.add a l = a + foldl Z.add 0 l.
Proof.
  revert a. induction l as [|x l IH]; intros a; cbn [foldl]; [lia |].
  rewrite (IH (a + x)), (IH (0 + x)). lia.
Qed.

Lemma countOnes_cons (x : Z) (l : row) :
  countOnes (x :: l) = x + countOnes l.
Proof. unfold countOnes. cbn [foldl]. apply foldl_add_acc. Qed.

Lemma countOnes_cells (r : row) :
  Forall is_cell r → countOnes r = Z.of_nat (ones r).
Proof.
  unfold ones. induction 1 as [|c r Hc _ IH]; [done |].
  rewrite countOnes_cons, IH.
  destruct Hc as [-> | ->].
  - rewrite filter_cons_False by done. lia.
  - rewrite filter_cons_True by done. simpl. lia.
Qed.

(** The row with ones at the positions [ps], all inside the row. *)
Lemma markOnes_zeros (T : Z) (ps : list Z) :
  Forall (λ p, 0 ≤ p < T) ps →
  markOnes (from_length T (λ _, 0)) ps
  = (λ i, if decide (i ∈ ps) then 1 else 0) <$> seqZ 0 T.
Proof.
  intros Hps. apply list_eq. intros i.
  destruct (decide (Z.of_nat i < T)) as [Hi | Hi].
  - rewrite list_lookup_fmap, lookup_seqZ_lt by done. simpl.
    case_decide as Hin.
    + apply markOnes_in; [rewrite length_from_length; lia | done].
    + rewrite markOnes_notin; [| | done].
      * by rewrite lookup_from_length.
      * eapply Forall_impl; [exact Hps |]. intros p Hp. simpl in Hp. lia.
  - rewrite list_lookup_fmap, lookup_seqZ_ge by lia. simpl.
    apply lookup_ge_None. rewrite length_markOnes, length_from_length. lia.
Qed.

Lemma indicator_cells (P : Z → Prop) `{∀ x, Decision (P x)} (l : list Z) :
  Forall is_cell ((λ i, if decide (P i) then 1 else 0) <$> l)
  ∧ ones ((λ i, if decide (P i) then 1 else 0) <$> l)
    = length (filter P l).
Proof.
  unfold ones. induction l as [|x l [IHc IHo]]; [by split; [constructor |] |].
  rewrite fmap_cons. destruct (decide (P x)) as [Hx | Hx].
  - rewrite (filter_cons_True (λ c : Z, c = 1)) by done.
    rewrite (filter_cons_True P) by done.
    split; [apply Forall_cons_2; [by right | done] | simpl; by rewrite IHo].
  - rewrite (filter_cons_False (λ c : Z, c = 1)) by done.
    rewrite (filter_cons_False P) by done.
    split; [apply Forall_cons_2; [by left | done] | done].
Qed.

(** A row marked at distinct positions inside it has that many ones. *)
Lemma markOnes_count (T : Z) (ps : list Z) :
  Forall (λ p, 0 ≤ p < T) ps → NoDup ps →
  let r := markOnes (from_length T (λ _, 0)) ps in
  length r = Z.to_nat T
  ∧ Forall is_cell r
  ∧ countOnes r = Z.of_nat (length ps).
Proof.
  intros Hps Hnodup r.
  split; [unfold r; by rewrite length_markOnes, length_from_length |].
  unfold r. rewrite markOnes_zeros by done.
  destruct (indicator_cells (λ i, i ∈ ps) (seqZ 0 T)) as [Hcells Hones].
  split; [done |].
  rewrite countOnes_cells, Hones by done. f_equal.
  apply Permutation_length, NoDup_Permutation;
    [apply NoDup_filter, NoDup_seqZ | done |].
  intros x. rewrite list_elem_of_filter, elem_of_seqZ.
  rewrite Forall_forall in Hps. split; [tauto |].
  intros Hx. pose proof (Hps x Hx). split; [done | lia].
Qed.

(** The shuffle rearranges. *)
Lemma swap_perm (i j : nat) (a : list Z) : swap i j a ≡ₚ a.
Proof.
  unfold swap.
  destruct (a !! i) as [x|] eqn:Hi; [| done].
  destruct (a !! j) as [y|] eqn:Hj; [| done].
  apply Permutation_inj. split; [by rewrite !length_insert |].
  pose proof (lookup_lt_Some _ _ _ Hi) as Hli.
  pose proof (lookup_lt_Some _ _ _ Hj) as Hlj.
  exists (λ n, if decide (n = i) then j else if decide (n = j) then i else n).
  split.
  - intros n m Hnm. repeat case_decide; congruence.
  - intros n. cbv beta. destruct (decide (n = j)) as [-> | Hnj].
    + rewrite list_lookup_insert_eq by (by rewrite length_insert).
      case_decide; [congruence | done].
    + rewrite list_lookup_insert_ne by done.
      case_decide as Hni.
      * subst n. by rewrite list_lookup_insert_eq.
      * by rewrite list_lookup_insert_ne.
Qed.

Lemma shuffle_perm (draws : nat → nat) (i : nat) (indices : list Z) :
  shuffle draws i indices ≡ₚ indices.
Proof.
  revert indices. induction i as [|i IH]; intros indices; simpl; [done |].
  by rewrite IH, swap_perm.
Qed.

(** Any number of leading shuffled indices are distinct positions of
    the row. *)
Lemma shuffled_prefix (draws : nat → nat) (T : Z) (i n : nat) :
  let ps := take n (shuffle draws i (from_length T (λ i, i))) in
  Forall (λ p, 0 ≤ p < T) ps ∧ NoDup ps
  ∧ length ps = (n `min` Z.to_nat T)%nat.
Proof.
  intros ps.
  assert (from_length T (λ i : Z, i) = seqZ 0 T) as Hid
    by (unfold from_length; apply list_fmap_id).
  pose proof (shuffle_perm draws i (seqZ 0 T)) as Hperm.
  subst ps. rewrite Hid.
  split_and!.
  - apply Forall_take. rewrite Hperm.
    apply Forall_forall. intros x Hx%elem_of_seqZ. lia.
  - eapply sublist_NoDup; [| apply sublist_take].
    rewrite Hperm. apply NoDup_seqZ.
  - rewrite length_take, Hperm, length_seqZ. done.
Qed.

Lemma seedCount_bounds (T : Z) (ones : number) :
  0 ≤ default 0 (seedCount T ones) ≤ Z.max 0 T.
Proof. destruct ones; simpl; lia. Qed.

Lemma countOnes_zeros (T : Z) : countOnes (from_length T (λ _, 0)) = 0.
Proof.
  unfold from_length. induction (seqZ 0 T) as [|x l IH]; [done |].
  rewrite fmap_cons, countOnes_cons, IH. done.
Qed.

Lemma zeros_cells (T : Z) : Forall is_cell (from_length T (λ _, 0)).
Proof.
  unfold from_length. apply Forall_fmap, Forall_forall. intros x _. by left.
Qed.

(** The row of the random branch, whatever the random draws. *)
Lemma random_row (draws : nat → nat) (T : Z) (ones : number) :
  let r := if decide (T = 0) then from_length T (λ _, 0)
           else if decide (seedCount T ones = Some 0)
                then from_length T (λ _, 0)
                else markOnes (from_length T (λ _, 0))
                       (take (Z.to_nat (default 0 (seedCount T ones)))
                          (shuffle draws
                             (length (from_length T (λ i, i)) - 1)
                             (from_length T (λ i, i)))) in
  length r = Z.to_nat T
  ∧ Forall is_cell r
  ∧ countOnes r = default 0 (seedCount T ones).
Proof.
  intros r. subst r.
  pose proof (seedCount_bounds T ones) as Hn.
  destruct (decide (T = 0)) as [-> | HT].
  { split_and!; [apply length_from_length | apply zeros_cells |].
    rewrite countOnes_zeros. lia. }
  destruct (decide (seedCount T ones = Some 0)) as [Hzero | Hpos].
  { split_and!; [apply length_from_length | apply zeros_cells |].
    by rewrite countOnes_zeros, Hzero. }
  destruct (shuffled_prefix draws T
              (length (from_length T (λ i, i)) - 1)
              (Z.to_nat (default 0 (seedCount T ones))))
    as (Hrange & Hnodup & Hlen).
  destruct (markOnes_count T _ Hrange Hnodup) as (Hl & Hc & Hcount).
  split_and!; [done | done |].
  rewrite Hcount, Hlen. lia.
Qed.

(** X3. Without explicit seeds and with a zero fill, generation 0 has
    [totalItems] binary cells of which exactly
    [max(0, min(totalItems, floor(initialOnes)))] hold 1 (none when
    [initialOnes] is [NaN]), whatever the random draws. *)
Theorem X3_random_seed_count (draws : nat → nat) (T : Z) (ones : number)
    (bv : option Z) (seeds : option (list number)) :
  default 0 bv = 0 → seeds = None ∨ seeds = Some [] →
  let r := makeInitialValues draws T ones bv seeds in
  length r = Z.to_nat T
  ∧ Forall is_cell r
  ∧ countOnes r = default 0 (seedCount T ones).
Proof.
  intros Hbv Hseeds r.
  assert (r = if decide (T = 0) then from_length T (λ _, 0)
              else if decide (seedCount T ones = Some 0)
                   then from_length T (λ _, 0)
                   else markOnes (from_length T (λ _, 0))
                          (take (Z.to_nat (default 0 (seedCount T ones)))
                             (shuffle draws
                                (length (from_length T (λ i, i)) - 1)
                                (from_length T (λ i, i))))) as ->.
  { unfold r, makeInitialValues. rewrite Hbv.
    by destruct Hseeds as [-> | ->]. }
  apply random_row.
Qed.

Lemma X3_random_seed_count_witness :
  let r := makeInitialValues (λ i, i * 7)%nat 10 (Finite (7 # 2)) None None in
  length r = 10%nat
  ∧ Forall is_cell r
  ∧ countOnes r = 3.
Proof.
  apply (X3_random_seed_count (λ i, i * 7)%nat 10 (Finite (7 # 2)) None None);
    [done | by left].
Defined.

Lemma NoDup_collectSeeds (T : Z) (seeds : list number) :
  NoDup (collectSeeds T seeds).
Proof.
  unfold collectSeeds.
  assert (∀ acc, NoDup acc →
    NoDup (foldl (λ s idx,
                    match idx with
                    | Finite q =>
                        let i := Qfloor q in
                        if decide (i < 0 ∨ T ≤ i) then s else set_add s i
                    | _ => s
                    end) acc seeds)) as Hfold.
  { induction seeds as [|idx seeds IH]; intros acc Hacc; simpl; [done |].
    apply IH. destruct idx; try done. simpl.
    case_decide; [done | by apply NoDup_set_add]. }
  apply Hfold. constructor.
Qed.

(** X4. With explicit seeds and a zero fill, the number of ones of
    generation 0 is the number of entries of the normalized seed list:
    the distinct floored seeds inside the row. *)
Theorem X4_explicit_seed_count (draws : nat → nat) (T : Z) (ones : number)
    (bv : option Z) (seeds : list number) :
  default 0 bv = 0 → seeds ≠ [] →
  let r := makeInitialValues draws T ones bv (Some seeds) in
  Forall is_cell r
  ∧ countOnes r = Z.of_nat (length (UrlState.uniqSortedIndices seeds T)).
Proof.
  intros Hbv Hne r. destruct seeds as [|idx rest]; [done |].
  unfold r. rewrite makeInitialValues_explicit, Hbv.
  destruct (markOnes_count T (collectSeeds T (idx :: rest)))
    as (_ & Hcells & Hcount).
  - apply Forall_forall. by intros x [? _]%elem_of_collectSeeds.
  - apply NoDup_collectSeeds.
  - split; [done |]. rewrite Hcount. f_equal.
    unfold UrlState.uniqSortedIndices. by rewrite sort_perm.
Qed.

Lemma X4_explicit_seed_count_witness :
  let seeds := [Int 2; Finite (5 # 2); Int 9; NaN; Int 0] in
  let r := makeInitialValues (λ _, O) 4 (Int 1) None (Some seeds) in
  Forall is_cell r
  ∧ countOnes r = Z.of_nat (length (UrlState.uniqSortedIndices seeds 4)).
Proof.
  apply (X4_explicit_seed_count (λ _, O) 4 (Int 1) None
           [Int 2; Finite (5 # 2); Int 9; NaN; Int 0]); done.
Defined.

(** Marking depends on the set of positions only. *)
Lemma markOnes_ext (values : row) (ps1 ps2 : list Z) :
  Forall (λ p, 0 ≤ p) ps1 → Forall (λ p, 0 ≤ p) ps2 →
  (∀ x, x ∈ ps1 ↔ x ∈ ps2) →
  markOnes values ps1 = markOnes values ps2.
Proof.
  intros Hpos1 Hpos2 Hmem. apply list_eq. intros i.
  destruct (decide (i < length values)%nat) as [Hi | Hi].
  - destruct (decide (Z.of_nat i ∈ ps1)) as [Hin | Hin].
    + rewrite !markOnes_in; [done | done | by apply Hmem | done | done].
    + rewrite !markOnes_notin; [done | done | by rewrite <- Hmem | done | done].
  - rewrite !(lookup_ge_None_2 (markOnes _ _));
      [done | rewrite length_markOnes; lia ..].
Qed.

(** X12. Generation 0 built from the normalized seed list (what a
    shared link carries) is generation 0 built from the original seed
    list, junk included, as long as one seed falls inside the row. *)
Theorem X12_normalized_seeds_same_row (draws : nat → nat) (T : Z)
    (ones : number) (bv : option Z) (seeds : list number) :
  UrlState.uniqSortedIndices seeds T ≠ [] →
  makeInitialValues draws T ones bv
    (Some (Int <$> UrlState.uniqSortedIndices seeds T))
  = makeInitialValues draws T ones bv (Some seeds).
Proof.
  intros Hne.
  destruct seeds as [|idx rest]; [done |].
  destruct (UrlState.uniqSortedIndices (idx :: rest) T) as [|x xs] eqn:Huniq;
    [done |].
  rewrite fmap_cons, !makeInitialValues_explicit.
  change (Int x :: (Int <$> xs)) with (Int <$> x :: xs). rewrite <- Huniq.
  apply markOnes_ext.
  - apply Forall_forall. by intros y [[? ?] _]%elem_of_collectSeeds.
  - apply Forall_forall. by intros y [[? ?] _]%elem_of_collectSeeds.
  - intros y. rewrite !elem_of_collectSeeds, CodecFacts.is_seed_Int.
    rewrite CodecFacts.elem_of_uniqSortedIndices. tauto.
Qed.

Lemma X12_normalized_seeds_same_row_witness :
  makeInitialValues (λ _, O) 4 (Int 1) None (Some [Int 0; Int 2])
  = makeInitialValues (λ _, O) 4 (Int 1) None
      (Some [Int 2; Finite (5 # 2); Int 9; NaN; Int 0]).
Proof.
  apply (X12_normalized_seeds_same_row (λ _, O) 4 (Int 1) None
           [Int 2; Finite (5 # 2); Int 9; NaN; Int 0]).
  done.
Defined.

End EngineMore.

(** ** The fixed-boundary hooks *)

Module LegacyFacts.
Import Engine EngineSpec LegacySpec JSFacts EngineFacts.

Lemma lookup_legacy (rule bv : Z) (r : row) (i : nat) :
  (i < length r)%nat →
  LegacyEngine.nextBlocks rule bv r !! i
  = Some (LegacyEngine.nextCell rule bv r (Z.of_nat i)).
Proof.
  intros Hi. unfold LegacyEngine.nextBlocks. by apply lookup_from_length; lia.
Qed.

(** A cell is computed alike under both boundaries when the ring
    neighbour that stands in for the boundary holds the boundary value. *)
Lemma nextCell_agree (rule bv : Z) (r : row) (i : Z) :
  let n := Z.of_nat (length r) in
  0 ≤ i < n →
  (i = 0 → r !! Z.to_nat (n - 1) = Some bv) →
  (i = n - 1 → r !! 0%nat = Some bv) →
  LegacyEngine.nextCell rule bv r i = nextCell rule bv r i.
Proof.
  intros n Hi Hfirst Hlast.
  unfold LegacyEngine.nextCell, nextCell. fold n.
  rewrite (decide_False (P := n = 0)) by lia.
  rewrite !rem_mod by lia. f_equal.
  - destruct (decide (0 < i)) as [Hpos | Hzero].
    + replace ((i - 1 + n) mod n) with (i - 1)
        by (rewrite <- (Z.mul_1_l n) at 1; rewrite Z.mod_add by lia;
            by rewrite Z.mod_small by lia).
      rewrite get_lookup by lia.
      destruct (lookup_lt_is_Some_2 r (Z.to_nat (i - 1))) as [x ->];
        [lia | done].
    + assert (i = 0) as -> by lia.
      replace ((0 - 1 + n) mod n) with (n - 1)
        by (apply (Z.mod_unique_pos _ _ 0); lia).
      rewrite get_lookup by lia. by rewrite Hfirst.
  - destruct (decide (i < n - 1)) as [Hin | Hend].
    + rewrite (Z.mod_small (i + 1)) by lia.
      rewrite get_lookup by lia.
      destruct (lookup_lt_is_Some_2 r (Z.to_nat (i + 1))) as [x ->];
        [lia | done].
    + assert (i = n - 1) as -> by lia.
      replace ((n - 1 + 1) mod n) with 0
        by (apply (Z.mod_unique_pos _ _ 1); lia).
      rewrite get_lookup by lia. change (Z.to_nat 0) with 0%nat.
      by rewrite Hlast.
Qed.

(** X5. The fixed-boundary step of the first hook and the ring step
    give the same value to every cell that is not at an end of the row;
    when the first and the last cell hold the boundary value they give
    the same row. *)
Theorem X5_fixed_boundary_against_ring (rule bv : Z) (r : row) :
  let n := Z.of_nat (length r) in
  (∀ i : Z, 0 < i < n - 1 →
     LegacyEngine.nextBlocks rule bv r !! Z.to_nat i
     = nextBlocks rule bv r !! Z.to_nat i)
  ∧ (r !! 0%nat = Some bv → r !! Z.to_nat (n - 1) = Some bv →
     LegacyEngine.nextBlocks rule bv r = nextBlocks rule bv r).
Proof.
  intros n. split.
  - intros i Hi.
    rewrite lookup_legacy, lookup_nextBlocks by lia. f_equal.
    rewrite Z2Nat.id by lia. apply nextCell_agree; [lia | lia | lia].
  - intros Hfirst Hlast. apply list_eq. intros i.
    destruct (decide (i < length r)%nat) as [Hi | Hi].
    + rewrite lookup_legacy, lookup_nextBlocks by lia. f_equal.
      apply nextCell_agree; [lia | done | done].
    + rewrite !(proj2 (lookup_ge_None _ _)); [done | |].
      * rewrite length_nextBlocks. lia.
      * unfold LegacyEngine.nextBlocks. rewrite length_from_length. lia.
Qed.

Lemma X5_fixed_boundary_against_ring_witness :
  LegacyEngine.nextBlocks 30 0 [0; 1; 1; 0; 1; 0]
  = nextBlocks 30 0 [0; 1; 1; 0; 1; 0].
Proof.
  by apply (X5_fixed_boundary_against_ring 30 0 [0; 1; 1; 0; 1; 0]).
Defined.

(** *** The rule-22 hook *)

Lemma rule22_cell (l c r : Z) :
  is_cell l → is_cell c → is_cell r →
  applyElementaryRule 22 l c r = if decide (l + c + r = 1) then 1 else 0.
Proof. by intros [-> | ->] [-> | ->] [-> | ->]. Qed.

Lemma get_cell (r : row) (i : Z) (c : Z) :
  Forall is_cell r → JS.get r i = Some c → is_cell c.
Proof.
  intros Hr Hc. unfold JS.get in Hc. case_decide; [| done].
  by eapply Forall_lookup_1.
Qed.

Lemma rule22_nextCell (r : row) (i : Z) :
  Forall is_cell r → 0 ≤ i < Z.of_nat (length r) →
  Rule22Hook.nextCell r i = LegacyEngine.nextCell 22 0 r i.
Proof.
  intros Hr Hi. unfold Rule22Hook.nextCell, LegacyEngine.nextCell.
  assert (is_cell 0) as Hzero by (by left).
  destruct (lookup_lt_is_Some_2 r (Z.to_nat i)) as [c Hc]; [lia |].
  rewrite (get_lookup r i), Hc by lia. simpl.
  assert (is_cell c) by (by eapply Forall_lookup_1).
  destruct (decide (0 < i)) as [Hpos | Hpos];
    destruct (decide (i < Z.of_nat (length r) - 1)) as [Hin | Hin].
  - destruct (lookup_lt_is_Some_2 r (Z.to_nat (i - 1))) as [l Hl]; [lia |].
    destruct (lookup_lt_is_Some_2 r (Z.to_nat (i + 1))) as [x Hx]; [lia |].
    rewrite !get_lookup, Hl, Hx by lia. simpl.
    symmetry. apply rule22_cell; [| done |]; by eapply Forall_lookup_1.
  - destruct (lookup_lt_is_Some_2 r (Z.to_nat (i - 1))) as [l Hl]; [lia |].
    rewrite !get_lookup, Hl by lia. simpl.
    symmetry. apply rule22_cell; [| done | done]; by eapply Forall_lookup_1.
  - destruct (lookup_lt_is_Some_2 r (Z.to_nat (i + 1))) as [x Hx]; [lia |].
    rewrite !get_lookup, Hx by lia. simpl.
    symmetry. apply rule22_cell; [done | done |]; by eapply Forall_lookup_1.
  - symmetry. by apply rule22_cell.
Qed.

Lemma rule22_nextBlocks (r : row) :
  Forall is_cell r →
  Rule22Hook.nextBlocks r = LegacyEngine.nextBlocks 22 0 r.
Proof.
  intros Hr. unfold Rule22Hook.nextBlocks, LegacyEngine.nextBlocks.
  unfold from_length. apply list_fmap_ext.
  intros k i Hi%lookup_seqZ. apply rule22_nextCell; [done | lia].
Qed.

(** X6. On a binary row the rule-22 hook is the first elementary hook
    run with rule 22 and boundary value 0: from states that show the
    same row, generation, running flag and ones history, one tick of
    each leads to states that show the same again. *)
Theorem X6_rule22_hook_is_rule_22 (o : Options) (s22 : Rule22Hook.State)
    (st : State) :
  clampRuleDecimal (ruleDecimal o) = 22 → hookBoundary o = 0 →
  Forall is_cell (blocks st) →
  same_view s22 st →
  same_view (Rule22Hook.tick (generations o) s22) (LegacyEngine.tick o st).
Proof.
  intros Hrule Hbv Hcells (Hb & Hg & Hr & Ho).
  unfold same_view, Rule22Hook.tick, LegacyEngine.tick; simpl.
  rewrite Hb, Hg, Hr, Ho, Hrule, Hbv.
  by rewrite rule22_nextBlocks.
Qed.

Lemma X6_rule22_hook_is_rule_22_witness :
  same_view
    (Rule22Hook.tick 5
       {| Rule22Hook.blocks := [0; 0; 0; 1; 0; 0; 0];
          Rule22Hook.generation := 0; Rule22Hook.isRunning := true;
          Rule22Hook.onesHistory := [Some 1] |})
    (LegacyEngine.tick five_generations (start (λ _, O) five_generations)).
Proof.
  apply (X6_rule22_hook_is_rule_22 five_generations
           {| Rule22Hook.blocks := [0; 0; 0; 1; 0; 0; 0];
              Rule22Hook.generation := 0; Rule22Hook.isRunning := true;
              Rule22Hook.onesHistory := [Some 1] |}
           (start (λ _, O) five_generations)).
  - reflexivity.
  - reflexivity.
  - decide_closed.
  - by vm_compute.
Defined.

End LegacyFacts.

(** ** More on the bitset codec *)

Module CodecMore.
Import Base64 UrlState CodecSpec EngineSpec JSFacts Base64Facts CodecFacts.

(** *** The normalized seed list *)

Lemma sorted_le_lt (l : list Z) :
  StronglySorted Z.le l → NoDup l → StronglySorted Z.lt l.
Proof.
  induction 1 as [|x l Hsorted IH Hall]; intros Hnodup; [constructor |].
  apply NoDup_cons in Hnodup as [Hx Hnodup].
  constructor; [by apply IH |].
  rewrite Forall_forall in Hall. apply Forall_forall. intros y Hy.
  pose proof (Hall y Hy). assert (x ≠ y) by (by intros ->). lia.
Qed.

Lemma sorted_lt_NoDup (l : list Z) : StronglySorted Z.lt l → NoDup l.
Proof.
  induction 1 as [|x l Hsorted IH Hall]; [constructor |].
  apply NoDup_cons. split; [| done].
  intros Hx. rewrite Forall_forall in Hall. pose proof (Hall x Hx). lia.
Qed.

(** A strictly ascending list is determined by its members. *)
Lemma sorted_lt_unique (l1 l2 : list Z) :
  StronglySorted Z.lt l1 → StronglySorted Z.lt l2 →
  (∀ x, x ∈ l1 ↔ x ∈ l2) → l1 = l2.
Proof.
  intros H1 H2 Hmem.
  apply (StronglySorted_unique_strong Z.lt); [| done | done |].
  - intros x y _ _ Hxy Hyx. lia.
  - apply NoDup_Permutation; [by apply sorted_lt_NoDup .. | done].
Qed.

Lemma uniqSortedIndices_sorted (seeds : list number) (T : Z) :
  StronglySorted Z.lt (uniqSortedIndices seeds T).
Proof.
  apply sorted_le_lt.
  - unfold uniqSortedIndices.
    apply (sort_sorted _ (λ _, True) Z.le).
    + intros a b _ _ Hle%Z.leb_le. lia.
    + intros a b _ _ Hgt%Z.leb_gt. lia.
    + intros a b c. lia.
    + apply Forall_forall. done.
  - change (uniqSortedIndices seeds T)
      with (JS.sort (λ a b, a - b <=? 0) (Engine.collectSeeds T seeds)).
    rewrite sort_perm. apply EngineMore.NoDup_collectSeeds.
Qed.

(** X7. [uniqSortedIndices] returns, in strictly ascending order, the
    indices inside [0,totalItems) that some finite entry floors to; it
    leaves its own results unchanged. *)
Theorem X7_uniqSortedIndices_normal_form (seeds : list number) (T : Z) :
  StronglySorted Z.lt (uniqSortedIndices seeds T)
  ∧ (∀ x : Z, x ∈ uniqSortedIndices seeds T ↔ 0 ≤ x < T ∧ is_seed seeds x)
  ∧ uniqSortedIndices (Int <$> uniqSortedIndices seeds T) T
    = uniqSortedIndices seeds T.
Proof.
  split_and!; [apply uniqSortedIndices_sorted
              | apply elem_of_uniqSortedIndices |].
  apply sorted_lt_unique; [apply uniqSortedIndices_sorted .. |].
  intros x. rewrite !elem_of_uniqSortedIndices, is_seed_Int.
  rewrite elem_of_uniqSortedIndices. tauto.
Qed.

(** *** Encoding and decoding any seed list *)

Lemma clampInt_clamped (T : number) (lo hi : Z) :
  lo ≤ hi → clampInt (Int (clampInt T lo hi)) lo hi = clampInt T lo hi.
Proof.
  intros Hle. apply clampInt_Int. by apply clampInt_bounds.
Qed.

Lemma encode_clamped (T : number) (seeds : list number) :
  encodeSeedBitset (Int (clampInt T 1 300)) seeds = encodeSeedBitset T seeds.
Proof. unfold encodeSeedBitset. by rewrite clampInt_clamped by lia. Qed.

Lemma decode_clamped (T : number) (s : string) :
  decodeSeedBitset (Int (clampInt T 1 300)) s = decodeSeedBitset T s.
Proof. unfold decodeSeedBitset. by rewrite clampInt_clamped by lia. Qed.

Lemma decode_encode (T : number) (seeds : list number) :
  decodeSeedBitset T (encodeSeedBitset T seeds)
  = Some (uniqSortedIndices seeds (clampInt T 1 300)).
Proof.
  rewrite <- encode_clamped, <- decode_clamped.
  destruct (decode_encode_seeds (clampInt T 1 300) seeds)
    as (out & -> & Hsorted & Hmem); [apply clampInt_bounds; lia |].
  f_equal. apply sorted_lt_unique;
    [done | apply uniqSortedIndices_sorted |].
  intros x. by rewrite Hmem, elem_of_uniqSortedIndices.
Qed.

(** X8. For every [totalItems] and every seed list, junk included
    (duplicates, fractions, [NaN], indices outside the row), decoding
    the encoding returns the normalized seed list, and two seed lists
    have the same encoding exactly when they normalize alike. *)
Theorem X8_encoding_is_canonical (T : number) (seeds1 seeds2 : list number) :
  let safeTotal := clampInt T 1 300 in
  decodeSeedBitset T (encodeSeedBitset T seeds1)
  = Some (uniqSortedIndices seeds1 safeTotal)
  ∧ (encodeSeedBitset T seeds1 = encodeSeedBitset T seeds2
     ↔ uniqSortedIndices seeds1 safeTotal
       = uniqSortedIndices seeds2 safeTotal).
Proof.
  intros safeTotal. split; [apply decode_encode |]. split.
  - intros Heq.
    pose proof (decode_encode T seeds1) as H1.
    rewrite Heq, decode_encode in H1. by injection H1.
  - intros Heq. unfold encodeSeedBitset. fold safeTotal. by rewrite Heq.
Qed.

Lemma X8_encoding_is_canonical_witness :
  encodeSeedBitset (Int 8) [Int 3; Finite (7 # 2); Int 0; NaN; Int 12]
  = encodeSeedBitset (Int 8) [Int 0; Int 3].
Proof.
  destruct (X8_encoding_is_canonical (Int 8)
              [Int 3; Finite (7 # 2); Int 0; NaN; Int 12] [Int 0; Int 3])
    as [_ Hiff].
  apply Hiff. reflexivity.
Defined.

(** X9. What the decoder returns is a fixed point of the round trip:
    encoding a decoded list and decoding again gives the same list. *)
Theorem X9_decoded_list_is_stable (T : number) (s : string)
    (out : list Z) :
  decodeSeedBitset T s = Some out →
  decodeSeedBitset T (encodeSeedBitset T (Int <$> out)) = Some out.
Proof.
  intros Hout. rewrite decode_encode. f_equal.
  destruct (decodeSeedBitset_Some T s out Hout)
    as (bytes & _ & _ & Hmem & Hsorted).
  apply sorted_lt_unique; [apply uniqSortedIndices_sorted | done |].
  intros x. rewrite elem_of_uniqSortedIndices, is_seed_Int.
  split; [tauto |]. intros Hx. split; [| done]. by apply Hmem.
Qed.

Lemma X9_decoded_list_is_stable_witness :
  decodeSeedBitset (Int 4) (encodeSeedBitset (Int 4) (Int <$> [0; 1; 2; 3]))
  = Some [0; 1; 2; 3].
Proof.
  apply (X9_decoded_list_is_stable (Int 4) "__8" [0; 1; 2; 3]).
  reflexivity.
Defined.

End CodecMore.

(** ** The shape of an encoded seed set, and links read back *)

Module LinkFacts.
Import Base64 UrlState CodecSpec EngineSpec LinkSpec.
Import JSFacts Base64Facts CodecFacts CodecMore UrlFacts.

Lemma list_ind4 {A} (P : list A → Prop) :
  P [] → (∀ a, P [a]) → (∀ a b, P [a; b]) → (∀ a b c, P [a; b; c]) →
  (∀ a b c d l, P l → P (a :: b :: c :: d :: l)) →
  ∀ l, P l.
Proof.
  intros H0 H1 H2 H3 H4 l.
  assert (P l ∧ (∀ a, P (a :: l)) ∧ (∀ a b, P (a :: b :: l))
          ∧ ∀ a b c, P (a :: b :: c :: l)) as [? _].
  { induction l as [|x l (IH0 & IH1 & IH2 & IH3)]; [by split_and! |].
    split_and!; [apply IH1 | intros; apply IH2 | intros; apply IH3 |].
    intros a b c. by apply H4. }
  done.
Qed.

(** Four groups give three bytes, three give two and two give one. *)
Lemma length_decode_groups (vs : list Z) :
  (length vs mod 4 ≠ 1)%nat →
  Z.of_nat (length vs)
  = (4 * Z.of_nat (length (decode_groups vs)) + 2) / 3.
Proof.
  induction vs as [| a | a b | a b c | a b c d l IH] using list_ind4;
    intros Hlen; [done .. |].
  assert (length l mod 4 ≠ 1)%nat as Hl.
  { intros Hl. apply Hlen. cbn [length].
    change (S (S (S (S (length l))))) with (4 + length l)%nat.
    pose proof (Nat.div_mod_eq (length l) 4).
    pose proof (Nat.div_mod_eq (4 + length l) 4).
    pose proof (Nat.mod_upper_bound (4 + length l) 4). lia. }
  specialize (IH Hl). rewrite decode_groups_cons4. cbn [length].
  rewrite !Nat2Z.inj_succ.
  replace (4 * Z.succ (Z.succ (Z.succ
             (Z.of_nat (length (decode_groups l))))) + 2)
    with (4 * Z.of_nat (length (decode_groups l)) + 2 + 4 * 3) by lia.
  rewrite Z.div_add by lia. lia.
Qed.

Lemma url_char_table :
  Forall (λ v, is_base64url_char (to_url (b64_char v)) = true) (seqZ 0 64).
Proof. decide_closed. Qed.

Lemma length_packBits (T : Z) (idxs : list Z) :
  1 ≤ T → Forall (λ i, 0 ≤ i < T) idxs →
  length (packBits T idxs) = Z.to_nat ((T + 7) / 8).
Proof.
  intros HT Hidxs. unfold packBits. rewrite ceil_div_8.
  destruct (packBits_fold (Z.to_nat ((T + 7) / 8)) idxs
              (replicate (Z.to_nat ((T + 7) / 8)) 0) (λ _, False))
    as (_ & Hlen & _); [| | | | done].
  - apply Forall_replicate. unfold is_byte. lia.
  - apply length_replicate.
  - intros i _. split; [by intros ?%bit_set_zeros | done].
  - eapply Forall_impl; [exact Hidxs |]. intros i Hi. cbv beta in *.
    rewrite Z2Nat.id by (apply Z.div_pos; lia).
    Z.div_mod_to_equations. lia.
Qed.

(** X10. The value of [s] that [encodeSeedBitset] writes is unpadded
    base64url: only letters, digits, [-] and [_], of the length that
    ceil(totalItems / 8) bytes take, hence at most 51 characters; the
    query string carries it without escaping. *)
Theorem X10_encoded_seed_shape (T : number) (seeds : list number) :
  let s := encodeSeedBitset T seeds in
  let byteLen := (clampInt T 1 300 + 7) / 8 in
  valid_base64url s
  ∧ Z.of_nat (length (list_ascii_of_string s)) = (4 * byteLen + 2) / 3
  ∧ (length (list_ascii_of_string s) ≤ 51)%nat
  ∧ encode_component s = list_ascii_of_string s.
Proof.
  intros s byteLen.
  assert (1 ≤ clampInt T 1 300 ≤ 300) as HT
    by (apply clampInt_bounds; lia).
  assert (Forall (λ i, 0 ≤ i < clampInt T 1 300)
            (uniqSortedIndices seeds (clampInt T 1 300))) as Hidxs.
  { apply Forall_forall. by intros x [? _]%elem_of_uniqSortedIndices. }
  destruct (packBits_spec _ _ (proj1 HT) Hidxs) as [Hbytes _].
  pose proof (length_packBits _ _ (proj1 HT) Hidxs) as Hlen.
  destruct (base64UrlEncode_groups _ Hbytes) as (vs & Henc & Hvs & Hmod & Hdec).
  assert (Z.of_nat (length (list_ascii_of_string s))
          = (4 * byteLen + 2) / 3) as Hs.
  { unfold s, encodeSeedBitset. rewrite Henc, !length_fmap.
    rewrite (length_decode_groups vs Hmod), Hdec, Hlen.
    rewrite Z2Nat.id by (apply Z.div_pos; lia). done. }
  split_and!; [split | done | | apply encode_seed].
  - unfold s, encodeSeedBitset. rewrite Henc.
    apply Forall_fmap, Forall_fmap.
    eapply Forall_impl; [exact Hvs |]. intros v Hv. cbv beta in *.
    unfold compose.
    pose proof url_char_table as Htab.
    rewrite Forall_forall in Htab. apply Htab, elem_of_seqZ. lia.
  - unfold s, encodeSeedBitset. by rewrite Henc, !length_fmap.
  - assert ((4 * byteLen + 2) / 3 ≤ 51); [| lia].
    unfold byteLen. Z.div_mod_to_equations. lia.
Qed.

(** *** Links read back *)

Lemma build_pairs (st : ShareableAutomatonState) :
  buildShareableSearch st = "?" +:+ params_toString (link_pairs st).
Proof.
  assert (0 ≤ clampInt (ruleDecimal st) 0 255 ≤ 255) as Hr
    by (apply clampInt_bounds; lia).
  assert (1 ≤ clampInt (totalItems st) 1 300 ≤ 300) as Hw
    by (apply clampInt_bounds; lia).
  assert (1 ≤ clampInt (generations st) 1 500 ≤ 500) as Hg
    by (apply clampInt_bounds; lia).
  assert (10 ≤ clampInt (delay st) 10 5000 ≤ 5000) as Hd
    by (apply clampInt_bounds; lia).
  unfold buildShareableSearch. rewrite params_five. fold (link_pairs st).
  case_decide as Hempty; [| done].
  unfold link_pairs in Hempty. rewrite toString_five in Hempty;
    [done | apply encode_int; lia | apply encode_int; lia
     | apply encode_int; lia | apply encode_int; lia | apply encode_seed].
Qed.

Lemma encode_normalized (T : number) (seeds : list number) :
  encodeSeedBitset (Int (clampInt T 1 300))
    (Int <$> uniqSortedIndices seeds (clampInt T 1 300))
  = encodeSeedBitset T seeds.
Proof.
  rewrite encode_clamped. unfold encodeSeedBitset. f_equal. f_equal.
  apply sorted_lt_unique; [apply uniqSortedIndices_sorted .. |].
  intros x. rewrite !elem_of_uniqSortedIndices, is_seed_Int.
  rewrite elem_of_uniqSortedIndices. tauto.
Qed.

Lemma build_reopened (st : ShareableAutomatonState) :
  buildShareableSearch (reopened st) = buildShareableSearch st.
Proof.
  unfold buildShareableSearch, reopened; cbn [ruleDecimal totalItems
    generations delay seedIndices].
  rewrite !clampInt_clamped by lia. by rewrite encode_normalized.
Qed.

Section Reading.

Variable URLSearchParams : string → params.
Variable Number : string → number.

(** The parser returns the pairs a query string was serialized from,
    and [Number] reads the decimal numerals of the clamped fields. *)
Lemma parse_pairs (st : ShareableAutomatonState) (search : string) :
  URLSearchParams search = link_pairs st →
  (∀ z : Z, 0 ≤ z ≤ 5000 → Number (String_of_int z) = Int z) →
  parseShareableStateFromLocation URLSearchParams Number search
  = link_state st.
Proof.
  intros Hpairs Hnum.
  assert (0 ≤ clampInt (ruleDecimal st) 0 255 ≤ 255) as Hr
    by (apply clampInt_bounds; lia).
  assert (1 ≤ clampInt (totalItems st) 1 300 ≤ 300) as Hw
    by (apply clampInt_bounds; lia).
  assert (1 ≤ clampInt (generations st) 1 500 ≤ 500) as Hg
    by (apply clampInt_bounds; lia).
  assert (10 ≤ clampInt (delay st) 10 5000 ≤ 5000) as Hd
    by (apply clampInt_bounds; lia).
  unfold parseShareableStateFromLocation. rewrite Hpairs.
  assert (∀ (key : string) (z fallback : Z),
    params_get (link_pairs st) key = Some (String_of_int z) →
    0 ≤ z ≤ 5000 →
    parseIntParam Number (link_pairs st) key fallback = z) as Hint.
  { intros key z fallback Hget Hz. unfold parseIntParam.
    rewrite Hget, Hnum by done. apply Qfloor_Z. }
  rewrite (Hint "r" (clampInt (ruleDecimal st) 0 255)) by (done || lia).
  rewrite (Hint "w" (clampInt (totalItems st) 1 300)) by (done || lia).
  rewrite (Hint "g" (clampInt (generations st) 1 500)) by (done || lia).
  rewrite (Hint "d" (clampInt (delay st) 10 5000)) by (done || lia).
  rewrite !clampInt_clamped by lia.
  change (params_get (link_pairs st) "s")
    with (Some (encodeSeedBitset (totalItems st) (seedIndices st))).
  cbv beta iota zeta. rewrite decode_clamped, decode_encode. done.
Qed.

(** X11. A link read back: when the platform's parser returns the
    pairs the link was serialized from and [Number] reads decimal
    numerals, parsing the link built from any state gives the clamped
    fields and the normalized seeds of that state, and the link built
    from those is the same link. *)
Theorem X11_link_round_trip (st : ShareableAutomatonState) :
  URLSearchParams ("?" +:+ params_toString (link_pairs st)) = link_pairs st →
  (∀ z : Z, 0 ≤ z ≤ 5000 → Number (String_of_int z) = Int z) →
  parseShareableStateFromLocation URLSearchParams Number
    (buildShareableSearch st) = link_state st
  ∧ buildShareableSearch (reopened st) = buildShareableSearch st.
Proof.
  intros Hpairs Hnum. split; [| apply build_reopened].
  apply parse_pairs; [| done]. by rewrite build_pairs.
Qed.

End Reading.

Lemma read_decimal_table :
  Forall (λ z, match NilZero.int_of_string (String_of_int z) with
               | Some i => Z.of_int i
               | None => -1
               end = z) (seqZ 0 5001).
Proof. decide_closed. Qed.

Lemma read_decimal_int (z : Z) :
  0 ≤ z ≤ 5000 → read_decimal (String_of_int z) = Int z.
Proof.
  intros Hz. pose proof read_decimal_table as Htab.
  rewrite Forall_forall in Htab.
  assert (z ∈ seqZ 0 5001) as Hin by (apply elem_of_seqZ; lia).
  specialize (Htab z Hin). cbv beta in Htab. unfold read_decimal.
  destruct (NilZero.int_of_string (String_of_int z)); [by subst | lia].
Qed.

Lemma X11_link_round_trip_witness :
  let st := {| ruleDecimal := Int 999; totalItems := Finite (17 # 2);
               generations := NaN; delay := Int 25;
               seedIndices := [Int 7; Int 3; Int 3; Int 64] |} in
  parseShareableStateFromLocation (λ _, link_pairs st) read_decimal
    (buildShareableSearch st)
  = {| p_ruleDecimal := Some 255; p_totalItems := Some 8;
       p_generations := Some 1; p_delay := Some 25;
       p_seedIndices := Some [3; 7] |}.
Proof.
  intros st.
  destruct (X11_link_round_trip (λ _, link_pairs st) read_decimal st)
    as [Hparse _]; [reflexivity | apply read_decimal_int |].
  exact Hparse.
Defined.

End LinkFacts.

(** ** The rule string and the rule table *)

Module RulesMore.
Import Rules RulesSpec Controls JSFacts RulesFacts.

Lemma to8BitBinary_Int (z : Z) :
  0 ≤ z ≤ 255 → to8BitBinary (Int z) = Return (binary8 z).
Proof.
  intros Hz. unfold to8BitBinary, Int.
  rewrite (isInteger_denotes (inject_Z z) z) by reflexivity.
  assert (Qle_bool 0 (inject_Z z) = true) as ->
    by (apply (Qle_bool_inject 0 z); lia).
  assert (Qle_bool (inject_Z z) 255 = true) as ->
    by (apply (Qle_bool_inject z 255); lia).
  cbn [negb orb]. rewrite Qfloor_Z. by rewrite padded_bits.
Qed.

(** What [to8BitBinary] returns, it returns for an integer of [0,255]. *)
Lemma to8BitBinary_Return (x : number) (s : string) :
  to8BitBinary x = Return s →
  ∃ z : Z, denotes x z ∧ 0 ≤ z ≤ 255 ∧ s = binary8 z.
Proof.
  destruct x as [q | | |]; try done. unfold to8BitBinary.
  destruct (isInteger (Finite q)) eqn:Hint; [| done].
  destruct (Qle_bool 0 q) eqn:Hlo; [| done].
  destruct (Qle_bool q 255) eqn:Hhi; [| done].
  simpl. intros [= <-].
  pose proof (isInteger_floor q Hint) as Hq.
  assert (0 ≤ Qfloor q ≤ 255) as Hz.
  { rewrite Hq in Hlo, Hhi.
    apply (Qle_bool_inject 0) in Hlo. apply (Qle_bool_inject _ 255) in Hhi.
    lia. }
  exists (Qfloor q). split_and!; [by exists q | lia | lia |].
  by apply padded_bits.
Qed.

Lemma binary8_distinct : NoDup (binary8 <$> seqZ 0 256).
Proof. decide_closed. Qed.

Lemma binary8_inj (a b : Z) :
  0 ≤ a ≤ 255 → 0 ≤ b ≤ 255 → binary8 a = binary8 b → a = b.
Proof.
  intros Ha Hb Heq.
  pose proof binary8_distinct as Hdistinct.
  apply (NoDup_alt (binary8 <$> seqZ 0 256)) with
    (i := Z.to_nat a) (j := Z.to_nat b) (x := binary8 a) in Hdistinct.
  - lia.
  - rewrite list_lookup_fmap, lookup_seqZ_lt by lia. simpl.
    do 2 f_equal. lia.
  - rewrite list_lookup_fmap, lookup_seqZ_lt by lia. simpl.
    rewrite Heq. do 2 f_equal. lia.
Qed.

(** X13. [to8BitBinary] gives different strings to different rules:
    two numbers with the same result are the same integer of [0,255];
    and it returns for every rule the component shows, a clamped one. *)
Theorem X13_rule_string_identifies_rule (x y : number) (s : string) :
  to8BitBinary x = Return s → to8BitBinary y = Return s →
  (∃ z : Z, denotes x z ∧ denotes y z ∧ 0 ≤ z ≤ 255)
  ∧ ∀ v : number,
      to8BitBinary (Int (clampInt v 0 255))
      = Return (binary8 (clampInt v 0 255)).
Proof.
  intros (a & Hxa & Ha & ->)%to8BitBinary_Return
         (b & Hyb & Hb & Heq)%to8BitBinary_Return.
  split.
  - apply binary8_inj in Heq as ->; [| done | done]. by exists b.
  - intros v. apply to8BitBinary_Int. unfold clampInt. lia.
Qed.

Lemma X13_rule_string_identifies_rule_witness :
  ∃ z : Z, denotes (Finite (44 # 2)) z ∧ denotes (Int 22) z ∧ 0 ≤ z ≤ 255.
Proof.
  destruct (X13_rule_string_identifies_rule (Finite (44 # 2)) (Int 22)
              "00010110") as [Hsame _]; [reflexivity | reflexivity |].
  exact Hsame.
Defined.

(** *** The table of [RuleDetailsPanel] *)

Lemma digit_table :
  Forall (λ rule,
            Forall (λ i : nat,
                      String.get i (binary8 rule)
                      = Some (if decide (band (shr rule (7 - Z.of_nat i)) 1 = 1)
                              then "1"%char else "0"%char)) (seq 0 8))
         (seqZ 0 256).
Proof. decide_closed. Qed.

(** X14. Row [i] of the rule table shows neighbourhood [7 - i], that
    is 111 first and 000 last, as three cells; its output is what the
    engine computes for that neighbourhood, and it is digit [i] of the
    binary string shown beside the rule. *)
Theorem X14_rule_table_rows (rule : Z) (i : nat) (r : RuleRow) :
  0 ≤ rule ≤ 255 → rows rule !! i = Some r →
  row_idx r = 7 - Z.of_nat i
  ∧ Engine.is_cell (row_left r) ∧ Engine.is_cell (row_current r)
  ∧ Engine.is_cell (row_right r)
  ∧ row_idx r = 4 * row_left r + 2 * row_current r + row_right r
  ∧ row_out r
    = Engine.applyElementaryRule rule (row_left r) (row_current r)
        (row_right r)
  ∧ ∃ s : string,
      to8BitBinary (Int rule) = Return s
      ∧ String.get i s
        = Some (if decide (row_out r = 1) then "1"%char else "0"%char).
Proof.
  intros Hrule Hrow.
  assert (i < 8)%nat as Hi.
  { apply lookup_lt_Some in Hrow.
    unfold rows in Hrow. by rewrite EngineFacts.length_from_length in Hrow. }
  unfold rows in Hrow.
  rewrite EngineFacts.lookup_from_length in Hrow by lia.
  injection Hrow as <-. cbn [row_idx row_left row_current row_right row_out].
  split_and!.
  - done.
  - do 8 (destruct i as [|i]; [by vm_compute; auto |]). lia.
  - do 8 (destruct i as [|i]; [by vm_compute; auto |]). lia.
  - do 8 (destruct i as [|i]; [by vm_compute; auto |]). lia.
  - do 8 (destruct i as [|i]; [by vm_compute |]). lia.
  - unfold Engine.applyElementaryRule.
    do 8 (destruct i as [|i]; [done |]). lia.
  - exists (binary8 rule). split; [by apply to8BitBinary_Int |].
    pose proof digit_table as Htab. rewrite Forall_forall in Htab.
    assert (rule ∈ seqZ 0 256) as Hin by (apply elem_of_seqZ; lia).
    specialize (Htab rule Hin). cbv beta in Htab.
    rewrite Forall_forall in Htab. apply Htab. apply elem_of_seq. lia.
Qed.

Lemma X14_rule_table_rows_witness :
  row_out {| row_idx := 4; row_left := 1; row_current := 0;
             row_right := 0; row_out := 1 |}
  = Engine.applyElementaryRule 22 1 0 0.
Proof.
  destruct (X14_rule_table_rows 22 3
              {| row_idx := 4; row_left := 1; row_current := 0;
                 row_right := 0; row_out := 1 |})
    as (_ & _ & _ & _ & _ & Hout & _); [lia | reflexivity |].
  exact Hout.
Defined.

End RulesMore.

(** ** The controls of the component *)

Module ComponentFacts.
Import Controls ComponentSpec EngineSpec JSFacts.

Lemma normalize_uniq (T : Z) (seeds : list number) :
  normalizeSeedIndices T seeds = UrlState.uniqSortedIndices seeds T.
Proof. reflexivity. Qed.

Lemma clampInt_range (v : number) (lo hi : Z) :
  lo ≤ hi → lo ≤ clampInt v lo hi ≤ hi.
Proof. intros Hle. unfold clampInt. lia. Qed.

Lemma clampInt_fixed (z lo hi : Z) :
  lo ≤ z ≤ hi → clampInt (Int z) lo hi = z.
Proof. intros Hz. unfold clampInt, Int. rewrite Qfloor_Z. lia. Qed.

Lemma clampInt_again (v : number) (lo hi : Z) :
  lo ≤ hi → clampInt (Int (clampInt v lo hi)) lo hi = clampInt v lo hi.
Proof. intros Hle. by apply clampInt_fixed, clampInt_range. Qed.

Lemma normalize_sorted (T : Z) (seeds : list number) :
  StronglySorted Z.lt (normalizeSeedIndices T seeds).
Proof. apply CodecMore.uniqSortedIndices_sorted. Qed.

Lemma elem_of_normalize (T : Z) (seeds : list number) (x : Z) :
  x ∈ normalizeSeedIndices T seeds ↔ 0 ≤ x < T ∧ is_seed seeds x.
Proof. apply CodecFacts.elem_of_uniqSortedIndices. Qed.

Lemma normalize_range (T : Z) (seeds : list number) :
  Forall (λ i, 0 ≤ i < T) (normalizeSeedIndices T seeds).
Proof. apply Forall_forall. by intros x [? _]%elem_of_normalize. Qed.

(** A normalized list is left as it is. *)
Lemma normalize_fixed (T : Z) (l : list Z) :
  StronglySorted Z.lt l → Forall (λ i, 0 ≤ i < T) l →
  normalizeSeedIndices T (Int <$> l) = l.
Proof.
  intros Hsorted Hrange.
  apply CodecMore.sorted_lt_unique; [apply normalize_sorted | done |].
  intros x. rewrite elem_of_normalize, CodecFacts.is_seed_Int.
  rewrite Forall_forall in Hrange.
  split; [tauto |]. intros Hx. split; [by apply Hrange | done].
Qed.

Lemma length_sorted_range (T : Z) (l : list Z) :
  StronglySorted Z.lt l → Forall (λ i, 0 ≤ i < T) l →
  Z.of_nat (length l) ≤ Z.max 0 T.
Proof.
  intros Hsorted Hrange.
  assert (l ⊆+ seqZ 0 T) as Hsub.
  { apply NoDup_submseteq; [by apply CodecMore.sorted_lt_NoDup |].
    rewrite Forall_forall in Hrange.
    intros x Hx. apply elem_of_seqZ. specialize (Hrange x Hx). lia. }
  apply submseteq_length in Hsub. rewrite length_seqZ in Hsub. lia.
Qed.

Lemma random_sorted (draws : nat → nat) (T : Z) (count : number) :
  let l := randomSeedIndices draws T count in
  StronglySorted Z.lt l
  ∧ Forall (λ i, 0 ≤ i < T) l
  ∧ Z.of_nat (length l) = clampInt count 0 T.
Proof.
  intros l. unfold l, randomSeedIndices.
  destruct (EngineMore.shuffled_prefix draws T
              (length (from_length T (λ i, i)) - 1)
              (Z.to_nat (clampInt count 0 T))) as (Hrange & Hnodup & Hlen).
  split_and!.
  - apply CodecMore.sorted_le_lt; [| by rewrite sort_perm].
    apply (sort_sorted _ (λ _, True) Z.le).
    + intros a b _ _ Hle%Z.leb_le. lia.
    + intros a b _ _ Hgt%Z.leb_gt. lia.
    + intros a b c. lia.
    + apply Forall_forall. done.
  - by rewrite sort_perm.
  - rewrite sort_perm, Hlen. unfold clampInt. destruct count; lia.
Qed.

(** X15. [randomSeedIndices] returns [count] indices, floored and
    clamped into [0, totalItems], that are distinct positions of the
    row in ascending order, whatever the random draws. *)
Theorem X15_random_seed_indices (draws : nat → nat) (T : Z)
    (count : number) :
  let l := randomSeedIndices draws T count in
  StronglySorted Z.lt l
  ∧ (∀ i : Z, i ∈ l → 0 ≤ i < T)
  ∧ Z.of_nat (length l) = clampInt count 0 T
  ∧ normalizeSeedIndices T (Int <$> l) = l.
Proof.
  intros l. destruct (random_sorted draws T count) as (Hsorted & Hrange & Hlen).
  fold l in Hsorted, Hrange, Hlen.
  split_and!; [done | | done | by apply normalize_fixed].
  intros i Hi. rewrite Forall_forall in Hrange. by apply Hrange.
Qed.

(** *** [applyControlPatch] *)

Lemma length_normalize (T : Z) (seeds : list number) :
  1 ≤ T →
  clampInt (Int (Z.of_nat (length (normalizeSeedIndices T seeds)))) 0 T
  = Z.of_nat (length (normalizeSeedIndices T seeds)).
Proof.
  intros HT. apply clampInt_fixed.
  pose proof (length_sorted_range T _ (normalize_sorted T seeds)
                (normalize_range T seeds)). lia.
Qed.

(** X16. [applyControlPatch] returns a configuration within the bounds
    of the controls: width in [1,300], generations in [1,500], delay in
    [10,5000], the seeds normalized against the new width and
    [initialOnes] their number; the rule is untouched, and applying the
    empty patch to the result changes nothing. *)
Theorem X16_control_patch_normalizes (prev : Config) (patch : ControlPatch) :
  let c := applyControlPatch prev patch in
  let merged := default (c_seedIndices prev) (patch_seedIndices patch) in
  ∃ (T G D : Z) (seeds : list Z),
    (c_totalItems c = Int T ∧ c_generations c = Int G ∧ c_delay c = Int D
     ∧ c_seedIndices c = Int <$> seeds
     ∧ c_initialOnes c = Int (Z.of_nat (length seeds))
     ∧ c_ruleDecimal c = c_ruleDecimal prev)
    ∧ (1 ≤ T ≤ 300 ∧ 1 ≤ G ≤ 500 ∧ 10 ≤ D ≤ 5000)
    ∧ StronglySorted Z.lt seeds
    ∧ (∀ x : Z, x ∈ seeds ↔ 0 ≤ x < T ∧ is_seed merged x)
    ∧ applyControlPatch c emptyPatch = c.
Proof.
  intros c merged.
  set (T := clampInt (default (c_totalItems prev) (patch_totalItems patch))
              1 300).
  set (G := clampInt (default (c_generations prev) (patch_generations patch))
              1 500).
  set (D := clampInt (default (c_delay prev) (patch_delay patch)) 10 5000).
  assert (1 ≤ T ≤ 300) as HT by (apply clampInt_range; lia).
  assert (1 ≤ G ≤ 500) as HG by (apply clampInt_range; lia).
  assert (10 ≤ D ≤ 5000) as HD by (apply clampInt_range; lia).
  assert (c = {| c_ruleDecimal := c_ruleDecimal prev;
                 c_totalItems := Int T;
                 c_initialOnes :=
                   Int (Z.of_nat (length (normalizeSeedIndices T merged)));
                 c_seedIndices := Int <$> normalizeSeedIndices T merged;
                 c_generations := Int G;
                 c_delay := Int D |}) as Hc.
  { unfold c, applyControlPatch. fold T G D merged.
    by rewrite length_normalize by lia. }
  exists T, G, D, (normalizeSeedIndices T merged).
  split_and!; try (by rewrite Hc); try lia.
  - apply normalize_sorted.
  - apply elem_of_normalize.
  - rewrite Hc. unfold applyControlPatch, emptyPatch.
    cbn [default c_totalItems c_generations c_delay c_seedIndices
         c_ruleDecimal patch_totalItems patch_generations patch_delay
         patch_seedIndices].
    rewrite (clampInt_fixed T), (clampInt_fixed G), (clampInt_fixed D) by lia.
    rewrite normalize_fixed by (apply normalize_sorted || apply normalize_range).
    by rewrite length_normalize by lia.
Qed.

(** *** The applied configuration and the engine *)

Lemma applied_well_formed (config : Config) : well_formed (applied config).
Proof.
  unfold well_formed, applied.
  cbn [a_ruleDecimal a_totalItems a_initialOnes a_seedIndices a_generations
       a_delay].
  assert (1 ≤ clampInt (c_totalItems config) 1 300 ≤ 300)
    by (apply clampInt_range; lia).
  split_and!; try (apply clampInt_range; lia).
  - apply normalize_sorted.
  - apply normalize_range.
Qed.

Lemma seeded_row (draws : nat → nat) (a : Applied) (running : bool) :
  well_formed a →
  let st := Engine.seeded draws (hookOptions a) running in
  length (Engine.blocks st) = Z.to_nat (a_totalItems a)
  ∧ Forall Engine.is_cell (Engine.blocks st)
  ∧ (a_seedIndices a ≠ [] →
     Engine.blocks st
     = (λ i, if decide (i ∈ a_seedIndices a) then 1 else 0)
         <$> seqZ 0 (a_totalItems a))
  ∧ Engine.countOnes (Engine.blocks st)
    = (if decide (a_seedIndices a = []) then a_initialOnes a
       else Z.of_nat (length (a_seedIndices a))).
Proof.
  intros (Hr & HT & HG & HD & Hones & Hsorted & Hrange) st.
  unfold st, Engine.seeded. cbn [Engine.blocks].
  change (Engine.totalItems (hookOptions a)) with (a_totalItems a).
  change (Engine.initialOnes (hookOptions a)) with (Int (a_initialOnes a)).
  change (Engine.seedIndices (hookOptions a))
    with (Some (Int <$> a_seedIndices a)).
  change (Engine.hookBoundary (hookOptions a)) with 0.
  destruct (decide (a_seedIndices a = [])) as [Hseeds | Hne].
  - rewrite Hseeds.
    destruct (EngineMore.random_row draws (a_totalItems a)
                (Int (a_initialOnes a))) as (Hlen & Hcells & Hcount).
    assert (Engine.makeInitialValues draws (a_totalItems a)
              (Int (a_initialOnes a)) (Some 0) (Some (Int <$> []))
            = if decide (a_totalItems a = 0)
              then from_length (a_totalItems a) (λ _, 0)
              else if decide (Engine.seedCount (a_totalItems a)
                                (Int (a_initialOnes a)) = Some 0)
                   then from_length (a_totalItems a) (λ _, 0)
                   else Engine.markOnes (from_length (a_totalItems a) (λ _, 0))
                          (take (Z.to_nat
                                   (default 0
                                      (Engine.seedCount (a_totalItems a)
                                         (Int (a_initialOnes a)))))
                             (Engine.shuffle draws
                                (length (from_length (a_totalItems a)
                                           (λ i, i)) - 1)
                                (from_length (a_totalItems a) (λ i, i)))))
      as -> by done.
    split_and!; [done | done | done |].
    rewrite Hcount.
    unfold Engine.seedCount, Int. rewrite Qfloor_Z. simpl. lia.
  - assert (Engine.makeInitialValues draws (a_totalItems a)
              (Int (a_initialOnes a)) (Some 0) (Some (Int <$> a_seedIndices a))
            = Engine.markOnes (from_length (a_totalItems a) (λ _, 0))
                (a_seedIndices a)) as ->.
    { destruct (a_seedIndices a) as [|y ys] eqn:Hseeds; [done |].
      rewrite fmap_cons, EngineFacts.makeInitialValues_explicit.
      change (Int y :: (Int <$> ys)) with (Int <$> y :: ys).
      rewrite <- Hseeds in *.
      change (default 0 (Some 0)) with 0.
      apply EngineMore.markOnes_ext.
      - apply Forall_forall.
        by intros z [[? ?] _]%EngineFacts.elem_of_collectSeeds.
      - eapply Forall_impl; [exact Hrange |]. intros z Hz.
        cbv beta in *. lia.
      - intros z. rewrite EngineFacts.elem_of_collectSeeds,
          CodecFacts.is_seed_Int.
        rewrite Forall_forall in Hrange.
        split; [tauto |]. intros Hz. split; [by apply Hrange | done]. }
    destruct (EngineMore.markOnes_count (a_totalItems a) (a_seedIndices a))
      as (Hlen & Hcells & Hcount);
      [done | by apply CodecMore.sorted_lt_NoDup |].
    split_and!; [done | done | | done].
    intros _. by apply EngineMore.markOnes_zeros.
Qed.

(** X17. The configuration that drives the simulation is always within
    the bounds of the controls, and generation 0 of the engine started
    from it has [totalItems] binary cells: with seeds, ones exactly at
    the seed indices; without seeds, [initialOnes] ones. *)
Theorem X17_engine_runs_applied_config (draws : nat → nat) (config : Config)
    (running : bool) :
  let a := applied config in
  let st := Engine.seeded draws (hookOptions a) running in
  well_formed a
  ∧ length (Engine.blocks st) = Z.to_nat (a_totalItems a)
  ∧ Forall Engine.is_cell (Engine.blocks st)
  ∧ (a_seedIndices a ≠ [] →
     Engine.blocks st
     = (λ i, if decide (i ∈ a_seedIndices a) then 1 else 0)
         <$> seqZ 0 (a_totalItems a))
  ∧ Engine.countOnes (Engine.blocks st)
    = (if decide (a_seedIndices a = []) then a_initialOnes a
       else Z.of_nat (length (a_seedIndices a))).
Proof.
  intros a st. split; [apply applied_well_formed |].
  apply seeded_row, applied_well_formed.
Qed.

Lemma applied_config_of (a : Applied) :
  well_formed a → a_initialOnes a = Z.of_nat (length (a_seedIndices a)) →
  applied (config_of a) = a.
Proof.
  intros (Hr & HT & HG & HD & Hones & Hsorted & Hrange) Hlen.
  destruct a as [r T ones seeds G D].
  cbn [a_ruleDecimal a_totalItems a_initialOnes a_seedIndices a_generations
       a_delay] in *.
  unfold applied, config_of.
  cbn [c_ruleDecimal c_totalItems c_initialOnes c_seedIndices c_generations
       c_delay a_ruleDecimal a_totalItems a_initialOnes a_seedIndices
       a_generations a_delay].
  rewrite (clampInt_fixed r), (clampInt_fixed T), (clampInt_fixed G),
    (clampInt_fixed D) by lia.
  rewrite normalize_fixed by done.
  change (isFinite (Int ones)) with true. cbv iota.
  by rewrite (clampInt_fixed ones) by lia.
Qed.

(** X18. After any control patch the controls show what runs: the
    applied configuration has the fields of the patched one, and
    generation 0 of the engine started from it has exactly the
    displayed [initialOnes] ones, which is the number of seeds. *)
Theorem X18_patched_config_runs_as_shown (draws : nat → nat) (prev : Config)
    (patch : ControlPatch) (running : bool) :
  let config := applyControlPatch prev patch in
  let a := applied config in
  let st := Engine.seeded draws (hookOptions a) running in
  (c_totalItems config = Int (a_totalItems a)
   ∧ c_initialOnes config = Int (a_initialOnes a)
   ∧ c_seedIndices config = Int <$> a_seedIndices a
   ∧ c_generations config = Int (a_generations a)
   ∧ c_delay config = Int (a_delay a))
  ∧ a_initialOnes a = Z.of_nat (length (a_seedIndices a))
  ∧ Engine.countOnes (Engine.blocks st) = a_initialOnes a.
Proof.
  intros config a st.
  set (T := clampInt (default (c_totalItems prev) (patch_totalItems patch))
              1 300).
  set (G := clampInt (default (c_generations prev) (patch_generations patch))
              1 500).
  set (D := clampInt (default (c_delay prev) (patch_delay patch)) 10 5000).
  set (merged := default (c_seedIndices prev) (patch_seedIndices patch)).
  assert (1 ≤ T ≤ 300) as HT by (apply clampInt_range; lia).
  assert (1 ≤ G ≤ 500) as HG by (apply clampInt_range; lia).
  assert (10 ≤ D ≤ 5000) as HD by (apply clampInt_range; lia).
  assert (config = {| c_ruleDecimal := c_ruleDecimal prev;
                      c_totalItems := Int T;
                      c_initialOnes :=
                        Int (Z.of_nat (length (normalizeSeedIndices T merged)));
                      c_seedIndices := Int <$> normalizeSeedIndices T merged;
                      c_generations := Int G;
                      c_delay := Int D |}) as Hconfig.
  { unfold config, applyControlPatch. fold T G D merged.
    by rewrite length_normalize by lia. }
  assert (a = {| a_ruleDecimal := clampInt (c_ruleDecimal prev) 0 255;
                 a_totalItems := T;
                 a_initialOnes :=
                   Z.of_nat (length (normalizeSeedIndices T merged));
                 a_seedIndices := normalizeSeedIndices T merged;
                 a_generations := G;
                 a_delay := D |}) as Ha.
  { unfold a. rewrite Hconfig. unfold applied.
    cbn [c_ruleDecimal c_totalItems c_initialOnes c_seedIndices c_generations
         c_delay].
    rewrite (clampInt_fixed T), (clampInt_fixed G), (clampInt_fixed D) by lia.
    rewrite normalize_fixed
      by (apply normalize_sorted || apply normalize_range).
    change (isFinite (Int (Z.of_nat (length (normalizeSeedIndices T merged)))))
      with true. cbv iota.
    by rewrite length_normalize by lia. }
  split; [by rewrite Hconfig, Ha |].
  split; [by rewrite Ha |].
  destruct (seeded_row draws a running (applied_well_formed config))
    as (_ & _ & _ & Hcount).
  fold st in Hcount. rewrite Hcount.
  case_decide as Hempty; [done |]. by rewrite Ha.
Qed.

(** *** The first draft *)

Lemma floor_div_2 (a : Z) : floor_div a 2 = a / 2.
Proof.
  unfold floor_div, Qfloor, Qdiv, Qmult, Qinv, inject_Z. simpl.
  f_equal. lia.
Qed.

Lemma defaultSeedCount_half (T : Z) : 0 ≤ T → defaultSeedCount T = T / 2.
Proof.
  intros HT. unfold defaultSeedCount. rewrite floor_div_2.
  apply clampInt_fixed. Z.div_mod_to_equations. lia.
Qed.

(** X19. The first draft of the component is already what the applied
    configuration will be: every field within its bounds, the seeds
    normalized and [initialOnes] their number.  Unless the location
    brings a non-empty seed list, the seeds are random and as many as
    the [initialOnes] prop, or half the row without that prop. *)
Theorem X19_initial_draft (draws : nat → nat)
    (fromUrl : UrlState.PartialState) (props : Props) :
  let d := initialDraft draws fromUrl props in
  let a := applied d in
  d = config_of a
  ∧ a_initialOnes a = Z.of_nat (length (a_seedIndices a))
  ∧ ((∀ idx rest, UrlState.p_seedIndices fromUrl ≠ Some (idx :: rest)) →
     a_initialOnes a
     = clampInt (default (Int (a_totalItems a / 2)) (props_initialOnes props))
         0 (a_totalItems a)).
Proof.
  intros d a.
  set (T := clampInt (default (props_totalItems props)
                        (Int <$> UrlState.p_totalItems fromUrl)) 1 300).
  set (R := clampInt (default (Int 22)
                        (Int <$> UrlState.p_ruleDecimal fromUrl)) 0 255).
  set (G := clampInt (default (props_generations props)
                        (Int <$> UrlState.p_generations fromUrl)) 1 500).
  set (D := clampInt (default (props_delay props)
                        (Int <$> UrlState.p_delay fromUrl)) 10 5000).
  set (count := clampInt (default (Int (defaultSeedCount T))
                            (props_initialOnes props)) 0 T).
  set (seeds := match UrlState.p_seedIndices fromUrl with
                | Some (idx :: rest) =>
                    normalizeSeedIndices T (Int <$> idx :: rest)
                | _ => randomSeedIndices draws T (Int count)
                end).
  assert (1 ≤ T ≤ 300) as HT by (apply clampInt_range; lia).
  assert (0 ≤ R ≤ 255) as HR by (apply clampInt_range; lia).
  assert (1 ≤ G ≤ 500) as HG by (apply clampInt_range; lia).
  assert (10 ≤ D ≤ 5000) as HD by (apply clampInt_range; lia).
  assert (0 ≤ count ≤ T) as Hcount by (apply clampInt_range; lia).
  assert (StronglySorted Z.lt seeds ∧ Forall (λ i, 0 ≤ i < T) seeds)
    as [Hsorted Hrange].
  { unfold seeds.
    destruct (random_sorted draws T (Int count)) as (? & ? & _).
    destruct (UrlState.p_seedIndices fromUrl) as [[|idx rest]|]; try done.
    split; [apply normalize_sorted | apply normalize_range]. }
  pose proof (length_sorted_range T seeds Hsorted Hrange) as Hlen.
  set (a0 := {| a_ruleDecimal := R; a_totalItems := T;
                a_initialOnes := Z.of_nat (length seeds);
                a_seedIndices := seeds; a_generations := G;
                a_delay := D |}).
  assert (d = config_of a0) as Hd by done.
  assert (a = a0) as Ha.
  { unfold a. rewrite Hd. apply applied_config_of; [| done].
    unfold well_formed, a0. cbn. split_and!; try done; lia. }
  rewrite Ha. split_and!; [done | done |].
  intros Hnone. cbn [a_initialOnes a_totalItems a0].
  rewrite <- defaultSeedCount_half by lia. fold count.
  assert (seeds = randomSeedIndices draws T (Int count)) as ->.
  { unfold seeds.
    destruct (UrlState.p_seedIndices fromUrl) as [[|idx rest]|]; try done.
    by destruct (Hnone idx rest). }
  destruct (random_sorted draws T (Int count)) as (_ & _ & Hl).
  rewrite Hl. apply clampInt_fixed. lia.
Qed.

(** *** Resizing the row *)

(** X20. A patch that changes the width and says nothing about seeds
    re-seeds the row: the new configuration has the clamped width and
    half of it, rounded down, as random seeds in ascending order. *)
Theorem X20_resize_reseeds_half (draws : nat → nat) (prev : Config)
    (patch : ControlPatch) (t : number) :
  patch_totalItems patch = Some t →
  patch_seedIndices patch = None →
  patch_initialOnes patch = None →
  let c := applyControlPatch prev (nextPatch draws patch) in
  let T := clampInt t 1 300 in
  c_totalItems c = Int T
  ∧ c_initialOnes c = Int (T / 2)
  ∧ c_seedIndices c = Int <$> randomSeedIndices draws T (Int (T / 2))
  ∧ Z.of_nat (length (c_seedIndices c)) = T / 2.
Proof.
  intros Ht Hseeds Hones c T.
  assert (1 ≤ T ≤ 300) as HT by (apply clampInt_range; lia).
  assert (0 ≤ T / 2 ≤ T) as Hhalf by (Z.div_mod_to_equations; lia).
  destruct (random_sorted draws T (Int (T / 2))) as (Hsorted & Hrange & Hlen).
  rewrite (clampInt_fixed (T / 2)) in Hlen by lia.
  assert (c = {| c_ruleDecimal := c_ruleDecimal prev;
                 c_totalItems := Int T;
                 c_initialOnes := Int (T / 2);
                 c_seedIndices :=
                   Int <$> randomSeedIndices draws T (Int (T / 2));
                 c_generations :=
                   Int (clampInt (default (c_generations prev)
                                    (patch_generations patch)) 1 500);
                 c_delay :=
                   Int (clampInt (default (c_delay prev)
                                    (patch_delay patch)) 10 5000) |}) as ->.
  { unfold c, nextPatch. rewrite Ht, Hseeds, Hones. fold T.
    rewrite defaultSeedCount_half by lia.
    unfold applyControlPatch.
    cbn [default from_option id patch_totalItems patch_generations
         patch_delay patch_seedIndices patch_initialOnes].
    rewrite (clampInt_fixed T) by lia.
    rewrite normalize_fixed by done.
    rewrite Hlen. by rewrite (clampInt_fixed (T / 2)) by lia. }
  cbn [c_totalItems c_initialOnes c_seedIndices].
  split_and!; [done | done | done |]. by rewrite length_fmap.
Qed.

Lemma X20_resize_reseeds_half_witness :
  let c := applyControlPatch
             {| c_ruleDecimal := Int 22; c_totalItems := Int 118;
                c_initialOnes := Int 1; c_seedIndices := [Int 59];
                c_generations := Int 100; c_delay := Int 10 |}
             (nextPatch (λ i, i * 5)%nat
                {| patch_totalItems := Some (Finite (19 # 2));
                   patch_generations := None; patch_delay := None;
                   patch_seedIndices := None; patch_initialOnes := None |}) in
  c_totalItems c = Int 9 ∧ c_initialOnes c = Int 4.
Proof.
  destruct (X20_resize_reseeds_half (λ i, i * 5)%nat
              {| c_ruleDecimal := Int 22; c_totalItems := Int 118;
                 c_initialOnes := Int 1; c_seedIndices := [Int 59];
                 c_generations := Int 100; c_delay := Int 10 |}
              {| patch_totalItems := Some (Finite (19 # 2));
                 patch_generations := None; patch_delay := None;
                 patch_seedIndices := None; patch_initialOnes := None |}
              (Finite (19 # 2)))
    as (HT & Hones & _); [reflexivity .. |].
  split; [exact HT | exact Hones].
Defined.

(** *** Opening a shared link *)

Lemma draft_of_link (draws : nat → nat)
    (st : UrlState.ShareableAutomatonState) (props : Props) :
  UrlState.uniqSortedIndices (UrlState.seedIndices st)
    (UrlState.clampInt (UrlState.totalItems st) 1 300) ≠ [] →
  initialDraft draws (LinkSpec.link_state st) props
  = {| c_ruleDecimal := Int (UrlState.clampInt (UrlState.ruleDecimal st) 0 255);
       c_totalItems := Int (UrlState.clampInt (UrlState.totalItems st) 1 300);
       c_initialOnes :=
         Int (Z.of_nat
                (length (UrlState.uniqSortedIndices (UrlState.seedIndices st)
                           (UrlState.clampInt (UrlState.totalItems st) 1 300))));
       c_seedIndices :=
         Int <$> UrlState.uniqSortedIndices (UrlState.seedIndices st)
                   (UrlState.clampInt (UrlState.totalItems st) 1 300);
       c_generations :=
         Int (UrlState.clampInt (UrlState.generations st) 1 500);
       c_delay := Int (UrlState.clampInt (UrlState.delay st) 10 5000) |}.
Proof.
  intros Hne. unfold initialDraft, LinkSpec.link_state.
  cbn [UrlState.p_ruleDecimal UrlState.p_totalItems UrlState.p_generations
       UrlState.p_delay UrlState.p_seedIndices fmap option_fmap option_map
       default from_option id].
  change UrlState.clampInt with clampInt in *.
  rewrite !clampInt_again by lia.
  change (UrlState.uniqSortedIndices (UrlState.seedIndices st)
            (clampInt (UrlState.totalItems st) 1 300))
    with (normalizeSeedIndices (clampInt (UrlState.totalItems st) 1 300)
            (UrlState.seedIndices st)) in *.
  destruct (normalizeSeedIndices (clampInt (UrlState.totalItems st) 1 300)
              (UrlState.seedIndices st)) as [|idx rest] eqn:Hseeds; [done |].
  rewrite <- Hseeds.
  by rewrite normalize_fixed
    by (apply normalize_sorted || apply normalize_range).
Qed.

Section Opening.

Variable URLSearchParams : string → UrlState.params.
Variable Number : string → number.

(** X21. Opening a shared link: when the platform's parser returns the
    pairs the link was serialized from and [Number] reads decimal
    numerals, the component opened on the link built from a state with
    at least one seed inside the row starts, whatever its props and the
    random draws, with the clamped fields and the normalized seeds of
    that state, and the link it writes back is the link it was opened
    on. *)
Theorem X21_open_shared_link (draws : nat → nat)
    (st : UrlState.ShareableAutomatonState) (props : Props) :
  URLSearchParams ("?" +:+ UrlState.params_toString (LinkSpec.link_pairs st))
  = LinkSpec.link_pairs st →
  (∀ z : Z, 0 ≤ z ≤ 5000 → Number (String_of_int z) = Int z) →
  UrlState.uniqSortedIndices (UrlState.seedIndices st)
    (UrlState.clampInt (UrlState.totalItems st) 1 300) ≠ [] →
  let fromUrl :=
    UrlState.parseShareableStateFromLocation URLSearchParams Number
      (UrlState.buildShareableSearch st) in
  let a := applied (initialDraft draws fromUrl props) in
  shareable a = LinkSpec.reopened st
  ∧ UrlState.buildShareableSearch (shareable a)
    = UrlState.buildShareableSearch st
  ∧ a_initialOnes a = Z.of_nat (length (a_seedIndices a)).
Proof.
  intros Hpairs Hnum Hne fromUrl a.
  assert (fromUrl = LinkSpec.link_state st) as Hfrom.
  { unfold fromUrl. apply LinkFacts.parse_pairs; [| done].
    by rewrite LinkFacts.build_pairs. }
  assert (1 ≤ clampInt (UrlState.totalItems st) 1 300 ≤ 300) as HT
    by (apply clampInt_range; lia).
  assert (a = {| a_ruleDecimal := clampInt (UrlState.ruleDecimal st) 0 255;
                 a_totalItems := clampInt (UrlState.totalItems st) 1 300;
                 a_initialOnes :=
                   Z.of_nat
                     (length (normalizeSeedIndices
                                (clampInt (UrlState.totalItems st) 1 300)
                                (UrlState.seedIndices st)));
                 a_seedIndices :=
                   normalizeSeedIndices
                     (clampInt (UrlState.totalItems st) 1 300)
                     (UrlState.seedIndices st);
                 a_generations := clampInt (UrlState.generations st) 1 500;
                 a_delay := clampInt (UrlState.delay st) 10 5000 |}) as Ha.
  { unfold a. rewrite Hfrom, draft_of_link by done.
    apply (applied_config_of
             {| a_ruleDecimal := clampInt (UrlState.ruleDecimal st) 0 255;
                a_totalItems := clampInt (UrlState.totalItems st) 1 300;
                a_initialOnes :=
                  Z.of_nat
                    (length (normalizeSeedIndices
                               (clampInt (UrlState.totalItems st) 1 300)
                               (UrlState.seedIndices st)));
                a_seedIndices :=
                  normalizeSeedIndices
                    (clampInt (UrlState.totalItems st) 1 300)
                    (UrlState.seedIndices st);
                a_generations := clampInt (UrlState.generations st) 1 500;
                a_delay := clampInt (UrlState.delay st) 10 5000 |});
      [| done].
    unfold well_formed. cbn [a_ruleDecimal a_totalItems a_initialOnes
      a_seedIndices a_generations a_delay].
    pose proof (length_sorted_range _ _
                  (normalize_sorted (clampInt (UrlState.totalItems st) 1 300)
                     (UrlState.seedIndices st))
                  (normalize_range (clampInt (UrlState.totalItems st) 1 300)
                     (UrlState.seedIndices st))).
    split_and!; try (apply clampInt_range; lia); try lia.
    - apply normalize_sorted.
    - apply normalize_range. }
  assert (shareable a = LinkSpec.reopened st) as Hshare by (by rewrite Ha).
  split_and!; [done | | by rewrite Ha].
  rewrite Hshare. apply LinkFacts.build_reopened.
Qed.

End Opening.

Lemma X21_open_shared_link_witness :
  let st := {| UrlState.ruleDecimal := Int 999;
               UrlState.totalItems := Finite (17 # 2);
               UrlState.generations := NaN; UrlState.delay := Int 25;
               UrlState.seedIndices := [Int 7; Int 3; Int 3; Int 64] |} in
  let props := {| props_totalItems := Int 118; props_initialOnes := None;
                  props_generations := Int 100; props_delay := Int 10 |} in
  let fromUrl :=
    UrlState.parseShareableStateFromLocation
      (λ _, LinkSpec.link_pairs st) LinkSpec.read_decimal
      (UrlState.buildShareableSearch st) in
  UrlState.buildShareableSearch
    (shareable (applied (initialDraft (λ _, O) fromUrl props)))
  = UrlState.buildShareableSearch st.
Proof.
  intros st props fromUrl.
  destruct (X21_open_shared_link (λ _, LinkSpec.link_pairs st)
              LinkSpec.read_decimal (λ _, O) st props)
    as (_ & Hbuild & _);
    [reflexivity | apply LinkFacts.read_decimal_int | done |].
  exact Hbuild.
Defined.

End ComponentFacts.

(** ** Operations of the starred store *)

Module StarredMore.
Import Starred StarredOps StarredSpec StoreSpec JSFacts StarredFacts.

Lemma List_filter_stdpp {A} (f : A → bool) (l : list A) :
  List.filter f l = filter (λ x, f x = true) l.
Proof.
  induction l as [|x l IH]; [done |]. simpl. destruct (f x) eqn:Hx.
  - rewrite filter_cons_True by done. by rewrite IH.
  - rewrite filter_cons_False by congruence. done.
Qed.

Lemma elem_of_List_filter {A} (f : A → bool) (l : list A) (x : A) :
  x ∈ List.filter f l ↔ x ∈ l ∧ f x = true.
Proof. rewrite List_filter_stdpp, list_elem_of_filter. tauto. Qed.

Lemma List_filter_sublist {A} (f : A → bool) (l : list A) :
  List.filter f l `sublist_of` l.
Proof. rewrite List_filter_stdpp. apply sublist_filter. Qed.

Lemma List_filter_all {A} (f : A → bool) (l : list A) :
  Forall (λ x, f x = true) l → List.filter f l = l.
Proof.
  induction 1 as [|x l Hx _ IH]; [done |]. simpl. by rewrite Hx, IH.
Qed.

Lemma existsb_false {A} (f : A → bool) (l : list A) :
  existsb f l = false ↔ Forall (λ x, f x = false) l.
Proof.
  induction l as [|x l IH]; simpl; [by split; [constructor |] |].
  rewrite orb_false_iff, IH, Forall_cons. tauto.
Qed.

Lemma existsb_true {A} (f : A → bool) (l : list A) :
  existsb f l = true ↔ ∃ x, x ∈ l ∧ f x = true.
Proof.
  rewrite existsb_exists. split; intros (x & Hx & Hf); exists x;
    (split; [by apply list_elem_of_In | done]).
Qed.

Lemma sublist_sorted {A} (R : A → A → Prop) (l1 l2 : list A) :
  l1 `sublist_of` l2 → StronglySorted R l2 → StronglySorted R l1.
Proof.
  intros Hsub Hsorted. revert l1 Hsub.
  induction Hsorted as [|x l2 Hsorted IH Hall]; intros l1 Hsub.
  - apply sublist_nil_r in Hsub as ->. constructor.
  - apply sublist_cons_r in Hsub as [Hsub | (l1' & -> & Hsub)];
      [by apply IH |].
    constructor; [by apply IH |].
    rewrite Forall_forall in Hall. apply Forall_forall. intros y Hy.
    apply Hall. by eapply sublist_subseteq.
Qed.

Lemma sublist_Forall {A} (P : A → Prop) (l1 l2 : list A) :
  l1 `sublist_of` l2 → Forall P l2 → Forall P l1.
Proof.
  intros Hsub Hall. rewrite Forall_forall in Hall. apply Forall_forall.
  intros x Hx. apply Hall. by eapply sublist_subseteq.
Qed.

(** A sorted list is left as it is by the sort. *)
Lemma sort_id {A} (leb : A → A → bool) (l : list A) :
  StronglySorted (λ a b, leb a b = true) l → JS.sort leb l = l.
Proof.
  induction 1 as [|x l Hsorted IH Hall]; [done |].
  change (JS.sort leb (x :: l)) with (JS.insert leb x (JS.sort leb l)).
  rewrite IH. destruct l as [|y l]; [done |]. simpl.
  apply Forall_cons in Hall as [-> _]. done.
Qed.

Lemma newer_first_newer (a b : json) :
  newer_or_equal a b → newer_first a b = true.
Proof.
  intros (qa & qb & Ha & Hb & Hle). unfold newer_first.
  rewrite Ha, Hb. simpl. apply Qle_bool_iff. lra.
Qed.

Lemma sort_newest_first (l : list json) :
  StronglySorted newer_or_equal l → JS.sort newer_first l = l.
Proof.
  intros Hsorted. apply sort_id.
  induction Hsorted as [|x l Hsorted IH Hall]; constructor; [done |].
  eapply Forall_impl; [exact Hall |]. intros b. apply newer_first_newer.
Qed.

Lemma normalizeSearch_idem (s : string) :
  normalizeSearch (normalizeSearch s) = normalizeSearch s.
Proof.
  destruct s as [|c s]; [done |].
  destruct (decide (c = "?"%char)) as [-> | Hc]; [done |].
  assert (normalizeSearch (String c s) = "?" +:+ String c s) as ->
    by (unfold normalizeSearch; by rewrite decide_False).
  done.
Qed.

Lemma normalizeSearch_empty (s : string) :
  normalizeSearch s = EmptyString ↔ s = EmptyString.
Proof.
  split; [| by intros ->]. destruct s as [|c s]; [done |].
  unfold normalizeSearch. by case_decide.
Qed.

(** *** Reading the id of an entry *)

Lemma has_id_id_of (id : string) (o : json) :
  has_id id o = true → id_of o = id.
Proof.
  unfold has_id, id_of. destruct (prop o "id") as [[| | | s | |]|]; try done.
  by intros ?%bool_decide_eq_true.
Qed.

Lemma has_id_valid (id : string) (o : json) :
  isStarredConfig o = true → has_id id o = bool_decide (id_of o = id).
Proof.
  intros Hvalid.
  destruct (valid_is_object o Hvalid)
    as (fields & i & s & qr & qc & -> & Hid & _).
  unfold has_id, id_of. by rewrite Hid.
Qed.

Lemma added_props (starred : StarredConfig) :
  id_of (added starred) = normalizeSearch (sc_id starred)
  ∧ search_of (added starred) = normalizeSearch (sc_search starred)
  ∧ createdAt (added starred) = sc_createdAt starred
  ∧ has_id (normalizeSearch (sc_id starred)) (added starred) = true
  ∧ isStarredConfig (added starred)
    = isFinite (sc_ruleDecimal starred) && isFinite (sc_createdAt starred).
Proof.
  split_and!; try done.
  unfold has_id, added, to_json. cbn. by apply bool_decide_eq_true.
Qed.

Lemma isConfigStarred_valid (items : list json) (search : string) :
  Forall (λ o, isStarredConfig o = true) items →
  isConfigStarred items search = true
  ↔ normalizeSearch search ∈ id_of <$> items.
Proof.
  intros Hvalid. unfold isConfigStarred.
  rewrite existsb_true, list_elem_of_fmap. rewrite Forall_forall in Hvalid.
  split.
  - intros (o & Ho & Hid). exists o. split; [| done].
    symmetry. by apply has_id_id_of.
  - intros (o & Hid & Ho). exists o. split; [done |].
    rewrite has_id_valid by (by apply Hvalid). by apply bool_decide_eq_true.
Qed.

(** *** Removing a star *)

Lemma remove_not_starred (items : list json) (search : string) :
  isConfigStarred (removeConfigStar items search) search = false.
Proof.
  unfold isConfigStarred, removeConfigStar.
  apply existsb_false, Forall_forall.
  intros o [_ Hneg]%elem_of_List_filter. by apply negb_true_iff.
Qed.

Lemma store_ok_sublist (l1 l2 : list json) :
  l1 `sublist_of` l2 → store_ok l2 → store_ok l1.
Proof.
  intros Hsub (Hvalid & Hcanon & Hnodup & Hsorted & Hlen).
  split_and!.
  - by eapply sublist_Forall.
  - by eapply sublist_Forall.
  - eapply sublist_NoDup; [exact Hnodup |]. by apply fmap_sublist.
  - by eapply sublist_sorted.
  - apply sublist_length in Hsub. lia.
Qed.

(** X22. [removeConfigStar] keeps, in their order, exactly the entries
    whose id is not the normalized search string: afterwards the
    configuration is not starred, the other ones are untouched, and a
    list without the configuration is returned as it is. *)
Theorem X22_remove_star (items : list json) (search : string) :
  Forall (λ o, isStarredConfig o = true) items →
  let out := removeConfigStar items search in
  isConfigStarred out search = false
  ∧ (∀ o : json, o ∈ out ↔ o ∈ items ∧ id_of o ≠ normalizeSearch search)
  ∧ out `sublist_of` items
  ∧ (isConfigStarred items search = false → out = items)
  ∧ (store_ok items → store_ok out).
Proof.
  intros Hvalid out. rewrite Forall_forall in Hvalid.
  split_and!.
  - apply remove_not_starred.
  - intros o. unfold out, removeConfigStar. rewrite elem_of_List_filter.
    split.
    + intros [Ho Hneg]. split; [done |].
      rewrite has_id_valid in Hneg by (by apply Hvalid).
      apply negb_true_iff, bool_decide_eq_false in Hneg. done.
    + intros [Ho Hid]. split; [done |].
      rewrite has_id_valid by (by apply Hvalid).
      by apply negb_true_iff, bool_decide_eq_false.
  - apply List_filter_sublist.
  - intros Hnot. unfold out, removeConfigStar. apply List_filter_all.
    unfold isConfigStarred in Hnot. apply existsb_false in Hnot.
    eapply Forall_impl; [exact Hnot |]. intros o Ho. cbv beta in *.
    by rewrite Ho.
  - apply store_ok_sublist, List_filter_sublist.
Qed.

Lemma X22_remove_star_witness :
  isConfigStarred
    (removeConfigStar [entry "?b" 90 3; entry "?a" 22 1] "a") "a" = false.
Proof.
  destruct (X22_remove_star [entry "?b" 90 3; entry "?a" 22 1] "a")
    as (Hnot & _).
  { by repeat (apply Forall_cons_2; [done |]). }
  exact Hnot.
Defined.

(** *** Adding a star *)

Lemma add_unfold (items : list json) (starred : StarredConfig) :
  normalizeSearch (sc_id starred) ≠ EmptyString →
  addConfigStar items starred
  = take MAX_ITEMS
      (JS.sort newer_first
         (added starred :: removeConfigStar items (sc_id starred))).
Proof. intros Hid. unfold addConfigStar. by rewrite decide_False. Qed.

Lemma add_short (items : list json) (starred : StarredConfig) :
  normalizeSearch (sc_id starred) ≠ EmptyString → (length items < 50)%nat →
  addConfigStar items starred
  ≡ₚ added starred :: removeConfigStar items (sc_id starred).
Proof.
  intros Hid Hlen. rewrite add_unfold by done.
  rewrite take_ge; [apply sort_perm |].
  rewrite sort_perm. cbn [length].
  pose proof (sublist_length _ _
                (List_filter_sublist
                   (λ i, negb (has_id (normalizeSearch (sc_id starred)) i))
                   items)) as Hsub.
  unfold removeConfigStar, MAX_ITEMS. lia.
Qed.

Lemma add_starred (items : list json) (starred : StarredConfig) :
  normalizeSearch (sc_id starred) ≠ EmptyString → (length items < 50)%nat →
  isConfigStarred (addConfigStar items starred) (sc_id starred) = true.
Proof.
  intros Hid Hlen. unfold isConfigStarred. apply existsb_true.
  exists (added starred). split; [| apply added_props].
  rewrite add_short by done. apply list_elem_of_here.
Qed.

Lemma removed_ids (items : list json) (search : string) :
  Forall (λ o, isStarredConfig o = true) items →
  normalizeSearch search ∉ id_of <$> removeConfigStar items search.
Proof.
  intros Hvalid Hin. rewrite Forall_forall in Hvalid.
  apply list_elem_of_fmap in Hin as (o & Hid & Ho).
  unfold removeConfigStar in Ho.
  apply elem_of_List_filter in Ho as [Ho Hneg].
  rewrite has_id_valid in Hneg by (by apply Hvalid).
  apply negb_true_iff, bool_decide_eq_false in Hneg. done.
Qed.

(** X23. [addConfigStar] leaves the list alone for an empty id.
    Otherwise the result has at most 50 entries, each the new entry or
    an old one with another id, and distinct ids stay distinct; below
    the limit nothing is lost and the configuration is starred; and a
    new entry at least as recent as every old one, on a list kept
    newest first, goes to the front. *)
Theorem X23_add_star (items : list json) (starred : StarredConfig) :
  Forall (λ o, isStarredConfig o = true) items →
  let id := normalizeSearch (sc_id starred) in
  let out := addConfigStar items starred in
  (id = EmptyString → out = items)
  ∧ (id ≠ EmptyString →
     (length out ≤ 50)%nat
     ∧ (∀ o : json, o ∈ out →
          o = added starred ∨ (o ∈ items ∧ id_of o ≠ id))
     ∧ (NoDup (id_of <$> items) → NoDup (id_of <$> out))
     ∧ ((length items < 50)%nat →
        isConfigStarred out (sc_id starred) = true
        ∧ ∀ o : json, o ∈ items → id_of o ≠ id → o ∈ out)
     ∧ (StronglySorted newer_or_equal items →
        (∀ o : json, o ∈ items → newer_or_equal (added starred) o) →
        out = take 50 (added starred
                         :: removeConfigStar items (sc_id starred)))).
Proof.
  intros Hvalid id out. split.
  { intros Hid. unfold out, addConfigStar. fold id. by rewrite decide_True. }
  intros Hid. unfold out. rewrite add_unfold by done.
  pose proof (X := Hvalid). rewrite Forall_forall in X.
  assert (∀ o : json, o ∈ removeConfigStar items (sc_id starred)
            ↔ o ∈ items ∧ id_of o ≠ id) as Hmem.
  { intros o. unfold removeConfigStar. rewrite elem_of_List_filter.
    fold id. split.
    - intros [Ho Hneg]. split; [done |].
      rewrite has_id_valid in Hneg by (by apply X).
      by apply negb_true_iff, bool_decide_eq_false in Hneg.
    - intros [Ho Hne]. split; [done |].
      rewrite has_id_valid by (by apply X).
      by apply negb_true_iff, bool_decide_eq_false. }
  split_and!.
  - rewrite length_take. unfold MAX_ITEMS. lia.
  - intros o Ho%subseteq_take. rewrite sort_perm in Ho.
    apply elem_of_cons in Ho as [-> | Ho]; [by left |].
    right. by apply Hmem.
  - intros Hnodup. rewrite fmap_take.
    eapply sublist_NoDup; [| apply sublist_take].
    rewrite sort_perm, fmap_cons. apply NoDup_cons. split.
    + destruct (added_props starred) as (-> & _). by apply removed_ids.
    + eapply sublist_NoDup; [exact Hnodup |].
      apply fmap_sublist, List_filter_sublist.
  - intros Hlen. rewrite <- add_unfold by done.
    split; [by apply add_starred |].
    intros o Ho Hne. rewrite add_short by done.
    apply list_elem_of_further. by apply Hmem.
  - intros Hsorted Hnewest. f_equal.
    change (JS.sort newer_first
              (added starred :: removeConfigStar items (sc_id starred)))
      with (JS.insert newer_first (added starred)
              (JS.sort newer_first (removeConfigStar items (sc_id starred)))).
    rewrite sort_newest_first
      by (eapply sublist_sorted; [apply List_filter_sublist | done]).
    assert (Forall (λ o, newer_first (added starred) o = true)
              (removeConfigStar items (sc_id starred))) as Hfront.
    { apply Forall_forall. intros o [Ho _]%Hmem.
      by apply newer_first_newer, Hnewest. }
    destruct (removeConfigStar items (sc_id starred)) as [|o rest]; [done |].
    apply Forall_cons in Hfront as [Ho _]. simpl. by rewrite Ho.
Qed.

Lemma X23_add_star_witness :
  addConfigStar [entry "?b" 90 3; entry "?a" 22 1]
    {| sc_id := "a"; sc_search := "a"; sc_ruleDecimal := Int 22;
       sc_createdAt := Int 7 |}
  = [entry "?a" 22 7; entry "?b" 90 3].
Proof.
  destruct (X23_add_star [entry "?b" 90 3; entry "?a" 22 1]
              {| sc_id := "a"; sc_search := "a"; sc_ruleDecimal := Int 22;
                 sc_createdAt := Int 7 |}) as (_ & Hadd).
  { by repeat (apply Forall_cons_2; [done |]). }
  destruct Hadd as (_ & _ & _ & _ & Hfront); [done |].
  apply Hfront.
  - repeat constructor. by exists 3%Q, 1%Q.
  - intros o Ho. apply elem_of_cons in Ho as [-> | Ho].
    + by exists 7%Q, 3%Q.
    + apply list_elem_of_singleton in Ho as ->. by exists 7%Q, 1%Q.
Defined.

(** *** Toggling a star *)

Lemma build_normal (st : UrlState.ShareableAutomatonState) :
  normalizeSearch (UrlState.buildShareableSearch st)
  = UrlState.buildShareableSearch st
  ∧ UrlState.buildShareableSearch st ≠ EmptyString.
Proof. by rewrite LinkFacts.build_pairs. Qed.

Lemma toggle_unfold (items : list json)
    (st : UrlState.ShareableAutomatonState) (now : number) :
  toggleConfigStar items st now
  = if isConfigStarred items (UrlState.buildShareableSearch st)
    then removeConfigStar items (UrlState.buildShareableSearch st)
    else addConfigStar items (makeStarredFromState st now).
Proof. done. Qed.

Lemma toggle_flips (items : list json)
    (st : UrlState.ShareableAutomatonState) (now : number) :
  (length items < 50)%nat →
  isConfigStarred (toggleConfigStar items st now)
    (UrlState.buildShareableSearch st)
  = negb (isConfigStarred items (UrlState.buildShareableSearch st)).
Proof.
  intros Hlen. rewrite toggle_unfold.
  destruct (build_normal st) as [Hnormal Hne].
  destruct (isConfigStarred items (UrlState.buildShareableSearch st)) eqn:Hs.
  - apply remove_not_starred.
  - apply (add_starred items (makeStarredFromState st now)); [| done].
    cbn [sc_id makeStarredFromState]. by rewrite Hnormal.
Qed.

Lemma toggle_length (items : list json)
    (st : UrlState.ShareableAutomatonState) (now : number) :
  isConfigStarred items (UrlState.buildShareableSearch st) = true →
  (length (toggleConfigStar items st now) ≤ length items)%nat.
Proof.
  intros Hs. rewrite toggle_unfold, Hs.
  apply sublist_length, List_filter_sublist.
Qed.

(** X24. Below the limit of 50 entries, [toggleConfigStar] flips
    whether the configuration is starred, and toggling twice, at any
    two times, brings that back to what it was. *)
Theorem X24_toggle_flips_star (items : list json)
    (st : UrlState.ShareableAutomatonState) (now now' : number) :
  (length items < 50)%nat →
  let search := UrlState.buildShareableSearch st in
  isConfigStarred (toggleConfigStar items st now) search
  = negb (isConfigStarred items search)
  ∧ isConfigStarred
      (toggleConfigStar (toggleConfigStar items st now) st now') search
    = isConfigStarred items search.
Proof.
  intros Hlen search. split; [by apply toggle_flips |].
  destruct (isConfigStarred items search) eqn:Hs.
  - rewrite toggle_flips.
    + rewrite toggle_flips by done. fold search. by rewrite Hs.
    + pose proof (toggle_length items st now Hs). lia.
  - pose proof (toggle_flips items st now Hlen) as Hfirst.
    fold search in Hfirst. rewrite Hs in Hfirst.
    rewrite (toggle_unfold (toggleConfigStar items st now)).
    fold search. rewrite Hfirst. apply remove_not_starred.
Qed.

Lemma X24_toggle_flips_star_witness :
  let st := {| UrlState.ruleDecimal := Int 22; UrlState.totalItems := Int 8;
               UrlState.generations := Int 5; UrlState.delay := Int 10;
               UrlState.seedIndices := [Int 4] |} in
  isConfigStarred (toggleConfigStar [entry "?b" 90 3] st (Int 9))
    (UrlState.buildShareableSearch st) = true.
Proof.
  intros st.
  destruct (X24_toggle_flips_star [entry "?b" 90 3] st (Int 9) (Int 9))
    as [Hflip _]; [simpl; lia |].
  exact Hflip.
Defined.

(** *** The store invariant *)

Lemma add_store_ok (items : list json) (starred : StarredConfig) :
  store_ok items →
  isStarredConfig (added starred) = true → canonical (added starred) →
  store_ok (addConfigStar items starred).
Proof.
  intros (Hvalid & Hcanon & Hnodup & Hsorted & Hlen) Hnew Hnewc.
  assert (normalizeSearch (sc_id starred) ≠ EmptyString) as Hid.
  { destruct Hnewc as [Hne _]. by destruct (added_props starred) as (<- & _). }
  rewrite add_unfold by done.
  set (next := added starred :: removeConfigStar items (sc_id starred)).
  assert (Forall (λ o, isStarredConfig o = true) next) as Hv.
  { apply Forall_cons_2; [done |].
    eapply sublist_Forall; [apply List_filter_sublist | done]. }
  assert (Forall canonical next) as Hc.
  { apply Forall_cons_2; [done |].
    eapply sublist_Forall; [apply List_filter_sublist | done]. }
  assert (NoDup (id_of <$> next)) as Hn.
  { unfold next. rewrite fmap_cons. apply NoDup_cons. split.
    - destruct (added_props starred) as (-> & _). by apply removed_ids.
    - eapply sublist_NoDup; [exact Hnodup |].
      apply fmap_sublist, List_filter_sublist. }
  split_and!.
  - apply Forall_take. by rewrite sort_perm.
  - apply Forall_take. by rewrite sort_perm.
  - rewrite fmap_take. eapply sublist_NoDup; [| apply sublist_take].
    by rewrite sort_perm.
  - eapply StronglySorted_app_1_l. rewrite take_drop.
    apply (sort_sorted newer_first (λ o, isStarredConfig o = true));
      [apply newer_first_true | apply newer_first_false
       | apply newer_or_equal_trans | done].
  - rewrite length_take. unfold MAX_ITEMS. lia.
Qed.

(** X25. The operations keep the store in its form: from a list of
    valid entries in canonical form, with distinct ids, newest first
    and at most 50 long, [toggleConfigStar] at a finite time for a
    state with a finite rule returns such a list again. *)
Theorem X25_toggle_keeps_store (items : list json)
    (st : UrlState.ShareableAutomatonState) (now : number) :
  store_ok items →
  isFinite now = true → isFinite (UrlState.ruleDecimal st) = true →
  store_ok (toggleConfigStar items st now).
Proof.
  intros Hok Hnow Hrule. rewrite toggle_unfold.
  destruct (build_normal st) as [Hnormal Hne].
  destruct (isConfigStarred items (UrlState.buildShareableSearch st)).
  - eapply store_ok_sublist; [apply List_filter_sublist | done].
  - destruct (added_props (makeStarredFromState st now))
      as (Hid & Hsearch & _ & _ & Hvalid).
    cbn [sc_id sc_search sc_ruleDecimal sc_createdAt makeStarredFromState]
      in Hid, Hsearch, Hvalid.
    rewrite Hnormal in Hid, Hsearch.
    apply add_store_ok; [done | |].
    + by rewrite Hvalid, Hnow, Hrule.
    + unfold canonical. rewrite Hid, Hsearch. by rewrite Hnormal.
Qed.

Lemma X25_toggle_keeps_store_witness :
  store_ok
    (toggleConfigStar [entry "?b" 90 3]
       {| UrlState.ruleDecimal := Int 22; UrlState.totalItems := Int 8;
          UrlState.generations := Int 5; UrlState.delay := Int 10;
          UrlState.seedIndices := [Int 4] |} (Int 9)).
Proof.
  apply X25_toggle_keeps_store; [| done | done].
  unfold store_ok. split_and!.
  - by repeat (apply Forall_cons_2; [done |]).
  - by repeat (apply Forall_cons_2; [done |]).
  - apply NoDup_singleton.
  - repeat constructor.
  - simpl. lia.
Defined.

(** *** Saving and loading *)

Lemma with_prop_same (key : string) (v : json)
    (fields : list (string * json)) :
  prop (JObject fields) key = Some v → with_prop key v fields = fields.
Proof.
  induction fields as [|[k w] fields IH]; [done |].
  rewrite prop_cons. cbn [with_prop].
  destruct (decide (k = key)) as [-> | Hne].
  - by intros [= ->].
  - intros Hprop. by rewrite IH.
Qed.

Lemma canonical_id_canonical (o : json) :
  canonical o → canonical_id o = id_of o.
Proof. intros (_ & Hs & Hn). unfold canonical_id. by rewrite Hs. Qed.

Lemma normalized_same (o : json) :
  isStarredConfig o = true → canonical o → normalized o = o.
Proof.
  intros Hvalid Hcanon.
  pose proof (canonical_id_canonical o Hcanon) as Hcid.
  destruct Hcanon as (_ & Hsearch & _).
  destruct (valid_is_object o Hvalid)
    as (fields & id & s & qr & qc & -> & Hid & Hs & _).
  unfold normalized. rewrite Hcid.
  unfold search_of in Hsearch. rewrite Hs in Hsearch.
  unfold id_of in *. rewrite Hid in *. subst s.
  rewrite (with_prop_same "search") by done.
  by rewrite (with_prop_same "id") by done.
Qed.

Lemma search_of_normalized (item : json) :
  isStarredConfig item = true →
  search_of (normalized item) = canonical_id item.
Proof.
  intros Hvalid.
  destruct (valid_is_object item Hvalid)
    as (fields & id & s & qr & qc & -> & _).
  unfold normalized, search_of. by rewrite !prop_with_prop.
Qed.

Lemma normalized_canonical (item : json) :
  isStarredConfig item = true → canonical_id item ≠ EmptyString →
  canonical (normalized item).
Proof.
  intros Hvalid Hne. destruct (normalized_props item Hvalid) as (_ & Hid & _).
  unfold canonical. rewrite Hid, search_of_normalized by done.
  split_and!; [done | done |]. apply normalizeSearch_idem.
Qed.

(** The loop keeps only entries in canonical form. *)
Lemma dedupe_canonical (rest : list json) (seen : gset string)
    (out : list json) :
  Forall (λ o, isStarredConfig o = true) rest → Forall canonical out →
  Forall canonical (foldl dedupe_step (seen, out) rest).2.
Proof.
  revert seen out.
  induction rest as [|item rest IH]; intros seen out Hrest Hout; [done |].
  apply Forall_cons in Hrest as [Hitem Hrest].
  change (foldl dedupe_step (seen, out) (item :: rest))
    with (foldl dedupe_step (dedupe_step (seen, out) item) rest).
  rewrite dedupe_step_valid by done.
  repeat case_decide; try (by apply IH).
  apply IH; [done |]. apply Forall_app. split; [done |].
  apply Forall_singleton. by apply normalized_canonical.
Qed.

(** On a list in the form of the store the loop changes nothing. *)
Lemma dedupe_same (rest : list json) (seen : gset string) (out : list json) :
  Forall (λ o, isStarredConfig o = true) rest → Forall canonical rest →
  NoDup (id_of <$> rest) → (∀ o, o ∈ rest → id_of o ∉ seen) →
  (foldl dedupe_step (seen, out) rest).2 = out ++ rest.
Proof.
  revert seen out.
  induction rest as [|item rest IH]; intros seen out Hvalid Hcanon Hnodup Hnew.
  - by rewrite app_nil_r.
  - apply Forall_cons in Hvalid as [Hitem Hvalid].
    apply Forall_cons in Hcanon as [Hitemc Hcanon].
    rewrite fmap_cons in Hnodup. apply NoDup_cons in Hnodup as [Hfresh Hnodup].
    change (foldl dedupe_step (seen, out) (item :: rest))
      with (foldl dedupe_step (dedupe_step (seen, out) item) rest).
    rewrite dedupe_step_valid by done.
    rewrite (canonical_id_canonical item Hitemc).
    rewrite decide_False by (by destruct Hitemc).
    rewrite decide_False by (apply Hnew, list_elem_of_here).
    rewrite normalized_same by done.
    rewrite IH; [by rewrite <- app_assoc | done | done | done |].
    intros o Ho. rewrite elem_of_union, elem_of_singleton.
    intros [Heq | Hin].
    + apply Hfresh. rewrite <- Heq. apply list_elem_of_fmap. by exists o.
    + by apply (Hnew o); [apply list_elem_of_further |].
Qed.

Lemma keepable_canonical (o : json) :
  isStarredConfig o = true → canonical o → keepable o = true.
Proof.
  intros Hvalid (Hne & _).
  destruct (valid_is_object o Hvalid)
    as (fields & id & s & qr & qc & -> & Hid & _).
  unfold keepable. rewrite Hid. unfold id_of in Hne. rewrite Hid in Hne.
  by apply negb_true_iff, bool_decide_eq_false.
Qed.

Section Store.

Variable JSON_parse : string → option json.
Variable JSON_stringify : json → string.

(** X26. Saving and loading: when [JSON.parse] reads back what
    [JSON.stringify] wrote, a list in the form of the store is saved
    whole under the storage key, the other keys of the storage are left
    alone, and loading from the new storage returns the list itself. *)
Theorem X26_save_load_round_trip (storage : gmap string string)
    (items : list json) :
  store_ok items →
  JSON_parse (JSON_stringify (JArray items)) = Some (JArray items) →
  ∃ storage' : gmap string string,
    saveStarredConfigs JSON_stringify (Some storage) items = Some storage'
    ∧ loadStarredConfigs JSON_parse (Some (λ key, storage' !! key)) = items
    ∧ ∀ key : string, key ≠ STORAGE_KEY → storage' !! key = storage !! key.
Proof.
  intros (Hvalid & Hcanon & Hnodup & Hsorted & Hlen) Hjson.
  assert (take MAX_ITEMS (List.filter keepable items) = items) as Htrim.
  { rewrite List_filter_all; [by apply take_ge |].
    rewrite Forall_forall in Hvalid, Hcanon. apply Forall_forall.
    intros o Ho. apply keepable_canonical; auto. }
  exists (<[STORAGE_KEY := JSON_stringify (JArray items)]> storage).
  split_and!.
  - unfold saveStarredConfigs. by rewrite Htrim.
  - rewrite (load_array JSON_parse _ items).
    + rewrite List_filter_all by done.
      rewrite dedupe_same; [| done | done | done |].
      * rewrite app_nil_l, sort_newest_first by done. by apply take_ge.
      * intros o _. apply not_elem_of_empty.
    + rewrite lookup_insert_eq. unfold safeJsonParse. by rewrite Hjson.
  - intros key Hkey. by rewrite lookup_insert_ne.
Qed.

(** X27. Whatever the storage holds, the loaded list is in the form of
    the store: valid entries whose id is their search string,
    normalized and not empty, with distinct ids, newest first, at most
    50 of them. *)
Theorem X27_loaded_list_is_store (window : option (string → option string)) :
  store_ok (loadStarredConfigs JSON_parse window).
Proof.
  assert (store_ok []) as Hnil.
  { unfold store_ok.
    split_and!; [constructor | constructor | constructor | constructor
                 | simpl; lia]. }
  destruct window as [getItem|]; [| done].
  destruct (safeJsonParse JSON_parse (getItem STORAGE_KEY))
    as [| b | n | s | parsed | fields] eqn:Hparsed;
    try (rewrite load_other; [done | intros ?; by rewrite Hparsed]).
  rewrite (load_array JSON_parse getItem parsed Hparsed).
  pose proof (loop_inv_fold (List.filter isStarredConfig parsed) [] ∅ []
                (filter_valid parsed) loop_inv_start) as Hinv.
  pose proof (dedupe_canonical (List.filter isStarredConfig parsed) ∅ []
                (filter_valid parsed) (Forall_nil_2 _)) as Hcanon.
  simpl app in Hinv.
  destruct (foldl dedupe_step (∅, []) (List.filter isStarredConfig parsed))
    as [seen loaded].
  destruct Hinv as (Hvalid & Hnodup & _). simpl in Hvalid, Hnodup, Hcanon.
  assert (Forall (λ o, isStarredConfig o = true)
            (JS.sort newer_first loaded)) as Hsorted_valid
    by (by rewrite sort_perm).
  split_and!.
  - by apply Forall_take.
  - apply Forall_take. by rewrite sort_perm.
  - rewrite fmap_take.
    apply (sublist_NoDup _ (id_of <$> JS.sort newer_first loaded));
      [by rewrite sort_perm | apply sublist_take].
  - eapply StronglySorted_app_1_l. rewrite take_drop.
    apply (sort_sorted newer_first (λ o, isStarredConfig o = true));
      [apply newer_first_true | apply newer_first_false
       | apply newer_or_equal_trans | done].
  - rewrite length_take. unfold MAX_ITEMS. lia.
Qed.

End Store.

Lemma X26_save_load_round_trip_witness :
  ∃ storage' : gmap string string,
    saveStarredConfigs (λ _, "[two entries]") (Some {[ "theme" := "dark" ]})
      [entry "?b" 90 3; entry "?a" 22 1] = Some storage'
    ∧ loadStarredConfigs
        (λ _, Some (JArray [entry "?b" 90 3; entry "?a" 22 1]))
        (Some (λ key, storage' !! key))
      = [entry "?b" 90 3; entry "?a" 22 1]
    ∧ ∀ key : string, key ≠ STORAGE_KEY →
        storage' !! key = ({[ "theme" := "dark" ]} : gmap string string) !! key.
Proof.
  apply (X26_save_load_round_trip
           (λ _, Some (JArray [entry "?b" 90 3; entry "?a" 22 1]))
           (λ _, "[two entries]")); [| done].
  unfold store_ok. split_and!.
  - by repeat (apply Forall_cons_2; [done |]).
  - by repeat (apply Forall_cons_2; [done |]).
  - apply NoDup_cons. split; [| apply NoDup_singleton].
    by intros ?%list_elem_of_singleton.
  - repeat constructor. by exists 3%Q, 1%Q.
  - simpl. lia.
Defined.

(** *** A star and its state *)

Section Stars.

Variable URLSearchParams : string → UrlState.params.
Variable Number : string → number.

(** X28. A star made from a state carries the link of the state as id
    and as search string, in normalized form; and when the platform's
    parser returns the pairs the link was serialized from and [Number]
    reads decimal numerals, [parseStarredToState] gets from it the
    clamped fields and the normalized seeds of that state. *)
Theorem X28_star_opens_its_state (st : UrlState.ShareableAutomatonState)
    (now : number) :
  URLSearchParams ("?" +:+ UrlState.params_toString (LinkSpec.link_pairs st))
  = LinkSpec.link_pairs st →
  (∀ z : Z, 0 ≤ z ≤ 5000 → Number (String_of_int z) = Int z) →
  let star := makeStarredFromState st now in
  sc_id star = UrlState.buildShareableSearch st
  ∧ sc_search star = UrlState.buildShareableSearch st
  ∧ normalizeSearch (sc_search star) = sc_search star
  ∧ sc_search star ≠ EmptyString
  ∧ parseStarredToState URLSearchParams Number (sc_search star)
    = LinkSpec.link_state st.
Proof.
  intros Hpairs Hnum star.
  destruct (build_normal st) as [Hnormal Hne].
  split_and!; [done | done | done | done |].
  unfold parseStarredToState, star. cbn [sc_search makeStarredFromState].
  rewrite Hnormal. apply LinkFacts.parse_pairs; [| done].
  by rewrite LinkFacts.build_pairs.
Qed.

End Stars.

Lemma X28_star_opens_its_state_witness :
  let st := {| UrlState.ruleDecimal := Int 30; UrlState.totalItems := Int 8;
               UrlState.generations := Int 5; UrlState.delay := Int 10;
               UrlState.seedIndices := [Int 4] |} in
  parseStarredToState (λ _, LinkSpec.link_pairs st) LinkSpec.read_decimal
    (sc_search (makeStarredFromState st (Int 9)))
  = LinkSpec.link_state st.
Proof.
  intros st.
  destruct (X28_star_opens_its_state (λ _, LinkSpec.link_pairs st)
              LinkSpec.read_decimal st (Int 9))
    as (_ & _ & _ & _ & Hparse);
    [reflexivity | apply LinkFacts.read_decimal_int |].
  exact Hparse.
Defined.

End StarredMore.

(** ** The theme setting and the shared storage *)

Module ThemeFacts.
Import Theme.

Section Storage.

Variable JSON_parse : string → option Starred.json.
Variable JSON_stringify : Starred.json → string.

(** X29. The theme setting and the starred configurations share the
    storage without touching each other: a stored setting is read
    back, any other stored text reads as [system], storing a setting
    leaves the loaded stars as they were, and saving the stars leaves
    the setting as it was. *)
Theorem X29_theme_and_stars_share_storage (localStorage : gmap string string)
    (setting : ThemeSetting) (items : list Starred.json) :
  getStoredThemeSetting (Some (setStoredThemeSetting localStorage setting))
  = setting
  ∧ (∀ text : string,
       localStorage !! STORAGE_KEY = Some text →
       text ≠ "light" → text ≠ "dark" →
       getStoredThemeSetting (Some localStorage) = system)
  ∧ Starred.loadStarredConfigs JSON_parse
      (Some (λ key, setStoredThemeSetting localStorage setting !! key))
    = Starred.loadStarredConfigs JSON_parse
        (Some (λ key, localStorage !! key))
  ∧ (∀ saved : gmap string string,
       StarredOps.saveStarredConfigs JSON_stringify (Some localStorage) items
       = Some saved →
       getStoredThemeSetting (Some saved)
       = getStoredThemeSetting (Some localStorage)).
Proof.
  split_and!.
  - unfold getStoredThemeSetting, setStoredThemeSetting.
    rewrite lookup_insert_eq. by destruct setting.
  - intros text Htext Hlight Hdark. unfold getStoredThemeSetting.
    rewrite Htext. rewrite !decide_False by done. by case_decide.
  - unfold Starred.loadStarredConfigs, setStoredThemeSetting.
    by rewrite lookup_insert_ne.
  - intros saved [= <-]. unfold getStoredThemeSetting.
    by rewrite lookup_insert_ne.
Qed.

End Storage.

End ThemeFacts.
